(** * Isosurface: a marching-cubes mesh extractor over a skeleton of
      soft objects (src/Isosurface.cpp).

    The development embeds the member functions of [Isosurface] as Rocq
    functions over an explicit object state, generic in the arithmetic of
    [Ogre::Real] and in the constants of the header. The arithmetic of the
    program is IEEE-754 binary32, and the runs on concrete inputs are runs
    in binary32. *)

From Stdlib Require Import ZArith List Bool Lia SpecFloat.
Import ListNotations.
Local Open Scope Z_scope.

(** ** Outcomes of a call

    A call either returns, stops at a failed [assert], or faults: it leaves
    the behaviour the language defines (an uninitialised read, an index
    outside an array, an [int] that does not fit) or throws what nobody
    catches (a checked index out of range, an allocation that cannot be
    served). Of a run that faults nothing more is said: what the compiled
    program does from there on is not fixed by the source, and it may crash
    or go on and stop at a later [assert]. *)

Inductive outcome (A : Type) : Type :=
| Ok (a : A)
| AssertFail
| Fault.
Arguments Ok {A} a.
Arguments AssertFail {A}.
Arguments Fault {A}.

Definition bind {A B : Type} (m : outcome A) (k : A -> outcome B) : outcome B :=
  match m with
  | Ok a => k a
  | AssertFail => AssertFail
  | Fault => Fault
  end.

Notation "x <- m ;; k" := (bind m (fun x => k))
  (at level 61, m at next level, right associativity).

Definition assert (b : bool) : outcome unit :=
  if b then Ok tt else AssertFail.

Definition defined {A : Type} (o : option A) : outcome A :=
  match o with
  | Some a => Ok a
  | None => Fault
  end.

(** [for (int i = lo; i < hi; i++) body], threading the loop's state. *)
Fixpoint for_steps {S : Type} (n : nat) (i : Z)
    (body : Z -> S -> outcome S) (s : S) : outcome S :=
  match n with
  | O => Ok s
  | Datatypes.S n' => s' <- body i s ;; for_steps n' (i + 1) body s'
  end.

Definition for_loop {S : Type} (lo hi : Z)
    (body : Z -> S -> outcome S) (s : S) : outcome S :=
  for_steps (Z.to_nat (hi - lo)) lo body s.

(** The indices [i, i+1, ...] of [n] rounds of a loop, and a loop body run
    over a list of indices in turn; the proofs unroll [for_loop] into
    these. *)
Fixpoint zrange (n : nat) (i : Z) : list Z :=
  match n with
  | O => []
  | Datatypes.S n' => i :: zrange n' (i + 1)
  end.

Fixpoint each {S A : Type} (l : list A) (body : A -> S -> outcome S) (s : S)
    : outcome S :=
  match l with
  | [] => Ok s
  | a :: rest => s' <- body a s ;; each rest body s'
  end.

(** A function that may fault, applied along a list. *)
Fixpoint mapM {A B : Type} (f : A -> outcome B) (l : list A) : outcome (list B) :=
  match l with
  | [] => Ok []
  | a :: rest => b <- f a ;; bs <- mapM f rest ;; Ok (b :: bs)
  end.

(** Arrays and vectors indexed by an [int]. *)
Definition zth {A : Type} (l : list A) (i : Z) : option A :=
  if i <? 0 then None else nth_error l (Z.to_nat i).

Fixpoint set_nth {A : Type} (l : list A) (n : nat) (v : A) : list A :=
  match l, n with
  | [], _ => []
  | _ :: t, O => v :: t
  | h :: t, Datatypes.S n' => h :: set_nth t n' v
  end.

Definition zset {A : Type} (l : list A) (i : Z) (v : A) : list A :=
  if i <? 0 then l else set_nth l (Z.to_nat i) v.

Definition INT_MAX : Z := 2147483647.
Definition INT_MIN : Z := -2147483648.

Definition fits_int (n : Z) : bool := (INT_MIN <=? n) && (n <=? INT_MAX).

(** ** The arithmetic of [Ogre::Real]

    The operations the extractor uses on [Ogre::Real], with the few facts
    about them that hold of machine floats and of exact numbers alike. *)

Class RealArith (real : Type) : Type := {
  fadd : real -> real -> real;
  fsub : real -> real -> real;
  fmul : real -> real -> real;
  fdiv : real -> real -> real;
  fneg : real -> real;
  flt : real -> real -> bool;
  fle : real -> real -> bool;
  feq : real -> real -> bool;
  (** [(float) n] *)
  float_of_int : Z -> real;
  (** [(int) x]: truncation, undefined when the value does not fit *)
  int_of_float : real -> option Z;
  (** [Ogre::Math::Sqrt], [Ogre::Math::Pow] *)
  fsqrt : real -> real;
  fpow : real -> real -> real;
  FLT_MAX : real;
  (** equality of representations, as [VertexKey] compares positions *)
  real_eq_dec : forall a b : real, {a = b} + {a <> b};
  fadd_comm : forall a b, fadd a b = fadd b a;
  fmul_comm : forall a b, fmul a b = fmul b a;
  fle_not_gt : forall a b, fle a b = true -> flt b a = false;
  feq_minus_one : feq (float_of_int (-1)) (float_of_int (-1)) = true
}.

Definition fgt {real : Type} `{RealArith real} (a b : real) : bool := flt b a.

(** ** The constants of the header

    [Isosurface.h] declares the enumeration [BlendingFunction], whose last
    enumerator is [NONE], and the marching-cubes lookup tables. The header is
    not part of the sources at hand, so the model takes its constants as
    parameters; an array is the function from its indices. *)

Class Header : Type := {
  NONE : Z;
  cubeOffsets : Z -> Z -> Z;
  a2iEdgeConnection : Z -> Z -> Z;
  aiCubeEdgeFlags : Z -> Z;
  a2iTriangleConnectionTable : Z -> Z -> Z
}.

(** ** Vectors, skeleton nodes and the extractor's state *)

Section Extractor.
Context {real : Type} {RA : RealArith real} {HD : Header}.

Record Vector3 : Type := mkVector3 { vx : real; vy : real; vz : real }.

Definition vadd (a b : Vector3) : Vector3 :=
  mkVector3 (fadd (vx a) (vx b)) (fadd (vy a) (vy b)) (fadd (vz a) (vz b)).

Definition vsub (a b : Vector3) : Vector3 :=
  mkVector3 (fsub (vx a) (vx b)) (fsub (vy a) (vy b)) (fsub (vz a) (vz b)).

(** [f * v], the scalar on the left as in [length * (cell.p[p2] - cell.p[p1])] *)
Definition vscale (f : real) (v : Vector3) : Vector3 :=
  mkVector3 (fmul f (vx v)) (fmul f (vy v)) (fmul f (vz v)).

(** A vector assigned a scalar takes it in every component. *)
Definition vsplat (f : real) : Vector3 := mkVector3 f f f.

Definition vlength (v : Vector3) : real :=
  fsqrt (fadd (fadd (fmul (vx v) (vx v)) (fmul (vy v) (vy v))) (fmul (vz v) (vz v))).

(** [Ogre::Vector3::normalise]: a vector of length zero is left as it is. *)
Definition normalise (v : Vector3) : Vector3 :=
  let fLength := vlength v in
  if fgt fLength (float_of_int 0) then
    let fInvLength := fdiv (float_of_int 1) fLength in
    mkVector3 (fmul (vx v) fInvLength) (fmul (vy v) fInvLength) (fmul (vz v) fInvLength)
  else v.

Definition Vector3_eq_dec (a b : Vector3) : {a = b} + {a <> b}.
Proof. decide equality; apply real_eq_dec. Defined.

(** A skeleton node; the virtual [getDistanceTo] is a field. *)
Record SkeletonNode : Type := mkSkeletonNode {
  radius : real;
  extendsFrom : Vector3;
  extendsTo : Vector3;
  getDistanceTo : Vector3 -> real
}.

(** Modelled from the spec: [SphereNode] is declared outside the sources at
    hand; a sphere of centre [c] and radius [r] has [extendsFrom = c - r],
    [extendsTo = c + r] and [distanceTo(p) = |p - c|]. *)
Definition SphereNode (c : Vector3) (r : real) : SkeletonNode :=
  mkSkeletonNode r (vsub c (vsplat r)) (vadd c (vsplat r))
                 (fun p => vlength (vsub p c)).

(** Three indices into the vertex array. *)
Record IndexedTriangle : Type := mkIndexedTriangle { i0 : Z; i1 : Z; i2 : Z }.

(** Three corner positions. *)
Record Triangle : Type := mkTriangle { corner0 : Vector3; corner1 : Vector3; corner2 : Vector3 }.

(** A cube of the grid: corner positions, corner values and the
    classification bitmask. *)
Record Cell : Type := mkCell {
  p : list Vector3;
  val : list real;
  iFlagIndex : Z
}.

(** The data members of [Isosurface]. [mVertexHash] is the [IndexBuffer]
    from position keys to vertex indices, kept as an association list. *)
Record Isosurface : Type := mkIsosurface {
  mSkeleton : list SkeletonNode;
  mCubeSize : real;
  mBlendingFunction : Z;
  mTargetValue : real;
  mVertices : list Vector3;
  mNormals : list Vector3;
  mTriangles : list IndexedTriangle;
  mVertexHash : list (Vector3 * Z);
  mExtendsFrom : Vector3;
  mExtendsTo : Vector3
}.

(** ** The scalar field *)

(** The term one node adds to the potential at [pos]. *)
Definition kernel (node : SkeletonNode) (pos : Vector3) : real :=
  let d := fmul (radius node) (float_of_int 10) in
  let r := fdiv (getDistanceTo node pos) (radius node) in
  if fle r (float_of_int 1) then
    fdiv (fadd (fsub (fpow r (float_of_int 4)) (fmul (fmul (float_of_int 2) r) r))
               (float_of_int 1))
         (fadd (float_of_int 1) (fmul (fmul d r) r))
  else float_of_int 0.

(** [Isosurface::IsoValue]: the body of the loop over [mSkeleton] ends in an
    unconditional [break], so the loop is left after its first iteration and
    the nodes behind the first are never read. *)
Definition IsoValue (skeleton : list SkeletonNode) (pos : Vector3) : real :=
  let potential := float_of_int 0 in
  match skeleton with
  | [] => potential
  | node :: _ =>
      let d := fmul (radius node) (float_of_int 10) in
      let r := fdiv (getDistanceTo node pos) (radius node) in
      if fle r (float_of_int 1) then
        fadd potential
          (fdiv (fadd (fsub (fpow r (float_of_int 4)) (fmul (fmul (float_of_int 2) r) r))
                      (float_of_int 1))
                (fadd (float_of_int 1) (fmul (fmul d r) r)))
      else potential
  end.

(** The scalar field as the specification words it: the kernel summed over
    all the nodes of the skeleton. *)
Definition IsoValue_spec (skeleton : list SkeletonNode) (pos : Vector3) : real :=
  fold_left (fun potential node => fadd potential (kernel node pos))
            skeleton (float_of_int 0).

(** [Isosurface::getNormal]. The first sample along z is taken at
    [(vertex.x, vertex.z, vertex.z - mCubeSize)], as the source has it. *)
Definition getNormal (skeleton : list SkeletonNode) (cubeSize : real)
    (vertex : Vector3) : Vector3 :=
  let iso_x1 := IsoValue skeleton (mkVector3 (fsub (vx vertex) cubeSize) (vy vertex) (vz vertex)) in
  let iso_x2 := IsoValue skeleton (mkVector3 (fadd (vx vertex) cubeSize) (vy vertex) (vz vertex)) in
  let iso_y1 := IsoValue skeleton (mkVector3 (vx vertex) (fsub (vy vertex) cubeSize) (vz vertex)) in
  let iso_y2 := IsoValue skeleton (mkVector3 (vx vertex) (fadd (vy vertex) cubeSize) (vz vertex)) in
  let iso_z1 := IsoValue skeleton (mkVector3 (vx vertex) (vz vertex) (fsub (vz vertex) cubeSize)) in
  let iso_z2 := IsoValue skeleton (mkVector3 (vx vertex) (vy vertex) (fadd (vz vertex) cubeSize)) in
  normalise (mkVector3 (fsub iso_x1 iso_x2) (fsub iso_y1 iso_y2) (fsub iso_z1 iso_z2)).

(** The normal as the specification words it: the negated central
    difference of the field along each axis, normalised. *)
Definition getNormal_spec (skeleton : list SkeletonNode) (cubeSize : real)
    (v : Vector3) : Vector3 :=
  let h := cubeSize in
  normalise (mkVector3
    (fsub (IsoValue skeleton (mkVector3 (fsub (vx v) h) (vy v) (vz v)))
          (IsoValue skeleton (mkVector3 (fadd (vx v) h) (vy v) (vz v))))
    (fsub (IsoValue skeleton (mkVector3 (vx v) (fsub (vy v) h) (vz v)))
          (IsoValue skeleton (mkVector3 (vx v) (fadd (vy v) h) (vz v))))
    (fsub (IsoValue skeleton (mkVector3 (vx v) (vy v) (fsub (vz v) h)))
          (IsoValue skeleton (mkVector3 (vx v) (vy v) (fadd (vz v) h))))).

(** ** The grid *)

Definition getMapIndex (x y z width height depth : Z) : Z :=
  z * width * height + y * width + x.

(** The position [fillScalarField] samples for the corner [(x, y, z)]. *)
Definition corner_coords (from : Vector3) (cubeSize : real) (x y z : Z) : Vector3 :=
  mkVector3 (fadd (vx from) (fmul (float_of_int x) cubeSize))
            (fadd (vy from) (fmul (float_of_int y) cubeSize))
            (fadd (vz from) (fmul (float_of_int z) cubeSize)).

(** The body of the innermost loop of [fillScalarField]. *)
Definition fill_slot (skeleton : list SkeletonNode) (from : Vector3) (cubeSize : real)
    (xAmount yAmount zAmount z y x : Z) (scalarField : list real) : outcome (list real) :=
  let coords := corner_coords from cubeSize x y z in
  let index := getMapIndex x y z (xAmount + 1) (yAmount + 1) (zAmount + 1) in
  old <- defined (zth scalarField index) ;;
  _ <- assert (feq old (float_of_int (-1))) ;;
  Ok (zset scalarField index (IsoValue skeleton coords)).

(** [Isosurface::fillScalarField] *)
Definition fillScalarField (skeleton : list SkeletonNode) (from : Vector3)
    (cubeSize : real) (scalarField : list real) (xAmount yAmount zAmount : Z)
    : outcome (list real) :=
  for_loop 0 (zAmount + 1) (fun z =>
    for_loop 0 (yAmount + 1) (fun y =>
      for_loop 0 (xAmount + 1) (fun x =>
        fill_slot skeleton from cubeSize xAmount yAmount zAmount z y x)))
    scalarField.

(** The corners of the grid in the order the loops of [fillScalarField]
    visit them: z outermost, x innermost. *)
Definition corners (xAmount yAmount zAmount : Z) : list (Z * Z * Z) :=
  flat_map (fun z =>
    flat_map (fun y =>
      map (fun x => (x, y, z)) (zrange (Z.to_nat (xAmount + 1)) 0))
      (zrange (Z.to_nat (yAmount + 1)) 0))
    (zrange (Z.to_nat (zAmount + 1)) 0).

(** The position the specification gives the corner [(x, y, z)]:
    [extendsFrom + cubeSize * (x, y, z)]. *)
Definition grid_point (from : Vector3) (cubeSize : real) (x y z : Z) : Vector3 :=
  vadd from (vscale cubeSize (mkVector3 (float_of_int x) (float_of_int y) (float_of_int z))).

(** ** One cell *)

(** The crossing point stored for the edge [iEdge]; a corner index the cell
    does not have is a fault. *)
Definition edge_vertex (cell : Cell) (iEdge : Z) : outcome Vector3 :=
  let p1 := a2iEdgeConnection iEdge 0 in
  let p2 := a2iEdgeConnection iEdge 1 in
  val1 <- defined (zth (val cell) p1) ;;
  val2 <- defined (zth (val cell) p2) ;;
  pos1 <- defined (zth (p cell) p1) ;;
  pos2 <- defined (zth (p cell) p2) ;;
  let length := fdiv val1 (fadd val2 val1) in
  Ok (vadd pos1 (vscale length (vsub pos2 pos1))).

(** The loop over the twelve edges; an entry of [asEdgeVertex] that was not
    written is [None]. *)
Definition edge_vertices (cell : Cell) (iEdgeFlags : Z) : outcome (list (option Vector3)) :=
  for_loop 0 12 (fun iEdge asEdgeVertex =>
    if negb (Z.land iEdgeFlags (Z.shiftl 1 iEdge) =? 0) then
      v <- edge_vertex cell iEdge ;;
      Ok (zset asEdgeVertex iEdge (Some v))
    else Ok asEdgeVertex)
    (repeat None 12).

(** Reading [asEdgeVertex[iVertex]]. *)
Definition read_edge_vertex (asEdgeVertex : list (option Vector3)) (iVertex : Z)
    : outcome Vector3 :=
  match zth asEdgeVertex iVertex with
  | Some (Some v) => Ok v
  | _ => Fault
  end.

(** The loop over at most [n] further triangles, left at the first row entry
    below zero. *)
Fixpoint triangles_from (n : nat) (iTriangle : Z) (flag : Z)
    (asEdgeVertex : list (option Vector3)) : outcome (list Triangle) :=
  match n with
  | O => Ok []
  | S n' =>
      if a2iTriangleConnectionTable flag (3 * iTriangle) <? 0 then Ok []
      else
        c0 <- read_edge_vertex asEdgeVertex (a2iTriangleConnectionTable flag (3 * iTriangle + 0)) ;;
        c1 <- read_edge_vertex asEdgeVertex (a2iTriangleConnectionTable flag (3 * iTriangle + 1)) ;;
        c2 <- read_edge_vertex asEdgeVertex (a2iTriangleConnectionTable flag (3 * iTriangle + 2)) ;;
        rest <- triangles_from n' (iTriangle + 1) flag asEdgeVertex ;;
        Ok (mkTriangle c0 c1 c2 :: rest)
  end.

(** [Isosurface::Triangulate]; the result lists [triangles[0 .. nTriangles)]. *)
Definition Triangulate (cell : Cell) : outcome (list Triangle) :=
  let iEdgeFlags := aiCubeEdgeFlags (iFlagIndex cell) in
  if iEdgeFlags =? 0 then Ok []
  else
    asEdgeVertex <- edge_vertices cell iEdgeFlags ;;
    triangles_from 5 0 (iFlagIndex cell) asEdgeVertex.

(** The triangulation of a cell as the specification words it. The crossing
    point of an edge with the corners [p1], [p2] is
    [p[p1] + t * (p[p2] - p[p1])] with [t = val[p1] / (val[p1] + val[p2])]. *)
Definition crossing_spec (cell : Cell) (e : Z) : outcome Vector3 :=
  let p1 := a2iEdgeConnection e 0 in
  let p2 := a2iEdgeConnection e 1 in
  val1 <- defined (zth (val cell) p1) ;;
  val2 <- defined (zth (val cell) p2) ;;
  pos1 <- defined (zth (p cell) p1) ;;
  pos2 <- defined (zth (p cell) p2) ;;
  let t := fdiv val1 (fadd val1 val2) in
  Ok (vadd pos1 (vscale t (vsub pos2 pos1))).

(** [edgeVertex]: the crossing point for each of the twelve edges whose bit
    is set in [edgeFlags], nothing for the others. *)
Definition edgeVertex_spec (cell : Cell) (edgeFlags : Z) : outcome (list (option Vector3)) :=
  mapM (fun e => if Z.testbit edgeFlags e
                 then v <- crossing_spec cell e ;; Ok (Some v)
                 else Ok None)
       (zrange 12 0).

(** A row of the triangle table read three entries at a time, up to [n]
    triples, until the sentinel -1. *)
Fixpoint row_triples (n : nat) (k : Z) (row : Z -> Z) : list (Z * Z * Z) :=
  match n with
  | O => []
  | S n' =>
      if row k =? -1 then []
      else (row k, row (k + 1), row (k + 2)) :: row_triples n' (k + 3) row
  end.

Definition Triangulate_spec (cell : Cell) : outcome (list Triangle) :=
  let edgeFlags := aiCubeEdgeFlags (iFlagIndex cell) in
  if edgeFlags =? 0 then Ok []
  else
    edgeVertex <- edgeVertex_spec cell edgeFlags ;;
    mapM (fun t => let '(a, b, c) := t in
            va <- read_edge_vertex edgeVertex a ;;
            vb <- read_edge_vertex edgeVertex b ;;
            vc <- read_edge_vertex edgeVertex c ;;
            Ok (mkTriangle va vb vc))
         (row_triples 5 0 (a2iTriangleConnectionTable (iFlagIndex cell))).

(** The local copy of the cell at [(x, y, z)]. [Cell] is declared in the
    header; its [iFlagIndex], which the loop only ever ors bits into, is
    taken to start at 0. *)
Definition make_cell (s : Isosurface) (scalarField : list real)
    (xAmount yAmount zAmount x y z : Z) : outcome Cell :=
  for_loop 0 8 (fun i cell =>
    let index := getMapIndex (x + cubeOffsets i 0) (y + cubeOffsets i 1) (z + cubeOffsets i 2)
                             (xAmount + 1) (yAmount + 1) (zAmount + 1) in
    let pos := mkVector3
      (fadd (vx (mExtendsFrom s)) (fmul (mCubeSize s) (float_of_int (x + cubeOffsets i 0))))
      (fadd (vy (mExtendsFrom s)) (fmul (mCubeSize s) (float_of_int (y + cubeOffsets i 1))))
      (fadd (vz (mExtendsFrom s)) (fmul (mCubeSize s) (float_of_int (z + cubeOffsets i 2)))) in
    v <- defined (zth scalarField index) ;;
    Ok (mkCell (p cell ++ [pos]) (val cell ++ [v])
               (if fle v (mTargetValue s)
                then Z.lor (iFlagIndex cell) (Z.shiftl 1 i)
                else iFlagIndex cell)))
    (mkCell [] [] 0).

(** ** The vertex and index buffers *)

(** Modelled from the spec: [VertexKey] is declared in the header; two keys
    are equal when their three floats are, representation for
    representation. *)
Definition key_eqb (a b : Vector3) : bool :=
  if Vector3_eq_dec a b then true else false.

Definition find_key (v : Vector3) (hash : list (Vector3 * Z)) : option Z :=
  match find (fun kv => key_eqb (fst kv) v) hash with
  | Some kv => Some (snd kv)
  | None => None
  end.

Definition set_mesh (s : Isosurface) (vertices normals : list Vector3)
    (triangles : list IndexedTriangle) (hash : list (Vector3 * Z)) : Isosurface :=
  mkIsosurface (mSkeleton s) (mCubeSize s) (mBlendingFunction s) (mTargetValue s)
               vertices normals triangles hash (mExtendsFrom s) (mExtendsTo s).

(** One corner of a triangle: the index of its position, which is added to
    the buffers when the hash does not know it. The state carries
    [iVertexIndex]. *)
Definition add_corner (v : Vector3) (st : Isosurface * Z) : (Isosurface * Z) * Z :=
  let '(s, iVertexIndex) := st in
  match find_key v (mVertexHash s) with
  | None =>
      let normal := getNormal (mSkeleton s) (mCubeSize s) v in
      ((set_mesh s (mVertices s ++ [v]) (mNormals s ++ [normal]) (mTriangles s)
                 ((v, iVertexIndex) :: mVertexHash s),
        iVertexIndex + 1),
       iVertexIndex)
  | Some currentVertexIndex => (st, currentVertexIndex)
  end.

Definition add_triangle (t : Triangle) (st : Isosurface * Z) : Isosurface * Z :=
  let '(st, k0) := add_corner (corner0 t) st in
  let '(st, k1) := add_corner (corner1 t) st in
  let '(st, k2) := add_corner (corner2 t) st in
  let '(s, iVertexIndex) := st in
  (set_mesh s (mVertices s) (mNormals s) (mTriangles s ++ [mkIndexedTriangle k0 k1 k2])
            (mVertexHash s),
   iVertexIndex).

(** The body of the innermost loop of the march. *)
Definition march_cell (scalarField : list real) (xAmount yAmount zAmount z y x : Z)
    (st : Isosurface * Z) : outcome (Isosurface * Z) :=
  cell <- make_cell (fst st) scalarField xAmount yAmount zAmount x y z ;;
  triangles <- Triangulate cell ;;
  Ok (fold_left (fun st t => add_triangle t st) triangles st).

(** The three loops of the march over the cells. *)
Definition march (s : Isosurface) (scalarField : list real) (xAmount yAmount zAmount : Z)
    : outcome Isosurface :=
  st <- for_loop 0 zAmount (fun z =>
          for_loop 0 yAmount (fun y =>
            for_loop 0 xAmount (fun x =>
              march_cell scalarField xAmount yAmount zAmount z y x)))
          (s, 0) ;;
  Ok (fst st).

(** The test that lets [generateObject] build a grid. *)
Definition box_exceeds_cube (s : Isosurface) : bool :=
  let boundingBox := vsub (mExtendsTo s) (mExtendsFrom s) in
  fgt (vx boundingBox) (mCubeSize s)
  && fgt (vy boundingBox) (mCubeSize s)
  && fgt (vz boundingBox) (mCubeSize s).

(** [int xAmount = boundingBox.x / mCubeSize + 1], and the like for y, z. *)
Definition grid_amounts (s : Isosurface) : outcome (Z * Z * Z) :=
  let boundingBox := vsub (mExtendsTo s) (mExtendsFrom s) in
  xAmount <- defined (int_of_float (fadd (fdiv (vx boundingBox) (mCubeSize s)) (float_of_int 1))) ;;
  yAmount <- defined (int_of_float (fadd (fdiv (vy boundingBox) (mCubeSize s)) (float_of_int 1))) ;;
  zAmount <- defined (int_of_float (fadd (fdiv (vz boundingBox) (mCubeSize s)) (float_of_int 1))) ;;
  Ok (xAmount, yAmount, zAmount).

(** The size of the scalar field is computed in [int] and has to be one a
    vector can take. *)
Definition grid_fits (xAmount yAmount zAmount : Z) : bool :=
  fits_int (xAmount + 1) && fits_int (yAmount + 1) && fits_int (zAmount + 1)
  && fits_int ((xAmount + 1) * (yAmount + 1))
  && (0 <=? (xAmount + 1) * (yAmount + 1) * (zAmount + 1))
  && fits_int ((xAmount + 1) * (yAmount + 1) * (zAmount + 1)).

(** The scalar field: allocated, set to -1 throughout, then filled. *)
Definition sample_grid (s : Isosurface) (xAmount yAmount zAmount : Z)
    : outcome (list real) :=
  _ <- defined (if grid_fits xAmount yAmount zAmount then Some tt else None) ;;
  let scalarField :=
    repeat (float_of_int (-1)) (Z.to_nat ((xAmount + 1) * (yAmount + 1) * (zAmount + 1))) in
  fillScalarField (mSkeleton s) (mExtendsFrom s) (mCubeSize s)
                  scalarField xAmount yAmount zAmount.

(** [Isosurface::generateObject] *)
Definition generateObject (s : Isosurface) : outcome Isosurface :=
  if box_exceeds_cube s then
    amounts <- grid_amounts s ;;
    let '(xAmount, yAmount, zAmount) := amounts in
    scalarField <- sample_grid s xAmount yAmount zAmount ;;
    march s scalarField xAmount yAmount zAmount
  else Ok s.

(** ** The two entry points *)

(** One round of the loop that grows the bounding box by a node. *)
Definition grow_box (box : Vector3 * Vector3) (node : SkeletonNode)
    : Vector3 * Vector3 :=
  let '(from, to) := box in
  let to' := mkVector3
    (if fgt (vx (extendsTo node)) (vx to) then vx (extendsTo node) else vx to)
    (if fgt (vy (extendsTo node)) (vy to) then vy (extendsTo node) else vy to)
    (if fgt (vz (extendsTo node)) (vz to) then vz (extendsTo node) else vz to) in
  let from' := mkVector3
    (if flt (vx (extendsFrom node)) (vx from) then vx (extendsFrom node) else vx from)
    (if flt (vy (extendsFrom node)) (vy from) then vy (extendsFrom node) else vy from)
    (if flt (vz (extendsFrom node)) (vz from) then vz (extendsFrom node) else vz from) in
  (from', to').

(** The box the loop of [calculate] ends with: it starts from
    [mExtendsFrom = FLT_MAX], [mExtendsTo = -FLT_MAX]. *)
Definition bounding_box (skeleton : list SkeletonNode) : Vector3 * Vector3 :=
  fold_left grow_box skeleton (vsplat FLT_MAX, vsplat (fneg FLT_MAX)).

Definition set_extends (s : Isosurface) (box : Vector3 * Vector3) : Isosurface :=
  mkIsosurface (mSkeleton s) (mCubeSize s) (mBlendingFunction s) (mTargetValue s)
               (mVertices s) (mNormals s) (mTriangles s) (mVertexHash s)
               (fst box) (snd box).

(** [Isosurface::calculate] *)
Definition calculate (skeleton : list SkeletonNode) (cubeSize : real) (blend : Z)
    (targetValue : real) (s : Isosurface) : outcome Isosurface :=
  let s := mkIsosurface skeleton cubeSize blend targetValue
             (mVertices s) (mNormals s) (mTriangles s) (mVertexHash s)
             (mExtendsFrom s) (mExtendsTo s) in
  let s := mkIsosurface (mSkeleton s) (mCubeSize s) (mBlendingFunction s) (mTargetValue s)
             [] [] [] [] (vsplat FLT_MAX) (vsplat (fneg FLT_MAX)) in
  _ <- assert (fgt (mCubeSize s) (float_of_int 0)) ;;
  _ <- assert ((0 <=? mBlendingFunction s) && (mBlendingFunction s <=? NONE)) ;;
  if (0 <? Z.of_nat (length (mSkeleton s))) then
    generateObject
      (set_extends s (fold_left grow_box (mSkeleton s) (mExtendsFrom s, mExtendsTo s)))
  else Ok s.

(** [Isosurface::update] *)
Definition update (skeleton : list SkeletonNode) (s : Isosurface) : outcome Isosurface :=
  let s := mkIsosurface skeleton (mCubeSize s) (mBlendingFunction s) (mTargetValue s)
             (mVertices s) (mNormals s) (mTriangles s) (mVertexHash s)
             (mExtendsFrom s) (mExtendsTo s) in
  let s := set_mesh s [] [] (mTriangles s) (mVertexHash s) in
  generateObject s.

(** ** Sequences of calls and the shape of the mesh *)

Inductive call : Type :=
| Calculate (skeleton : list SkeletonNode) (cubeSize : real) (blend : Z) (targetValue : real)
| Update (skeleton : list SkeletonNode).

Definition run_call (c : call) (s : Isosurface) : outcome Isosurface :=
  match c with
  | Calculate skeleton cubeSize blend targetValue =>
      calculate skeleton cubeSize blend targetValue s
  | Update skeleton => update skeleton s
  end.

Fixpoint run (calls : list call) (s : Isosurface) : outcome Isosurface :=
  match calls with
  | [] => Ok s
  | c :: rest => s' <- run_call c s ;; run rest s'
  end.

Definition index_in_range (n : Z) (t : IndexedTriangle) : Prop :=
  (0 <= i0 t < n) /\ (0 <= i1 t < n) /\ (0 <= i2 t < n).

(** As many normals as vertices, every index of every triangle inside the
    vertex array, no position twice among the vertices. *)
Definition mesh_invariant (s : Isosurface) : Prop :=
  length (mNormals s) = length (mVertices s)
  /\ Forall (index_in_range (Z.of_nat (length (mVertices s)))) (mTriangles s)
  /\ NoDup (mVertices s).

(** ** Translations of the skeleton *)

(** A position moved by [delta]. *)
Definition shift (delta v : Vector3) : Vector3 := vadd v delta.

(** The node [node'] is [node] moved by [delta]: the same radius, the
    extents moved. What the distance function of the moved node has to give
    is said where the scalar field is sampled, at the corners of the
    grid. *)
Definition translated_node (delta : Vector3) (node node' : SkeletonNode) : Prop :=
  radius node' = radius node
  /\ extendsFrom node' = shift delta (extendsFrom node)
  /\ extendsTo node' = shift delta (extendsTo node).

(** Two calls end alike, and where they return their results are related. *)
Definition outcome_rel {A B : Type} (R : A -> B -> Prop)
    (o : outcome A) (o' : outcome B) : Prop :=
  match o, o' with
  | Ok a, Ok b => R a b
  | AssertFail, AssertFail => True
  | Fault, Fault => True
  | _, _ => False
  end.

(** The mesh of [s'] is the mesh of [s] moved by [delta]: the vertices
    moved one by one, the triangles the same. *)
Definition mesh_translated (delta : Vector3) (s s' : Isosurface) : Prop :=
  mVertices s' = map (shift delta) (mVertices s)
  /\ mTriangles s' = mTriangles s.

Definition moved_triangle (delta : Vector3) (t : Triangle) : Triangle :=
  mkTriangle (shift delta (corner0 t)) (shift delta (corner1 t)) (shift delta (corner2 t)).

(** The extractor as [calculate] hands it to [generateObject]: the
    arguments stored, the buffers cleared, the bounding box of the skeleton
    in place. *)
Definition prepared (skeleton : list SkeletonNode) (cubeSize : real) (blend : Z)
    (targetValue : real) : Isosurface :=
  set_extends (mkIsosurface skeleton cubeSize blend targetValue [] [] [] []
                            (vsplat FLT_MAX) (vsplat (fneg FLT_MAX)))
              (bounding_box skeleton).

Definition real_eqb (a b : real) : bool :=
  if real_eq_dec a b then true else false.

(** The cell with its corners moved by [delta]. *)
Definition shifted_cell (delta : Vector3) (cell : Cell) : Cell :=
  mkCell (map (shift delta) (p cell)) (val cell) (iFlagIndex cell).

(** The crossing points [Triangulate] computes for a cell, each with its
    edge: those of the edges whose bit is set in the edge flags. *)
Definition cell_crossings (cell : Cell) : list (Z * Vector3) :=
  flat_map (fun iEdge =>
    if negb (Z.land (aiCubeEdgeFlags (iFlagIndex cell)) (Z.shiftl 1 iEdge) =? 0) then
      match edge_vertex cell iEdge with
      | Ok v => [(iEdge, v)]
      | _ => []
      end
    else [])
    (zrange 12 0).

(** The cells of the march over the scalar field, in the order of the
    loops, and the crossing points of all of them. *)
Definition cells (s : Isosurface) (scalarField : list real) (xAmount yAmount zAmount : Z)
    : list Cell :=
  flat_map (fun z =>
    flat_map (fun y =>
      flat_map (fun x =>
        match make_cell s scalarField xAmount yAmount zAmount x y z with
        | Ok cell => [cell]
        | _ => []
        end)
        (zrange (Z.to_nat xAmount) 0))
      (zrange (Z.to_nat yAmount) 0))
    (zrange (Z.to_nat zAmount) 0).

Definition crossings (s : Isosurface) (scalarField : list real) (xAmount yAmount zAmount : Z)
    : list Vector3 :=
  flat_map (fun cell => map snd (cell_crossings cell))
           (cells s scalarField xAmount yAmount zAmount).

(** The displacement [delta] is added without a rounding error at the
    corners of the grid: the corner of the moved grid is the corner of the
    grid moved, and the field of the moved skeleton has there the value the
    field of the skeleton has at the corner. *)
Definition grid_moves (delta : Vector3) (s s' : Isosurface) (xAmount yAmount zAmount : Z)
    : bool :=
  forallb (fun c : Z * Z * Z =>
    let '(x, y, z) := c in
    key_eqb (corner_coords (mExtendsFrom s') (mCubeSize s') x y z)
            (shift delta (corner_coords (mExtendsFrom s) (mCubeSize s) x y z))
    && real_eqb (IsoValue (mSkeleton s') (corner_coords (mExtendsFrom s') (mCubeSize s') x y z))
                (IsoValue (mSkeleton s) (corner_coords (mExtendsFrom s) (mCubeSize s) x y z)))
    (corners xAmount yAmount zAmount).

(** The displacement is added without a rounding error at the crossing
    points: the crossing point of a moved cell is the crossing point of the
    cell moved, and no two crossing points of the run fall together when
    they are moved. *)
Definition crossings_move (delta : Vector3) (s : Isosurface) (scalarField : list real)
    (xAmount yAmount zAmount : Z) : bool :=
  forallb (fun cell =>
    forallb (fun ev : Z * Vector3 =>
      match edge_vertex (shifted_cell delta cell) (fst ev) with
      | Ok v' => key_eqb v' (shift delta (snd ev))
      | _ => false
      end)
      (cell_crossings cell))
    (cells s scalarField xAmount yAmount zAmount)
  && forallb (fun v =>
       forallb (fun w => implb (key_eqb (shift delta v) (shift delta w)) (key_eqb v w))
               (crossings s scalarField xAmount yAmount zAmount))
       (crossings s scalarField xAmount yAmount zAmount).

(** The run of [generateObject] on [s'] is the run on [s] moved by [delta]
    with no rounding error where the displacement enters: the bounding box
    of [s'] is the box of [s] moved and has the same extent, and, where a
    grid is built, the displacement is exact at its corners and at the
    crossing points. *)
Definition moves_exactly (delta : Vector3) (s s' : Isosurface) : bool :=
  key_eqb (mExtendsFrom s') (shift delta (mExtendsFrom s))
  && key_eqb (mExtendsTo s') (shift delta (mExtendsTo s))
  && key_eqb (vsub (mExtendsTo s') (mExtendsFrom s')) (vsub (mExtendsTo s) (mExtendsFrom s))
  && (if box_exceeds_cube s then
        match grid_amounts s with
        | Ok (xAmount, yAmount, zAmount) =>
            match sample_grid s xAmount yAmount zAmount with
            | Ok scalarField =>
                grid_moves delta s s' xAmount yAmount zAmount
                && crossings_move delta s scalarField xAmount yAmount zAmount
            | _ => true
            end
        | _ => true
        end
      else true).

(** The state [st'] of the march of the moved run while the march of the
    run is in [st]: each with the configuration it started from, the
    vertices and the keys of the hash moved, the triangles and indices the
    same, every key of the hash among the crossing points [known]; the
    normals are left free. *)
Definition moved (delta : Vector3) (s0 s0' : Isosurface) (known : list Vector3)
    (st st' : Isosurface * Z) : Prop :=
  (mCubeSize (fst st) = mCubeSize s0
   /\ mTargetValue (fst st) = mTargetValue s0
   /\ mExtendsFrom (fst st) = mExtendsFrom s0)
  /\ (mCubeSize (fst st') = mCubeSize s0'
      /\ mTargetValue (fst st') = mTargetValue s0'
      /\ mExtendsFrom (fst st') = mExtendsFrom s0')
  /\ mVertices (fst st') = map (shift delta) (mVertices (fst st))
  /\ mTriangles (fst st') = mTriangles (fst st)
  /\ mVertexHash (fst st')
     = map (fun kv => (shift delta (fst kv), snd kv)) (mVertexHash (fst st))
  /\ Forall (fun kv : Vector3 * Z => In (fst kv) known) (mVertexHash (fst st))
  /\ snd st' = snd st.

(** A property of the result of a call that returned. *)
Definition outcome_all {A : Type} (P : A -> Prop) (o : outcome A) : Prop :=
  match o with
  | Ok a => P a
  | _ => True
  end.

(** The buffers during the march: [iVertexIndex] counts the vertices, the
    hash knows every vertex and only indices below [iVertexIndex]. *)
Definition buffers_agree (st : Isosurface * Z) : Prop :=
  snd st = Z.of_nat (length (mVertices (fst st)))
  /\ length (mNormals (fst st)) = length (mVertices (fst st))
  /\ NoDup (mVertices (fst st))
  /\ (forall v, find_key v (mVertexHash (fst st)) = None -> ~ In v (mVertices (fst st)))
  /\ (forall v i, find_key v (mVertexHash (fst st)) = Some i -> 0 <= i < snd st)
  /\ Forall (index_in_range (snd st)) (mTriangles (fst st)).

(** What a caller reads off the extractor after a call that returned. *)
Definition mesh_of (o : outcome Isosurface)
    : option (list Vector3 * list Vector3 * list IndexedTriangle) :=
  match o with
  | Ok s => Some (mVertices s, mNormals s, mTriangles s)
  | _ => None
  end.

Definition aborted {A : Type} (o : outcome A) : bool :=
  match o with
  | AssertFail => true
  | _ => false
  end.

(** The extent of the bounding box of a skeleton along the three axes. *)
Definition box_extent (skeleton : list SkeletonNode) : Vector3 :=
  vsub (snd (bounding_box skeleton)) (fst (bounding_box skeleton)).

(** ** The caller

    [GameState::init] runs [calculate] and hands the mesh to a manual object
    of the renderer: between [begin] and [end], a position and a normal for
    every [i] below [mVertices.size()], read with [at(i)], then a triangle
    for every entry of [mTriangles]. The model records the calls made on the
    manual object; [at] throws on an index outside the vector. *)

Inductive ManualObjectCall : Type :=
| begin
| estimateVertexCount (n : Z)
| position (v : Vector3)
| normal (v : Vector3)
| triangle (a b c : Z)
| end_.

Definition hand_over (iso : Isosurface) : outcome (list ManualObjectCall) :=
  let calls := [begin; estimateVertexCount (Z.of_nat (length (mVertices iso)))] in
  calls <- for_loop 0 (Z.of_nat (length (mVertices iso))) (fun i calls =>
             v <- defined (zth (mVertices iso) i) ;;
             n <- defined (zth (mNormals iso) i) ;;
             Ok (calls ++ [position v; normal n]))
           calls ;;
  calls <- for_loop 0 (Z.of_nat (length (mTriangles iso))) (fun i calls =>
             tri <- defined (zth (mTriangles iso) i) ;;
             Ok (calls ++ [triangle (i0 tri) (i1 tri) (i2 tri)]))
           calls ;;
  Ok (calls ++ [end_]).

(** ** What the statements below speak of *)

(** The members [generateObject] reads and never writes. *)
Definition same_configuration (s s' : Isosurface) : Prop :=
  mSkeleton s' = mSkeleton s
  /\ mCubeSize s' = mCubeSize s
  /\ mBlendingFunction s' = mBlendingFunction s
  /\ mTargetValue s' = mTargetValue s
  /\ mExtendsFrom s' = mExtendsFrom s
  /\ mExtendsTo s' = mExtendsTo s.

(** Every key the hash [small] knows, [big] knows with the same index. *)
Definition hash_extends (big small : list (Vector3 * Z)) : Prop :=
  forall v i, find_key v small = Some i -> find_key v big = Some i.

(** The state [s'] comes from [s] by a march: the configuration kept, the
    buffers longer at their ends, the hash with every entry it had. *)
Definition grown (s s' : Isosurface) : Prop :=
  same_configuration s s'
  /\ (exists vertices, mVertices s' = mVertices s ++ vertices)
  /\ (exists normals, mNormals s' = mNormals s ++ normals)
  /\ (exists triangles, mTriangles s' = mTriangles s ++ triangles)
  /\ hash_extends (mVertexHash s') (mVertexHash s).

(** The hash is the vertex array read backwards: it takes a position to
    the index at which the array holds it, and knows no other position;
    [iVertexIndex] counts the vertices. *)
Definition hash_inverts_vertices (st : Isosurface * Z) : Prop :=
  snd st = Z.of_nat (length (mVertices (fst st)))
  /\ forall v i, find_key v (mVertexHash (fst st)) = Some i
                 <-> zth (mVertices (fst st)) i = Some v.

(** The index [k] occurs in the triangle. *)
Definition uses_index (k : Z) (t : IndexedTriangle) : Prop :=
  i0 t = k \/ i1 t = k \/ i2 t = k.

(** Every vertex index handed out so far occurs in a triangle. *)
Definition every_index_used (st : Isosurface * Z) : Prop :=
  forall k, 0 <= k < snd st -> Exists (uses_index k) (mTriangles (fst st)).

(** A march replayed on an extractor whose hash knows the vertices
    already: the state [st'] of the replay while the first run, started in
    [s0], is in [st]. The replay, started in [u0], has the configuration of
    the first run, has left its vertices, normals and hash as they were, and
    has put behind its triangles what the first run has put behind its
    own. *)
Definition replays (s0 u0 : Isosurface) (st st' : Isosurface * Z) : Prop :=
  same_configuration (fst st) (fst st')
  /\ mVertices (fst st') = mVertices u0
  /\ mNormals (fst st') = mNormals u0
  /\ mVertexHash (fst st') = mVertexHash u0
  /\ exists triangles,
       mTriangles (fst st) = mTriangles s0 ++ triangles
       /\ mTriangles (fst st') = mTriangles u0 ++ triangles.

(** The box holds the node: no lower extent of the node lies below the
    lower corner of the box, no upper extent above the upper corner. *)
Definition encloses (box : Vector3 * Vector3) (node : SkeletonNode) : Prop :=
  flt (vx (extendsFrom node)) (vx (fst box)) = false
  /\ flt (vy (extendsFrom node)) (vy (fst box)) = false
  /\ flt (vz (extendsFrom node)) (vz (fst box)) = false
  /\ fgt (vx (extendsTo node)) (vx (snd box)) = false
  /\ fgt (vy (extendsTo node)) (vy (snd box)) = false
  /\ fgt (vz (extendsTo node)) (vz (snd box)) = false.

(** Two extractors that differ in their skeletons at most, and whose
    skeletons give the same scalar field. *)
Definition same_field (s s' : Isosurface) : Prop :=
  (forall pos, IsoValue (mSkeleton s') pos = IsoValue (mSkeleton s) pos)
  /\ mCubeSize s' = mCubeSize s
  /\ mTargetValue s' = mTargetValue s
  /\ mVertices s' = mVertices s
  /\ mNormals s' = mNormals s
  /\ mTriangles s' = mTriangles s
  /\ mVertexHash s' = mVertexHash s
  /\ mExtendsFrom s' = mExtendsFrom s
  /\ mExtendsTo s' = mExtendsTo s.

(** The same vertices, normals and triangles. *)
Definition same_mesh (s s' : Isosurface) : Prop :=
  mVertices s' = mVertices s /\ mNormals s' = mNormals s /\ mTriangles s' = mTriangles s.

(** The grid of [generateObject] can be built: the three amounts are
    [int]s and so is the size of the scalar field. *)
Definition grid_representable (s : Isosurface) : bool :=
  match grid_amounts s with
  | Ok (xAmount, yAmount, zAmount) => grid_fits xAmount yAmount zAmount
  | _ => false
  end.

(** The tables of the header fit together: the corner offsets are 0 or 1,
    the ends of an edge are corners, and a row of the triangle table names,
    up to its sentinel, only edges whose bit is set in the edge flags of the
    row. *)
Definition offsets_in_cube : bool :=
  forallb (fun i =>
    forallb (fun j => (0 <=? cubeOffsets i j) && (cubeOffsets i j <=? 1)) (zrange 3 0))
    (zrange 8 0).

Definition edges_join_corners : bool :=
  forallb (fun iEdge =>
    forallb (fun j => (0 <=? a2iEdgeConnection iEdge j) && (a2iEdgeConnection iEdge j <? 8))
            (zrange 2 0))
    (zrange 12 0).

Definition edge_flagged (iEdgeFlags iEdge : Z) : bool :=
  (0 <=? iEdge) && (iEdge <? 12) && negb (Z.land iEdgeFlags (Z.shiftl 1 iEdge) =? 0).

Fixpoint row_flagged (n : nat) (iTriangle : Z) (flag : Z) : bool :=
  match n with
  | O => true
  | S n' =>
      if a2iTriangleConnectionTable flag (3 * iTriangle) <? 0 then true
      else
        edge_flagged (aiCubeEdgeFlags flag) (a2iTriangleConnectionTable flag (3 * iTriangle + 0))
        && edge_flagged (aiCubeEdgeFlags flag) (a2iTriangleConnectionTable flag (3 * iTriangle + 1))
        && edge_flagged (aiCubeEdgeFlags flag) (a2iTriangleConnectionTable flag (3 * iTriangle + 2))
        && row_flagged n' (iTriangle + 1) flag
  end.

Definition rows_flagged : bool :=
  forallb (fun flag => (aiCubeEdgeFlags flag =? 0) || row_flagged 5 0 flag) (zrange 256 0).

Definition tables_consistent : bool :=
  offsets_in_cube && edges_join_corners && rows_flagged.

(** The corner [i] of the cell at [(x, y, z)]: its slot in the scalar field
    and its position. *)
Definition corner_slot (xAmount yAmount zAmount x y z i : Z) : Z :=
  getMapIndex (x + cubeOffsets i 0) (y + cubeOffsets i 1) (z + cubeOffsets i 2)
              (xAmount + 1) (yAmount + 1) (zAmount + 1).

Definition corner_position (s : Isosurface) (x y z i : Z) : Vector3 :=
  mkVector3
    (fadd (vx (mExtendsFrom s)) (fmul (mCubeSize s) (float_of_int (x + cubeOffsets i 0))))
    (fadd (vy (mExtendsFrom s)) (fmul (mCubeSize s) (float_of_int (y + cubeOffsets i 1))))
    (fadd (vz (mExtendsFrom s)) (fmul (mCubeSize s) (float_of_int (z + cubeOffsets i 2)))).

(** * Properties of the extractor, whatever the arithmetic and the header *)

(** Reads the members of a state that was just built. *)
Ltac read_members :=
  unfold set_mesh, set_extends;
  cbn [fst snd mSkeleton mCubeSize mBlendingFunction mTargetValue mVertices
       mNormals mTriangles mVertexHash mExtendsFrom mExtendsTo].

(** ** Loops as folds over the list of their indices *)

Lemma for_steps_each {S : Type} (body : Z -> S -> outcome S) :
  forall n i s, for_steps n i body s = each (zrange n i) body s.
Proof.
  induction n as [|n IH]; intros i s; simpl; [reflexivity|].
  destruct (body i s); simpl; auto.
Qed.

Lemma for_loop_each {S : Type} (body : Z -> S -> outcome S) (hi : Z) (s : S) :
  for_loop 0 hi body s = each (zrange (Z.to_nat hi) 0) body s.
Proof. unfold for_loop. rewrite Z.sub_0_r. apply for_steps_each. Qed.

Lemma each_app {S A : Type} (body : A -> S -> outcome S) :
  forall l1 l2 s, each (l1 ++ l2) body s = (s' <- each l1 body s ;; each l2 body s').
Proof.
  induction l1 as [|a l1 IH]; intros l2 s; simpl; [reflexivity|].
  destruct (body a s); simpl; auto.
Qed.

Lemma each_ext {S A : Type} (body body' : A -> S -> outcome S) :
  forall l, (forall a s, In a l -> body a s = body' a s) ->
  forall s, each l body s = each l body' s.
Proof.
  induction l as [|a l IH]; intros H s; simpl; [reflexivity|].
  rewrite (H a s (or_introl eq_refl)).
  destruct (body' a s); simpl; auto.
  apply IH. intros; apply H; right; assumption.
Qed.

Lemma each_map {S A B : Type} (f : A -> B) (body : B -> S -> outcome S) :
  forall l s, each (map f l) body s = each l (fun a => body (f a)) s.
Proof.
  induction l as [|a l IH]; intros s; simpl; [reflexivity|].
  destruct (body (f a) s); simpl; auto.
Qed.

Lemma each_flat_map {S A B : Type} (f : A -> list B) (body : B -> S -> outcome S) :
  forall l s, each (flat_map f l) body s = each l (fun a => each (f a) body) s.
Proof.
  induction l as [|a l IH]; intros s; simpl; [reflexivity|].
  rewrite each_app. destruct (each (f a) body s); simpl; auto.
Qed.

Lemma zrange_length : forall n i, length (zrange n i) = n.
Proof. induction n; intros; simpl; auto. Qed.

Lemma zrange_In : forall n i k, In k (zrange n i) <-> i <= k < i + Z.of_nat n.
Proof.
  induction n as [|n IH]; intros i k; simpl zrange.
  - simpl. lia.
  - simpl In. rewrite IH. lia.
Qed.

Lemma zrange_app : forall n m i,
  zrange (n + m) i = zrange n i ++ zrange m (i + Z.of_nat n).
Proof.
  induction n as [|n IH]; intros m i.
  - simpl. f_equal. lia.
  - cbn [Nat.add zrange app]. f_equal. rewrite IH. f_equal. f_equal. lia.
Qed.

Lemma zrange_NoDup : forall n i, NoDup (zrange n i).
Proof.
  induction n as [|n IH]; intros i; simpl; constructor; auto.
  rewrite zrange_In. lia.
Qed.

Lemma zrange_shift : forall n i d,
  map (fun k => d + k) (zrange n i) = zrange n (d + i).
Proof.
  induction n as [|n IH]; intros i d; simpl; [reflexivity|].
  f_equal. rewrite IH. f_equal. lia.
Qed.

Lemma zrange_from_zero : forall n d,
  map (fun k => d + k) (zrange n 0) = zrange n d.
Proof. intros. rewrite zrange_shift. f_equal. lia. Qed.

(** ** Reading and writing by index *)

Lemma set_nth_length {A : Type} (v : A) :
  forall l n, length (set_nth l n v) = length l.
Proof. induction l as [|h t IH]; intros [|n]; simpl; auto. Qed.

Lemma nth_error_set_nth_same {A : Type} (v : A) :
  forall l n, (n < length l)%nat -> nth_error (set_nth l n v) n = Some v.
Proof.
  induction l as [|h t IH]; intros [|n] H; simpl in *; try lia; auto.
  apply IH. lia.
Qed.

Lemma nth_error_set_nth_other {A : Type} (v : A) :
  forall l n m, n <> m -> nth_error (set_nth l n v) m = nth_error l m.
Proof.
  induction l as [|h t IH]; intros [|n] [|m] H; simpl; auto; try congruence.
Qed.

Lemma zset_length {A : Type} (l : list A) (i : Z) (v : A) :
  length (zset l i v) = length l.
Proof. unfold zset. destruct (i <? 0); [reflexivity|apply set_nth_length]. Qed.

Lemma zth_zset_same {A : Type} (l : list A) (i : Z) (v : A) :
  0 <= i < Z.of_nat (length l) -> zth (zset l i v) i = Some v.
Proof.
  intros H. unfold zth, zset.
  destruct (i <? 0) eqn:E; [apply Z.ltb_lt in E; lia|].
  apply nth_error_set_nth_same. lia.
Qed.

Lemma zth_zset_other {A : Type} (l : list A) (i j : Z) (v : A) :
  i <> j -> zth (zset l i v) j = zth l j.
Proof.
  intros H. unfold zth, zset.
  destruct (j <? 0) eqn:Ej; [reflexivity|].
  destruct (i <? 0) eqn:Ei; [reflexivity|].
  apply nth_error_set_nth_other.
  apply Z.ltb_ge in Ei, Ej. lia.
Qed.

Lemma zth_Some_bound {A : Type} (l : list A) (i : Z) (v : A) :
  zth l i = Some v -> 0 <= i < Z.of_nat (length l).
Proof.
  unfold zth. destruct (i <? 0) eqn:E; [discriminate|].
  intros H. apply Z.ltb_ge in E.
  assert (Z.to_nat i < length l)%nat by (apply nth_error_Some; congruence).
  lia.
Qed.

Lemma zth_repeat {A : Type} (v : A) (n : nat) (i : Z) :
  0 <= i < Z.of_nat n -> zth (repeat v n) i = Some v.
Proof.
  intros H. unfold zth.
  destruct (i <? 0) eqn:E; [apply Z.ltb_lt in E; lia|].
  apply nth_error_repeat. lia.
Qed.


(** ** The scalar field *)


Lemma corner_coords_grid_point (from : Vector3) (cubeSize : real) (x y z : Z) :
  corner_coords from cubeSize x y z = grid_point from cubeSize x y z.
Proof.
  unfold corner_coords, grid_point, vadd, vscale. simpl.
  rewrite !(fmul_comm cubeSize). reflexivity.
Qed.

Lemma fillScalarField_unrolled skeleton from cubeSize scalarField xAmount yAmount zAmount :
  fillScalarField skeleton from cubeSize scalarField xAmount yAmount zAmount
  = each (corners xAmount yAmount zAmount)
         (fun c => let '(x, y, z) := c in
                   fill_slot skeleton from cubeSize xAmount yAmount zAmount z y x)
         scalarField.
Proof.
  unfold fillScalarField, corners.
  rewrite for_loop_each, each_flat_map.
  apply each_ext. intros z s _.
  rewrite for_loop_each, each_flat_map.
  apply each_ext. intros y s' _.
  rewrite for_loop_each, each_map. reflexivity.
Qed.

Lemma corners_In xAmount yAmount zAmount x y z :
  In (x, y, z) (corners xAmount yAmount zAmount)
  <-> (0 <= x <= xAmount /\ 0 <= y <= yAmount /\ 0 <= z <= zAmount).
Proof.
  unfold corners. rewrite in_flat_map. split.
  - intros (z' & Hz & H). rewrite in_flat_map in H. destruct H as (y' & Hy & H).
    rewrite in_map_iff in H. destruct H as (x' & E & Hx).
    inversion E; subst. rewrite zrange_In in Hx, Hy, Hz. lia.
  - intros (Hx & Hy & Hz). exists z. split; [rewrite zrange_In; lia|].
    rewrite in_flat_map. exists y. split; [rewrite zrange_In; lia|].
    rewrite in_map_iff. exists x. split; [reflexivity|rewrite zrange_In; lia].
Qed.

(** The slots of the corners, in the order of the visit, are 0, 1, 2, ... *)
Lemma corners_slots xAmount yAmount zAmount :
  map (fun c => let '(x, y, z) := c in
                getMapIndex x y z (xAmount + 1) (yAmount + 1) (zAmount + 1))
      (corners xAmount yAmount zAmount)
  = zrange (Z.to_nat (zAmount + 1) * (Z.to_nat (yAmount + 1) * Z.to_nat (xAmount + 1))) 0.
Proof.
  unfold corners, getMapIndex.
  set (W := xAmount + 1). set (H := yAmount + 1). set (D := zAmount + 1).
  destruct (Z_le_gt_dec W 0) as [HW|HW].
  { replace (Z.to_nat W) with O by lia. simpl.
    rewrite Nat.mul_0_r, Nat.mul_0_r. simpl.
    induction (zrange (Z.to_nat D) 0) as [|a l IH]; simpl; auto.
    rewrite map_app, IH, app_nil_r.
    induction (zrange (Z.to_nat H) 0); simpl; auto. }
  destruct (Z_le_gt_dec H 0) as [HH|HH].
  { replace (Z.to_nat H) with O by lia. simpl. rewrite Nat.mul_0_r. simpl.
    induction (zrange (Z.to_nat D) 0) as [|a l IH]; simpl; auto. }
  assert (row : forall z n j,
    map (fun c : Z * Z * Z => let '(x, y, z0) := c in z0 * W * H + y * W + x)
        (flat_map (fun y => map (fun x => (x, y, z)) (zrange (Z.to_nat W) 0)) (zrange n j))
    = zrange (n * Z.to_nat W) (z * W * H + j * W)).
  { intros z n. induction n as [|n IH]; intros j; [reflexivity|].
    cbn [zrange flat_map]. rewrite map_app, IH.
    cbn [Nat.mul]. rewrite zrange_app. f_equal.
    - rewrite map_map. apply (zrange_from_zero (Z.to_nat W) (z * W * H + j * W)).
    - f_equal. lia. }
  assert (slab : forall n k,
    map (fun c : Z * Z * Z => let '(x, y, z0) := c in z0 * W * H + y * W + x)
        (flat_map (fun z =>
           flat_map (fun y => map (fun x => (x, y, z)) (zrange (Z.to_nat W) 0))
                    (zrange (Z.to_nat H) 0)) (zrange n k))
    = zrange (n * (Z.to_nat H * Z.to_nat W)) (k * W * H)).
  { induction n as [|n IH]; intros k; [reflexivity|].
    cbn [zrange flat_map]. rewrite map_app, IH, row.
    cbn [Nat.mul]. rewrite zrange_app. f_equal.
    - f_equal. lia.
    - f_equal. nia. }
  rewrite slab. reflexivity.
Qed.

(** A visit of corners with distinct slots, all still at -1, fills each of
    them and touches nothing else. *)
Lemma each_fill_slot skeleton from cubeSize xAmount yAmount zAmount :
  let slot := fun c : Z * Z * Z =>
    let '(x, y, z) := c in
    getMapIndex x y z (xAmount + 1) (yAmount + 1) (zAmount + 1) in
  forall cs scalarField,
    NoDup (map slot cs) ->
    (forall c, In c cs -> zth scalarField (slot c) = Some (float_of_int (-1))) ->
    exists filled,
      each cs (fun c => let '(x, y, z) := c in
                 fill_slot skeleton from cubeSize xAmount yAmount zAmount z y x)
           scalarField = Ok filled
      /\ length filled = length scalarField
      /\ (forall x y z, In (x, y, z) cs ->
            zth filled (slot (x, y, z))
            = Some (IsoValue skeleton (corner_coords from cubeSize x y z)))
      /\ (forall i, ~ In i (map slot cs) -> zth filled i = zth scalarField i).
Proof.
  intros slot cs. induction cs as [|[[x y] z] cs IH]; intros scalarField Hnd Hfree.
  - exists scalarField. simpl. repeat split; auto. intros ? ? ? [].
  - cbn [map] in Hnd. apply NoDup_cons_iff in Hnd. destruct Hnd as [Hfresh Hnd].
    pose proof (Hfree (x, y, z) (or_introl eq_refl)) as Hslot.
    cbn [each]. unfold fill_slot at 1. fold (slot (x, y, z)).
    rewrite Hslot. cbn [defined bind]. rewrite feq_minus_one. cbn [assert bind].
    set (written := zset scalarField (slot (x, y, z))
                         (IsoValue skeleton (corner_coords from cubeSize x y z))).
    destruct (IH written) as (filled & Hrun & Hlen & Hval & Hrest).
    + assumption.
    + intros c Hc. unfold written. rewrite zth_zset_other.
      * apply Hfree. right. assumption.
      * intros E. apply Hfresh. rewrite E. apply in_map. assumption.
    + exists filled. split; [exact Hrun|]. split.
      * rewrite Hlen. apply zset_length.
      * split.
        -- intros x' y' z' [E | Hin]; [|apply Hval; assumption].
           inversion E; subst x' y' z'.
           rewrite Hrest by assumption.
           apply zth_zset_same. eapply zth_Some_bound. exact Hslot.
        -- intros i Hi. rewrite Hrest.
           ++ apply zth_zset_other. intros E. apply Hi. left. assumption.
           ++ intros Hin. apply Hi. right. assumption.
Qed.

Lemma corners_slot_bound xAmount yAmount zAmount x y z :
  In (x, y, z) (corners xAmount yAmount zAmount) ->
  0 <= getMapIndex x y z (xAmount + 1) (yAmount + 1) (zAmount + 1)
    < (xAmount + 1) * (yAmount + 1) * (zAmount + 1).
Proof.
  intros Hin.
  pose proof (in_map (fun c : Z * Z * Z => let '(x, y, z) := c in
                getMapIndex x y z (xAmount + 1) (yAmount + 1) (zAmount + 1)) _ _ Hin) as H.
  rewrite corners_slots in H. cbn beta iota in H.
  apply zrange_In in H. apply corners_In in Hin.
  rewrite !Nat2Z.inj_mul, !Z2Nat.id in H by lia. lia.
Qed.

(** The scalar field [generateObject] marches over: under a size that fits,
    the sampling returns a vector of [(xAmount+1)(yAmount+1)(zAmount+1)]
    values that holds, for every corner of the grid, the field at the
    corner's position. *)
Lemma sample_grid_filled (s : Isosurface) (xAmount yAmount zAmount : Z) :
  grid_fits xAmount yAmount zAmount = true ->
  exists scalarField,
    sample_grid s xAmount yAmount zAmount = Ok scalarField
    /\ Z.of_nat (length scalarField) = (xAmount + 1) * (yAmount + 1) * (zAmount + 1)
    /\ forall x y z,
         0 <= x <= xAmount -> 0 <= y <= yAmount -> 0 <= z <= zAmount ->
         zth scalarField (getMapIndex x y z (xAmount + 1) (yAmount + 1) (zAmount + 1))
         = Some (IsoValue (mSkeleton s) (grid_point (mExtendsFrom s) (mCubeSize s) x y z)).
Proof.
  intros Hfits. unfold sample_grid. rewrite Hfits. cbn [defined bind].
  rewrite fillScalarField_unrolled.
  assert (Hsize : 0 <= (xAmount + 1) * (yAmount + 1) * (zAmount + 1)).
  { unfold grid_fits in Hfits. rewrite !andb_true_iff in Hfits.
    destruct Hfits as [[_ H] _]. apply Z.leb_le in H. exact H. }
  destruct (each_fill_slot (mSkeleton s) (mExtendsFrom s) (mCubeSize s)
              xAmount yAmount zAmount (corners xAmount yAmount zAmount)
              (repeat (float_of_int (-1))
                 (Z.to_nat ((xAmount + 1) * (yAmount + 1) * (zAmount + 1)))))
    as (filled & Hrun & Hlen & Hval & _).
  - rewrite corners_slots. apply zrange_NoDup.
  - intros [[x y] z] Hin. apply zth_repeat.
    apply corners_slot_bound in Hin. lia.
  - exists filled. split; [exact Hrun|]. split.
    + rewrite Hlen, repeat_length. lia.
    + intros x y z Hx Hy Hz. rewrite <- corner_coords_grid_point.
      apply (Hval x y z). apply corners_In. lia.
Qed.

(** No assertion fails inside [generateObject]. *)
Lemma sample_grid_no_assert (s : Isosurface) (xAmount yAmount zAmount : Z) :
  sample_grid s xAmount yAmount zAmount <> AssertFail.
Proof.
  destruct (grid_fits xAmount yAmount zAmount) eqn:Hfits.
  - destruct (sample_grid_filled s xAmount yAmount zAmount Hfits) as (f & H & _).
    rewrite H. discriminate.
  - unfold sample_grid. rewrite Hfits. discriminate.
Qed.


(** ** The state before a call to [calculate] *)


(** C10: the outcome of [calculate] is a function of its four arguments:
    whatever states two extractors are in, the same arguments leave both
    with the same vertices, normals and triangles (and the same members
    altogether), or stop both at the same assertion. *)
Theorem calculate_ignores_prior_state :
  forall skeleton cubeSize blend targetValue (s1 s2 : Isosurface),
    calculate skeleton cubeSize blend targetValue s1
    = calculate skeleton cubeSize blend targetValue s2.
Proof. intros. unfold calculate. simpl. reflexivity. Qed.

Lemma generateObject_skips :
  forall s, box_exceeds_cube s = false -> generateObject s = Ok s.
Proof. intros s H. unfold generateObject. rewrite H. reflexivity. Qed.

(** C8: for a skeleton that is not empty and whose bounding box is no
    longer than the cube size along some axis, [calculate] under a valid
    configuration returns without building a grid, and the mesh it leaves
    has no vertices, no normals and no triangles. *)
Theorem calculate_flat_box_gives_empty_mesh :
  forall skeleton cubeSize blend targetValue (s : Isosurface),
    skeleton <> [] ->
    fgt cubeSize (float_of_int 0) = true ->
    0 <= blend <= NONE ->
    fle (vx (box_extent skeleton)) cubeSize = true
    \/ fle (vy (box_extent skeleton)) cubeSize = true
    \/ fle (vz (box_extent skeleton)) cubeSize = true ->
    exists s',
      calculate skeleton cubeSize blend targetValue s = Ok s'
      /\ mVertices s' = [] /\ mNormals s' = [] /\ mTriangles s' = [].
Proof.
  intros skeleton cubeSize blend targetValue s Hne Hcube Hblend Hflat.
  unfold calculate. simpl. rewrite Hcube. simpl.
  replace ((0 <=? blend) && (blend <=? NONE)) with true
    by (symmetry; apply andb_true_intro; split; apply Z.leb_le; lia).
  simpl.
  destruct skeleton as [|node rest]; [congruence|].
  replace (0 <? Z.of_nat (length (node :: rest))) with true
    by (symmetry; apply Z.ltb_lt; simpl length; lia).
  eexists. split.
  - apply generateObject_skips.
    unfold box_exceeds_cube, set_extends. cbn [mExtendsTo mExtendsFrom mCubeSize].
    unfold box_extent, bounding_box in Hflat.
    unfold fgt.
    destruct Hflat as [H | [H | H]]; apply fle_not_gt in H; rewrite H;
      rewrite ?andb_false_r; reflexivity.
  - repeat split; reflexivity.
Qed.


(** X3: under a valid configuration, [calculate] with an empty skeleton
    returns, and the mesh it leaves has no vertices, no normals and no
    triangles. *)
Theorem calculate_empty_skeleton_gives_empty_mesh :
  forall cubeSize blend targetValue (s : Isosurface),
    fgt cubeSize (float_of_int 0) = true ->
    0 <= blend <= NONE ->
    exists s',
      calculate [] cubeSize blend targetValue s = Ok s'
      /\ mVertices s' = [] /\ mNormals s' = [] /\ mTriangles s' = [].
Proof.
  intros cubeSize blend targetValue s Hcube Hblend.
  unfold calculate. cbn [mCubeSize mBlendingFunction mSkeleton]. rewrite Hcube.
  replace ((0 <=? blend) && (blend <=? NONE)) with true
    by (symmetry; apply andb_true_intro; split; apply Z.leb_le; lia).
  cbn [assert bind length Z.of_nat Z.ltb Z.compare].
  eexists. split; [reflexivity|]. repeat split; reflexivity.
Qed.

(** ** Where an assertion can fail *)

Lemma bind_no_assert {A B : Type} (m : outcome A) (k : A -> outcome B) :
  m <> AssertFail -> (forall a, k a <> AssertFail) -> bind m k <> AssertFail.
Proof. intros Hm Hk. destruct m; simpl; auto; discriminate. Qed.

Lemma defined_no_assert {A : Type} (o : option A) : defined o <> AssertFail.
Proof. destruct o; discriminate. Qed.

Lemma each_no_assert {S A : Type} (body : A -> S -> outcome S) :
  (forall a s, body a s <> AssertFail) ->
  forall l s, each l body s <> AssertFail.
Proof.
  intros Hbody. induction l as [|a l IH]; intros s; simpl; [discriminate|].
  apply bind_no_assert; auto.
Qed.

Lemma for_loop_no_assert {S : Type} (body : Z -> S -> outcome S) :
  (forall i s, body i s <> AssertFail) ->
  forall hi s, for_loop 0 hi body s <> AssertFail.
Proof. intros H hi s. rewrite for_loop_each. apply each_no_assert. exact H. Qed.


Lemma read_edge_vertex_no_assert asEdgeVertex iVertex :
  read_edge_vertex asEdgeVertex iVertex <> AssertFail.
Proof.
  unfold read_edge_vertex.
  destruct (zth asEdgeVertex iVertex) as [[v|]|]; discriminate.
Qed.

Lemma edge_vertex_no_assert cell iEdge : edge_vertex cell iEdge <> AssertFail.
Proof.
  unfold edge_vertex.
  apply bind_no_assert; [apply defined_no_assert|intros ?].
  apply bind_no_assert; [apply defined_no_assert|intros ?].
  apply bind_no_assert; [apply defined_no_assert|intros ?].
  apply bind_no_assert; [apply defined_no_assert|intros ?].
  discriminate.
Qed.

Lemma triangles_from_no_assert flag asEdgeVertex :
  forall n iTriangle, triangles_from n iTriangle flag asEdgeVertex <> AssertFail.
Proof.
  induction n as [|n IH]; intros k; simpl; [discriminate|].
  destruct (_ <? 0); [discriminate|].
  apply bind_no_assert; [apply read_edge_vertex_no_assert|intros ?].
  apply bind_no_assert; [apply read_edge_vertex_no_assert|intros ?].
  apply bind_no_assert; [apply read_edge_vertex_no_assert|intros ?].
  apply bind_no_assert; [apply IH|discriminate].
Qed.

Lemma Triangulate_no_assert (cell : Cell) : Triangulate cell <> AssertFail.
Proof.
  unfold Triangulate. destruct (aiCubeEdgeFlags (iFlagIndex cell) =? 0); [discriminate|].
  apply bind_no_assert.
  - unfold edge_vertices. apply for_loop_no_assert. intros i ev.
    destruct (negb _); [|discriminate].
    apply bind_no_assert; [apply edge_vertex_no_assert|discriminate].
  - intros ev. apply triangles_from_no_assert.
Qed.

Lemma march_no_assert s scalarField xAmount yAmount zAmount :
  march s scalarField xAmount yAmount zAmount <> AssertFail.
Proof.
  unfold march. apply bind_no_assert; [|discriminate].
  apply for_loop_no_assert. intros z st.
  apply for_loop_no_assert. intros y st'.
  apply for_loop_no_assert. intros x st''.
  unfold march_cell. apply bind_no_assert.
  - unfold make_cell. apply for_loop_no_assert. intros i cell.
    apply bind_no_assert; [apply defined_no_assert|discriminate].
  - intros cell. apply bind_no_assert; [apply Triangulate_no_assert|discriminate].
Qed.

Lemma generateObject_no_assert (s : Isosurface) : generateObject s <> AssertFail.
Proof.
  unfold generateObject. destruct (box_exceeds_cube s); [|discriminate].
  apply bind_no_assert.
  - unfold grid_amounts.
    apply bind_no_assert; [apply defined_no_assert|intros ?].
    apply bind_no_assert; [apply defined_no_assert|intros ?].
    apply bind_no_assert; [apply defined_no_assert|intros ?].
    discriminate.
  - intros [[xAmount yAmount] zAmount].
    apply bind_no_assert; [apply sample_grid_no_assert|].
    intros scalarField. apply march_no_assert.
Qed.



(** ** The grid of [generateObject] *)


(** C5 (as amended): when every axis of the bounding box exceeds the cube
    size, and the amounts [nx = (int)((extendsTo.x - extendsFrom.x) /
    cubeSize + 1)] (the sum taken in [Ogre::Real] before the truncation),
    [ny], [nz] and the size of the field fit an [int], [generateObject]
    marches over a scalar field of exactly [(nx+1)(ny+1)(nz+1)] values that
    was complete before the first cell is read; the fill visits the corners
    of [[0,nx] x [0,ny] x [0,nz]], each one once and each with a slot of its
    own, and leaves [IsoValue(extendsFrom + cubeSize * (x, y, z))] in slot
    [z(nx+1)(ny+1) + y(nx+1) + x]. *)
Theorem scalar_field_sampled_before_march :
  forall (s : Isosurface) (xAmount yAmount zAmount : Z),
    box_exceeds_cube s = true ->
    int_of_float (fadd (fdiv (fsub (vx (mExtendsTo s)) (vx (mExtendsFrom s))) (mCubeSize s))
                       (float_of_int 1)) = Some xAmount ->
    int_of_float (fadd (fdiv (fsub (vy (mExtendsTo s)) (vy (mExtendsFrom s))) (mCubeSize s))
                       (float_of_int 1)) = Some yAmount ->
    int_of_float (fadd (fdiv (fsub (vz (mExtendsTo s)) (vz (mExtendsFrom s))) (mCubeSize s))
                       (float_of_int 1)) = Some zAmount ->
    grid_fits xAmount yAmount zAmount = true ->
    let slot := fun c : Z * Z * Z =>
      let '(x, y, z) := c in
      z * (xAmount + 1) * (yAmount + 1) + y * (xAmount + 1) + x in
    exists scalarField,
      generateObject s = march s scalarField xAmount yAmount zAmount
      /\ Z.of_nat (length scalarField) = (xAmount + 1) * (yAmount + 1) * (zAmount + 1)
      /\ (forall x y z,
            0 <= x <= xAmount -> 0 <= y <= yAmount -> 0 <= z <= zAmount ->
            zth scalarField (slot (x, y, z))
            = Some (IsoValue (mSkeleton s)
                             (grid_point (mExtendsFrom s) (mCubeSize s) x y z)))
      /\ (forall field,
            fillScalarField (mSkeleton s) (mExtendsFrom s) (mCubeSize s) field
                            xAmount yAmount zAmount
            = each (corners xAmount yAmount zAmount)
                   (fun c => let '(x, y, z) := c in
                      fill_slot (mSkeleton s) (mExtendsFrom s) (mCubeSize s)
                                xAmount yAmount zAmount z y x)
                   field)
      /\ (forall x y z,
            In (x, y, z) (corners xAmount yAmount zAmount)
            <-> (0 <= x <= xAmount /\ 0 <= y <= yAmount /\ 0 <= z <= zAmount))
      /\ NoDup (map slot (corners xAmount yAmount zAmount)).
Proof.
  intros s xAmount yAmount zAmount Hbox Hx Hy Hz Hfits slot.
  destruct (sample_grid_filled s xAmount yAmount zAmount Hfits)
    as (scalarField & Hrun & Hlen & Hval).
  exists scalarField. split; [|split; [exact Hlen|split; [|split; [|split]]]].
  - unfold generateObject, grid_amounts. rewrite Hbox.
    cbn [vsub vx vy vz]. rewrite Hx, Hy, Hz. cbn [defined bind].
    rewrite Hrun. reflexivity.
  - intros x y z Hxr Hyr Hzr. apply (Hval x y z); assumption.
  - intros field. apply fillScalarField_unrolled.
  - intros x y z. apply corners_In.
  - pose proof (corners_slots xAmount yAmount zAmount) as H.
    unfold getMapIndex in H. unfold slot. rewrite H. apply zrange_NoDup.
Qed.

(** ** The triangulation of a cell *)

Lemma land_bit (f e : Z) :
  0 <= e -> (Z.land f (Z.shiftl 1 e) =? 0) = negb (Z.testbit f e).
Proof.
  intros He. rewrite Z.shiftl_1_l.
  destruct (Z.testbit f e) eqn:Hb; simpl.
  - apply Z.eqb_neq. intros H0.
    assert (Hbit : Z.testbit (Z.land f (2 ^ e)) e = true)
      by (rewrite Z.land_spec, Hb, Z.pow2_bits_true by assumption; reflexivity).
    rewrite H0, Z.bits_0 in Hbit. discriminate.
  - apply Z.eqb_eq. apply Z.bits_inj'. intros n Hn.
    rewrite Z.land_spec, Z.bits_0.
    destruct (Z.eq_dec n e) as [->|Hne].
    + rewrite Hb. reflexivity.
    + rewrite (Z.pow2_bits_false e n) by lia. apply andb_false_r.
Qed.

Lemma zset_middle {A : Type} (pre : list A) (a v : A) (rest : list A) :
  zset (pre ++ a :: rest) (Z.of_nat (length pre)) v = pre ++ v :: rest.
Proof.
  unfold zset.
  destruct (Z.of_nat (length pre) <? 0) eqn:E; [apply Z.ltb_lt in E; lia|].
  rewrite Nat2Z.id. clear E.
  induction pre as [|h t IH]; simpl; [reflexivity|]. f_equal. exact IH.
Qed.


Lemma edge_vertex_crossing (cell : Cell) (e : Z) :
  edge_vertex cell e = crossing_spec cell e.
Proof.
  unfold edge_vertex, crossing_spec.
  destruct (defined (zth (val cell) (a2iEdgeConnection e 0))) as [v1| |]; simpl; auto.
  destruct (defined (zth (val cell) (a2iEdgeConnection e 1))) as [v2| |]; simpl; auto.
  rewrite (fadd_comm v2 v1). reflexivity.
Qed.

(** The loop over the edges, started on a vector whose first entries are
    settled, settles the others as [edgeVertex_spec] lists them. *)
Lemma edge_loop_spec (cell : Cell) (flags : Z) :
  forall n pre,
    each (zrange n (Z.of_nat (length pre)))
         (fun iEdge asEdgeVertex =>
            if negb (Z.land flags (Z.shiftl 1 iEdge) =? 0) then
              v <- edge_vertex cell iEdge ;;
              Ok (zset asEdgeVertex iEdge (Some v))
            else Ok asEdgeVertex)
         (pre ++ repeat None n)
    = (l <- mapM (fun e => if Z.testbit flags e
                           then v <- crossing_spec cell e ;; Ok (Some v)
                           else Ok None)
                 (zrange n (Z.of_nat (length pre))) ;;
       Ok (pre ++ l)).
Proof.
  induction n as [|n IH]; intros pre.
  - simpl. reflexivity.
  - cbn [zrange each mapM repeat].
    rewrite land_bit by lia. rewrite negb_involutive.
    assert (Hnext : Z.of_nat (length pre) + 1 = Z.of_nat (length (pre ++ [@None Vector3])))
      by (rewrite length_app; simpl; lia).
    destruct (Z.testbit flags (Z.of_nat (length pre))).
    + rewrite edge_vertex_crossing.
      destruct (crossing_spec cell (Z.of_nat (length pre))) as [v| |]; simpl; auto.
      rewrite zset_middle.
      replace (pre ++ Some v :: repeat None n) with ((pre ++ [Some v]) ++ repeat None n)
        by (rewrite <- app_assoc; reflexivity).
      replace (Z.of_nat (length pre) + 1) with (Z.of_nat (length (pre ++ [Some v])))
        by (rewrite length_app; simpl; lia).
      rewrite IH.
      destruct (mapM _ _) as [l| |]; simpl; auto.
      rewrite <- app_assoc. reflexivity.
    + cbn [bind].
      replace (pre ++ None :: repeat None n) with ((pre ++ [None]) ++ repeat None n)
        by (rewrite <- app_assoc; reflexivity).
      rewrite Hnext, IH.
      destruct (mapM _ _) as [l| |]; simpl; auto.
      rewrite <- app_assoc. reflexivity.
Qed.

Lemma edge_vertices_spec (cell : Cell) (flags : Z) :
  edge_vertices cell flags = edgeVertex_spec cell flags.
Proof.
  unfold edge_vertices, edgeVertex_spec. rewrite for_loop_each.
  change (Z.to_nat 12) with 12%nat.
  pose proof (edge_loop_spec cell flags 12 []) as H.
  cbn [length app] in H. change (Z.of_nat 0) with 0 in H. rewrite H.
  destruct (mapM _ _); reflexivity.
Qed.

Lemma triangles_from_spec (flag : Z) (asEdgeVertex : list (option Vector3)) :
  (forall k, a2iTriangleConnectionTable flag k < 0 ->
             a2iTriangleConnectionTable flag k = -1) ->
  forall n iTriangle,
    triangles_from n iTriangle flag asEdgeVertex
    = mapM (fun t => let '(a, b, c) := t in
              va <- read_edge_vertex asEdgeVertex a ;;
              vb <- read_edge_vertex asEdgeVertex b ;;
              vc <- read_edge_vertex asEdgeVertex c ;;
              Ok (mkTriangle va vb vc))
           (row_triples n (3 * iTriangle) (a2iTriangleConnectionTable flag)).
Proof.
  intros Hrow. induction n as [|n IH]; intros k; [reflexivity|].
  cbn [triangles_from row_triples].
  replace (a2iTriangleConnectionTable flag (3 * k) =? -1)
    with (a2iTriangleConnectionTable flag (3 * k) <? 0).
  2:{ destruct (a2iTriangleConnectionTable flag (3 * k) <? 0) eqn:E; symmetry.
      - apply Z.eqb_eq, Hrow. apply Z.ltb_lt. exact E.
      - apply Z.eqb_neq. apply Z.ltb_ge in E. lia. }
  destruct (a2iTriangleConnectionTable flag (3 * k) <? 0); [reflexivity|].
  cbn [mapM]. rewrite Z.add_0_r.
  destruct (read_edge_vertex asEdgeVertex _) as [va| |]; simpl; auto.
  destruct (read_edge_vertex asEdgeVertex _) as [vb| |]; simpl; auto.
  destruct (read_edge_vertex asEdgeVertex _) as [vc| |]; simpl; auto.
  rewrite IH. replace (3 * (k + 1)) with (3 * k + 3) by lia. reflexivity.
Qed.

Lemma triangles_from_length (flag : Z) (asEdgeVertex : list (option Vector3)) :
  forall n iTriangle triangles,
    triangles_from n iTriangle flag asEdgeVertex = Ok triangles ->
    (length triangles <= n)%nat.
Proof.
  induction n as [|n IH]; intros k ts H; simpl in H.
  - inversion H. simpl. lia.
  - destruct (_ <? 0); [inversion H; simpl; lia|].
    destruct (read_edge_vertex asEdgeVertex _) as [va| |]; simpl in H; try discriminate.
    destruct (read_edge_vertex asEdgeVertex _) as [vb| |]; simpl in H; try discriminate.
    destruct (read_edge_vertex asEdgeVertex _) as [vc| |]; simpl in H; try discriminate.
    destruct (triangles_from n (k + 1) flag asEdgeVertex) as [rest| |] eqn:E;
      simpl in H; try discriminate.
    inversion H. simpl. apply IH in E. lia.
Qed.

Lemma Triangulate_length (cell : Cell) (triangles : list Triangle) :
  Triangulate cell = Ok triangles -> (length triangles <= 5)%nat.
Proof.
  unfold Triangulate. destruct (_ =? 0); [intros H; inversion H; simpl; lia|].
  destruct (edge_vertices _ _) as [ev| |]; cbn [bind]; try discriminate.
  apply triangles_from_length.
Qed.

(** C4: [Triangulate] looks up [edgeFlags = aiCubeEdgeFlags[iFlagIndex]]
    and emits no triangle when it is zero; otherwise it does what the
    specification words: it stores, for each of the twelve edges whose bit
    is set, the point [p[p1] + t * (p[p2] - p[p1])] with
    [t = val[p1] / (val[p1] + val[p2])], and reads the row
    [a2iTriangleConnectionTable[iFlagIndex]] three edge indices at a time
    until the sentinel -1; it yields at most five triangles. The row is
    taken to hold no negative entry but the sentinel. *)
Theorem Triangulate_meets_spec :
  forall cell : Cell,
    (forall k, a2iTriangleConnectionTable (iFlagIndex cell) k < 0 ->
               a2iTriangleConnectionTable (iFlagIndex cell) k = -1) ->
    (aiCubeEdgeFlags (iFlagIndex cell) = 0 -> Triangulate cell = Ok [])
    /\ Triangulate cell = Triangulate_spec cell
    /\ (forall triangles, Triangulate cell = Ok triangles -> (length triangles <= 5)%nat).
Proof.
  intros cell Hrow. split; [|split].
  - intros H0. unfold Triangulate. rewrite H0. reflexivity.
  - unfold Triangulate, Triangulate_spec.
    destruct (_ =? 0); [reflexivity|].
    rewrite edge_vertices_spec.
    destruct (edgeVertex_spec _ _) as [ev| |]; cbn [bind]; auto.
    rewrite (triangles_from_spec _ ev Hrow). reflexivity.
  - intros ts. apply Triangulate_length.
Qed.

(** ** Two runs that end alike *)

Lemma bind_rel {A A' B B' : Type} (R : A -> A' -> Prop) (Q : B -> B' -> Prop)
    (m : outcome A) (m' : outcome A') (k : A -> outcome B) (k' : A' -> outcome B') :
  outcome_rel R m m' ->
  (forall a a', R a a' -> outcome_rel Q (k a) (k' a')) ->
  outcome_rel Q (bind m k) (bind m' k').
Proof.
  intros Hm Hk. destruct m, m'; simpl in *; try contradiction; auto.
Qed.

Lemma each_rel {S S' A : Type} (R : S -> S' -> Prop)
    (body : A -> S -> outcome S) (body' : A -> S' -> outcome S') :
  (forall a s s', R s s' -> outcome_rel R (body a s) (body' a s')) ->
  forall l s s', R s s' -> outcome_rel R (each l body s) (each l body' s').
Proof.
  intros Hbody. induction l as [|a l IH]; intros s s' HR; simpl; [exact HR|].
  apply (bind_rel R R); auto.
Qed.

Lemma for_loop_rel {S S' : Type} (R : S -> S' -> Prop)
    (body : Z -> S -> outcome S) (body' : Z -> S' -> outcome S') :
  (forall i s s', R s s' -> outcome_rel R (body i s) (body' i s')) ->
  forall hi s s', R s s' -> outcome_rel R (for_loop 0 hi body s) (for_loop 0 hi body' s').
Proof. intros H hi s s' HR. rewrite !for_loop_each. apply each_rel; assumption. Qed.

Lemma outcome_rel_eq {A : Type} (o : outcome A) : outcome_rel eq o o.
Proof. destruct o; simpl; auto. Qed.

Lemma zth_map {A B : Type} (f : A -> B) (l : list A) (i : Z) :
  zth (map f l) i = option_map f (zth l i).
Proof.
  unfold zth. destruct (i <? 0); [reflexivity|]. apply nth_error_map.
Qed.


(** ** The shape of the mesh after [calculate] *)

Lemma each_all {S A : Type} (P : S -> Prop) (body : A -> S -> outcome S) :
  (forall a s, P s -> outcome_all P (body a s)) ->
  forall l s, P s -> outcome_all P (each l body s).
Proof.
  intros Hbody. induction l as [|a l IH]; intros s Hs; simpl; [exact Hs|].
  specialize (Hbody a s Hs). destruct (body a s); simpl in *; auto.
Qed.

Lemma for_loop_all {S : Type} (P : S -> Prop) (body : Z -> S -> outcome S) :
  (forall i s, P s -> outcome_all P (body i s)) ->
  forall hi s, P s -> outcome_all P (for_loop 0 hi body s).
Proof. intros H hi s Hs. rewrite for_loop_each. apply each_all; assumption. Qed.

Lemma index_in_range_mono (n m : Z) (t : IndexedTriangle) :
  n <= m -> index_in_range n t -> index_in_range m t.
Proof. unfold index_in_range. lia. Qed.

Lemma key_eqb_eq (a b : Vector3) : key_eqb a b = true <-> a = b.
Proof.
  unfold key_eqb. destruct (Vector3_eq_dec a b); split; congruence.
Qed.

Lemma find_key_cons (w v : Vector3) (k : Z) (hash : list (Vector3 * Z)) :
  find_key w ((v, k) :: hash) = if key_eqb v w then Some k else find_key w hash.
Proof. unfold find_key. cbn [find fst snd]. destruct (key_eqb v w); reflexivity. Qed.

Lemma add_corner_agrees (v : Vector3) (st : Isosurface * Z) :
  buffers_agree st ->
  buffers_agree (fst (add_corner v st))
  /\ 0 <= snd (add_corner v st) < snd (fst (add_corner v st))
  /\ snd st <= snd (fst (add_corner v st)).
Proof.
  destruct st as [s k]. unfold buffers_agree. cbn [fst snd].
  intros (Hk & Hn & Hnd & Hnone & Hsome & Htri).
  unfold add_corner.
  destruct (find_key v (mVertexHash s)) as [found|] eqn:Hfind; cbn [fst snd].
  - split; [repeat (split; [assumption|]); assumption|].
    split; [apply (Hsome v found Hfind)|lia].
  - read_members. rewrite !length_app. cbn [length].
    split; [|lia].
    split; [lia|]. split; [lia|]. split; [|split; [|split]].
    + apply NoDup_app; [assumption|repeat constructor; intros []|].
      intros w Hw [<-|[]]. exact (Hnone _ Hfind Hw).
    + intros w Hw Hin. rewrite find_key_cons in Hw.
      destruct (key_eqb v w) eqn:E; [discriminate|].
      apply in_app_or in Hin. destruct Hin as [Hin|[<-|[]]].
      * exact (Hnone w Hw Hin).
      * assert (key_eqb v v = true) by (apply key_eqb_eq; reflexivity). congruence.
    + intros w i Hw. rewrite find_key_cons in Hw. destruct (key_eqb v w).
      * inversion Hw. lia.
      * apply Hsome in Hw. lia.
    + eapply Forall_impl; [|exact Htri]. intros t. apply index_in_range_mono. lia.
Qed.

Lemma add_triangle_agrees (t : Triangle) (st : Isosurface * Z) :
  buffers_agree st -> buffers_agree (add_triangle t st).
Proof.
  intros H. unfold add_triangle.
  pose proof (add_corner_agrees (corner0 t) st H) as (H0 & R0 & M0).
  destruct (add_corner (corner0 t) st) as [st0 k0]. cbn [fst snd] in *.
  pose proof (add_corner_agrees (corner1 t) st0 H0) as (H1 & R1 & M1).
  destruct (add_corner (corner1 t) st0) as [st1 k1]. cbn [fst snd] in *.
  pose proof (add_corner_agrees (corner2 t) st1 H1) as (H2 & R2 & M2).
  destruct (add_corner (corner2 t) st1) as [st2 k2]. cbn [fst snd] in *.
  destruct st2 as [s2 n2]. unfold buffers_agree in *. cbn [fst snd] in *.
  destruct H2 as (Hk & Hn & Hnd & Hnone & Hsome & Htri).
  read_members. repeat (split; [assumption|]).
  apply Forall_app. split; [assumption|].
  constructor; [|constructor]. unfold index_in_range. cbn [i0 i1 i2]. lia.
Qed.

Lemma march_cell_agrees field xAmount yAmount zAmount z y x st :
  buffers_agree st ->
  outcome_all buffers_agree (march_cell field xAmount yAmount zAmount z y x st).
Proof.
  intros H. unfold march_cell.
  destruct (make_cell _ _ _ _ _ _ _ _) as [c| |]; simpl; auto.
  destruct (Triangulate c) as [ts| |]; simpl; auto.
  revert st H. induction ts as [|t ts IH]; intros st H; simpl; [exact H|].
  apply IH. apply add_triangle_agrees. exact H.
Qed.

Lemma generateObject_agrees (s : Isosurface) :
  buffers_agree (s, 0) ->
  outcome_all mesh_invariant (generateObject s).
Proof.
  intros H.
  assert (Hinv : forall st, buffers_agree st -> mesh_invariant (fst st)).
  { intros [s' k] (Hk & Hn & Hnd & _ & _ & Htri). unfold mesh_invariant. cbn [fst snd] in *.
    subst k. split; [assumption|]. split; assumption. }
  unfold generateObject. destruct (box_exceeds_cube s); [|exact (Hinv _ H)].
  destruct (grid_amounts s) as [[[xAmount yAmount] zAmount]| |]; simpl; auto.
  destruct (sample_grid s xAmount yAmount zAmount) as [field| |]; simpl; auto.
  unfold march.
  assert (Hloop : outcome_all buffers_agree
            (for_loop 0 zAmount (fun z =>
               for_loop 0 yAmount (fun y =>
                 for_loop 0 xAmount (fun x =>
                   march_cell field xAmount yAmount zAmount z y x))) (s, 0))).
  { apply for_loop_all; [|exact H]. intros z st Hst.
    apply for_loop_all; [|exact Hst]. intros y st1 Hst1.
    apply for_loop_all; [|exact Hst1]. intros x st2 Hst2.
    apply march_cell_agrees. exact Hst2. }
  destruct (for_loop 0 zAmount _ (s, 0)) as [st| |]; simpl in *; auto.
Qed.

(** X1: whenever [calculate] returns, it leaves as many normals as
    vertices, triangles whose indices all lie inside the vertex array, and
    no position twice among the vertices. *)
Theorem calculate_establishes_mesh_invariant :
  forall skeleton cubeSize blend targetValue (s : Isosurface),
    outcome_all mesh_invariant (calculate skeleton cubeSize blend targetValue s).
Proof.
  intros skeleton cubeSize blend targetValue s.
  unfold calculate. cbn [mCubeSize mBlendingFunction mSkeleton mExtendsFrom mExtendsTo].
  destruct (fgt cubeSize (float_of_int 0)); cbn [assert bind]; [|exact I].
  destruct ((0 <=? blend) && (blend <=? NONE)); cbn [assert bind]; [|exact I].
  destruct (0 <? Z.of_nat (length skeleton)).
  - apply generateObject_agrees. unfold buffers_agree. read_members.
    split; [reflexivity|]. split; [reflexivity|]. split; [constructor|].
    split; [intros v _ []|]. split; [intros v i; discriminate|constructor].
  - simpl. unfold mesh_invariant. read_members.
    split; [reflexivity|]. split; constructor.
Qed.

(** X2: [IsoValue] never reads a node behind the first. *)
Theorem IsoValue_reads_first_node_only :
  forall (node : SkeletonNode) (rest : list SkeletonNode) (pos : Vector3),
    IsoValue (node :: rest) pos = IsoValue [node] pos.
Proof. intros. reflexivity. Qed.


(** ** The index of a corner in the scalar field *)

(** X4: [getMapIndex] numbers the points of a [width] x [height] x [depth]
    field without gaps or clashes: the index of a point inside the field lies
    in [[0, width * height * depth)], the point is read back from it by
    division and remainder, and no product or sum on the way leaves the
    range between 0 and the index. *)
Theorem getMapIndex_round_trip :
  forall x y z width height depth,
    0 <= x < width -> 0 <= y < height -> 0 <= z < depth ->
    0 <= getMapIndex x y z width height depth < width * height * depth
    /\ getMapIndex x y z width height depth mod width = x
    /\ (getMapIndex x y z width height depth / width) mod height = y
    /\ getMapIndex x y z width height depth / (width * height) = z
    /\ 0 <= z * width <= z * width * height
    /\ z * width * height <= z * width * height + y * width
       <= getMapIndex x y z width height depth.
Proof.
  intros x y z width height depth Hx Hy Hz. unfold getMapIndex.
  assert (E : z * width * height + y * width + x = (z * height + y) * width + x) by ring.
  assert (Hq : (z * width * height + y * width + x) / width = z * height + y).
  { rewrite E. symmetry. apply (Z.div_unique _ _ _ x); [left; exact Hx|ring]. }
  assert (Hw : 0 <= z * width) by (apply Z.mul_nonneg_nonneg; lia).
  assert (Hwh : 0 <= width * height) by (apply Z.mul_nonneg_nonneg; lia).
  assert (Hzwh : z * width <= z * width * height)
    by (rewrite <- (Z.mul_1_r (z * width)) at 1; apply Z.mul_le_mono_nonneg_l; lia).
  assert (Hyw : 0 <= y * width <= (height - 1) * width)
    by (split; [apply Z.mul_nonneg_nonneg; lia|apply Z.mul_le_mono_nonneg_r; lia]).
  assert (Hz' : z * (width * height) <= (depth - 1) * (width * height))
    by (apply Z.mul_le_mono_nonneg_r; lia).
  split; [lia|].
  split; [rewrite E; symmetry; apply (Z.mod_unique _ _ (z * height + y)); [left; exact Hx|ring]|].
  split; [rewrite Hq; symmetry; apply (Z.mod_unique _ _ z); [left; exact Hy|ring]|].
  split.
  - rewrite <- Z.div_div by lia. rewrite Hq. symmetry.
    apply (Z.div_unique _ _ _ y); [left; exact Hy|ring].
  - lia.
Qed.

(** ** The local copy of a cell *)

Lemma low_bits_bound (n k : Z) :
  0 <= k -> 0 <= n -> (forall j, k <= j -> Z.testbit n j = false) -> n < 2 ^ k.
Proof.
  intros Hk Hn Hbits. destruct (Z_lt_le_dec n (2 ^ k)) as [H|H]; [exact H|exfalso].
  assert (Hpos : 0 < n) by (pose proof (Z.pow_pos_nonneg 2 k); lia).
  pose proof (Z.bit_log2 n Hpos) as Hlog.
  rewrite Hbits in Hlog; [discriminate|].
  apply Z.log2_le_pow2; assumption.
Qed.

Lemma make_cell_rounds (s : Isosurface) (scalarField : list real)
    (xAmount yAmount zAmount x y z : Z) :
  forall n k cell cell',
    each (zrange n k) (fun i cell =>
      let index := getMapIndex (x + cubeOffsets i 0) (y + cubeOffsets i 1) (z + cubeOffsets i 2)
                               (xAmount + 1) (yAmount + 1) (zAmount + 1) in
      let pos := mkVector3
        (fadd (vx (mExtendsFrom s)) (fmul (mCubeSize s) (float_of_int (x + cubeOffsets i 0))))
        (fadd (vy (mExtendsFrom s)) (fmul (mCubeSize s) (float_of_int (y + cubeOffsets i 1))))
        (fadd (vz (mExtendsFrom s)) (fmul (mCubeSize s) (float_of_int (z + cubeOffsets i 2)))) in
      v <- defined (zth scalarField index) ;;
      Ok (mkCell (p cell ++ [pos]) (val cell ++ [v])
                 (if fle v (mTargetValue s)
                  then Z.lor (iFlagIndex cell) (Z.shiftl 1 i)
                  else iFlagIndex cell))) cell = Ok cell' ->
    0 <= k ->
    Z.of_nat (length (p cell)) = k -> Z.of_nat (length (val cell)) = k ->
    0 <= iFlagIndex cell ->
    (forall j, k <= j -> Z.testbit (iFlagIndex cell) j = false) ->
    Z.of_nat (length (p cell')) = k + Z.of_nat n
    /\ Z.of_nat (length (val cell')) = k + Z.of_nat n
    /\ 0 <= iFlagIndex cell'
    /\ (forall j, k + Z.of_nat n <= j -> Z.testbit (iFlagIndex cell') j = false)
    /\ (forall i, 0 <= i < k ->
          zth (p cell') i = zth (p cell) i
          /\ zth (val cell') i = zth (val cell) i
          /\ Z.testbit (iFlagIndex cell') i = Z.testbit (iFlagIndex cell) i)
    /\ (forall i, k <= i < k + Z.of_nat n ->
          exists v,
            zth scalarField (corner_slot xAmount yAmount zAmount x y z i) = Some v
            /\ zth (val cell') i = Some v
            /\ zth (p cell') i = Some (corner_position s x y z i)
            /\ Z.testbit (iFlagIndex cell') i = fle v (mTargetValue s)).
Proof.
  induction n as [|n IH]; intros k cell cell' Hrun Hk Hp Hval Hflag Hhigh.
  - cbn [zrange each] in Hrun. inversion Hrun; subst cell'.
    rewrite Z.add_0_r. repeat (split; [assumption|]).
    split; [intros i _; repeat split|intros i Hi; lia].
  - cbn [zrange each] in Hrun. cbv zeta in Hrun.
    fold (corner_slot xAmount yAmount zAmount x y z k) in Hrun.
    fold (corner_position s x y z k) in Hrun.
    destruct (zth scalarField (corner_slot xAmount yAmount zAmount x y z k)) as [v|] eqn:Hv;
      cbn [defined bind] in Hrun; [|discriminate].
    set (next := mkCell (p cell ++ [corner_position s x y z k]) (val cell ++ [v])
                        (if fle v (mTargetValue s)
                         then Z.lor (iFlagIndex cell) (Z.shiftl 1 k)
                         else iFlagIndex cell)) in Hrun.
    assert (Hbit : forall j, Z.testbit (iFlagIndex next) j
                     = Z.testbit (iFlagIndex cell) j
                       || (fle v (mTargetValue s) && (k =? j))).
    { intros j. unfold next. cbn [iFlagIndex].
      destruct (fle v (mTargetValue s)).
      - rewrite Z.lor_spec, Z.shiftl_1_l, Z.pow2_bits_eqb by assumption. reflexivity.
      - rewrite orb_false_r. reflexivity. }
    apply IH in Hrun.
    + destruct Hrun as (Lp & Lv & Nf & Hi & Hlow & Hnew).
      replace (k + Z.of_nat (S n)) with (k + 1 + Z.of_nat n) by lia.
      repeat (split; [assumption|]).
      assert (Hk' : zth (p next) k = Some (corner_position s x y z k)
                    /\ zth (val next) k = Some v).
      { unfold next, zth. cbn [p val].
        replace (k <? 0) with false by (symmetry; apply Z.ltb_ge; lia).
        split; rewrite nth_error_app2 by lia.
        - replace (Z.to_nat k - length (p cell))%nat with O by lia. reflexivity.
        - replace (Z.to_nat k - length (val cell))%nat with O by lia. reflexivity. }
      split.
      * intros i Hi'. destruct (Hlow i ltac:(lia)) as (A & B & C).
        rewrite A, B, C, Hbit.
        replace (k =? i) with false by (symmetry; apply Z.eqb_neq; lia).
        rewrite andb_false_r, orb_false_r.
        unfold next, zth. cbn [p val].
        replace (i <? 0) with false by (symmetry; apply Z.ltb_ge; lia).
        rewrite !nth_error_app1 by lia. repeat split.
      * intros i Hi'. destruct (Z.eq_dec i k) as [->|Hne]; [|apply Hnew; lia].
        exists v. destruct (Hlow k ltac:(lia)) as (A & B & C).
        rewrite A, B, C, Hbit, Z.eqb_refl, andb_true_r, Hhigh by lia.
        destruct Hk' as [Hkp Hkv]. repeat (split; [assumption|]). reflexivity.
    + lia.
    + unfold next. cbn [p]. rewrite length_app. cbn [length]. lia.
    + unfold next. cbn [val]. rewrite length_app. cbn [length]. lia.
    + unfold next. cbn [iFlagIndex]. destruct (fle v (mTargetValue s)); [|assumption].
      apply Z.lor_nonneg. split; [assumption|].
      rewrite Z.shiftl_1_l. apply Z.pow_nonneg. lia.
    + intros j Hj. rewrite Hbit, Hhigh by lia.
      replace (k =? j) with false by (symmetry; apply Z.eqb_neq; lia).
      rewrite andb_false_r. reflexivity.
Qed.

Lemma make_cell_shape (s : Isosurface) (scalarField : list real)
    (xAmount yAmount zAmount x y z : Z) (cell : Cell) :
  make_cell s scalarField xAmount yAmount zAmount x y z = Ok cell ->
  length (p cell) = 8%nat /\ length (val cell) = 8%nat /\ 0 <= iFlagIndex cell < 256.
Proof.
  unfold make_cell. rewrite for_loop_each. change (Z.to_nat 8) with 8%nat.
  intros Hrun. apply make_cell_rounds in Hrun; cbn [p val iFlagIndex length]; try lia.
  - destruct Hrun as (Lp & Lv & Nf & Hi & _).
    split; [lia|]. split; [lia|].
    split; [assumption|]. apply (low_bits_bound _ 8); [lia|assumption|exact Hi].
  - intros j _. apply Z.bits_0.
Qed.

(** X5: the local copy of the cell at [(x, y, z)] that the march builds has
    the eight corners of the cell in the order of [cubeOffsets], each with
    its position [mExtendsFrom + mCubeSize * (x + dx, y + dy, z + dz)] and
    the value of its slot of the scalar field; its [iFlagIndex] lies in
    [[0, 255]], so it is an index of the two tables, and bit [i] of it is
    set exactly when the value of corner [i] is at most [mTargetValue]. *)
Theorem make_cell_classifies_corners :
  forall (s : Isosurface) (scalarField : list real) (xAmount yAmount zAmount x y z : Z),
    outcome_all
      (fun cell =>
         length (p cell) = 8%nat
         /\ length (val cell) = 8%nat
         /\ 0 <= iFlagIndex cell < 256
         /\ forall i, 0 <= i < 8 ->
              exists v,
                zth scalarField (corner_slot xAmount yAmount zAmount x y z i) = Some v
                /\ zth (val cell) i = Some v
                /\ zth (p cell) i = Some (corner_position s x y z i)
                /\ Z.testbit (iFlagIndex cell) i = fle v (mTargetValue s))
      (make_cell s scalarField xAmount yAmount zAmount x y z).
Proof.
  intros s scalarField xAmount yAmount zAmount x y z.
  unfold make_cell. rewrite for_loop_each. change (Z.to_nat 8) with 8%nat.
  destruct (each (zrange 8 0) _ (mkCell [] [] 0)) as [cell| |] eqn:Hrun; cbn [outcome_all]; auto.
  apply make_cell_rounds in Hrun; cbn [p val iFlagIndex length]; try lia.
  - destruct Hrun as (Lp & Lv & Nf & Hi & _ & Hnew).
    split; [lia|]. split; [lia|]. split; [|exact Hnew].
    split; [assumption|]. apply (low_bits_bound _ 8); [lia|assumption|exact Hi].
  - intros j _. apply Z.bits_0.
Qed.


(** ** Reads inside the scalar field, the tables and the edge vertices *)

Lemma each_returns {S A : Type} (body : A -> S -> outcome S) :
  forall l, (forall a s, In a l -> exists s', body a s = Ok s') ->
  forall s, exists s', each l body s = Ok s'.
Proof.
  induction l as [|a l IH]; intros Hbody s; cbn [each]; [eexists; reflexivity|].
  destruct (Hbody a s (or_introl eq_refl)) as (s1 & E). rewrite E. cbn [bind].
  apply IH. intros b s2 Hb. apply Hbody. right. exact Hb.
Qed.

Lemma for_loop_returns {S : Type} (body : Z -> S -> outcome S) (hi : Z) :
  (forall i s, 0 <= i < hi -> exists s', body i s = Ok s') ->
  forall s, exists s', for_loop 0 hi body s = Ok s'.
Proof.
  intros Hbody s. rewrite for_loop_each. apply each_returns.
  intros i s1 Hi. apply Hbody. apply zrange_In in Hi. lia.
Qed.

Lemma mapM_returns {A B : Type} (f : A -> outcome B) (P : A -> B -> Prop) :
  forall l, (forall a, In a l -> exists b, f a = Ok b /\ P a b) ->
  exists bs, mapM f l = Ok bs /\ Forall2 P l bs.
Proof.
  induction l as [|a l IH]; intros Hf; cbn [mapM]; [exists []; split; constructor|].
  destruct (Hf a (or_introl eq_refl)) as (b & E & Hb). rewrite E. cbn [bind].
  destruct IH as (bs & Ebs & Hbs); [intros a' Ha'; apply Hf; right; exact Ha'|].
  rewrite Ebs. cbn [bind]. exists (b :: bs). split; [reflexivity|constructor; assumption].
Qed.

Lemma Forall2_zrange {B : Type} (P : Z -> B -> Prop) :
  forall n k bs, Forall2 P (zrange n k) bs ->
  forall i, k <= i < k + Z.of_nat n ->
  exists b, nth_error bs (Z.to_nat (i - k)) = Some b /\ P i b.
Proof.
  induction n as [|n IH]; intros k bs H i Hi; [lia|].
  cbn [zrange] in H. inversion H as [|? b ? bs' Hb Hrest]; subst.
  destruct (Z.eq_dec i k) as [->|Hne].
  - exists b. rewrite Z.sub_diag. split; [reflexivity|exact Hb].
  - destruct (IH (k + 1) bs' Hrest i ltac:(lia)) as (b' & E & Hb').
    exists b'. split; [|exact Hb'].
    replace (Z.to_nat (i - k)) with (S (Z.to_nat (i - (k + 1)))) by lia. exact E.
Qed.

Lemma offsets_in_cube_bound :
  offsets_in_cube = true ->
  forall i j, 0 <= i < 8 -> 0 <= j < 3 -> 0 <= cubeOffsets i j <= 1.
Proof.
  unfold offsets_in_cube. intros H i j Hi Hj.
  rewrite forallb_forall in H. specialize (H i). rewrite forallb_forall in H.
  specialize (H ltac:(apply zrange_In; simpl; lia) j ltac:(apply zrange_In; simpl; lia)).
  apply andb_true_iff in H. destruct H as [H1 H2].
  apply Z.leb_le in H1, H2. lia.
Qed.

Lemma edges_join_corners_bound :
  edges_join_corners = true ->
  forall iEdge j, 0 <= iEdge < 12 -> 0 <= j < 2 -> 0 <= a2iEdgeConnection iEdge j < 8.
Proof.
  unfold edges_join_corners. intros H e j He Hj.
  rewrite forallb_forall in H. specialize (H e). rewrite forallb_forall in H.
  specialize (H ltac:(apply zrange_In; simpl; lia) j ltac:(apply zrange_In; simpl; lia)).
  apply andb_true_iff in H. destruct H as [H1 H2].
  apply Z.leb_le in H1. apply Z.ltb_lt in H2. lia.
Qed.

Lemma rows_flagged_row :
  rows_flagged = true ->
  forall flag, 0 <= flag < 256 ->
    aiCubeEdgeFlags flag = 0 \/ row_flagged 5 0 flag = true.
Proof.
  unfold rows_flagged. intros H flag Hflag.
  rewrite forallb_forall in H.
  specialize (H flag ltac:(apply zrange_In; simpl; lia)).
  apply orb_true_iff in H. destruct H as [H|H]; [left; apply Z.eqb_eq; exact H|right; exact H].
Qed.

Lemma edge_flagged_bit (iEdgeFlags iEdge : Z) :
  edge_flagged iEdgeFlags iEdge = true ->
  0 <= iEdge < 12 /\ Z.testbit iEdgeFlags iEdge = true.
Proof.
  unfold edge_flagged. rewrite !andb_true_iff.
  intros [[H1 H2] H3]. apply Z.leb_le in H1. apply Z.ltb_lt in H2.
  split; [lia|]. rewrite land_bit in H3 by assumption.
  rewrite negb_involutive in H3. exact H3.
Qed.

Lemma zth_defined {A : Type} (l : list A) (i : Z) :
  0 <= i < Z.of_nat (length l) -> exists a, zth l i = Some a.
Proof.
  intros H. unfold zth.
  replace (i <? 0) with false by (symmetry; apply Z.ltb_ge; lia).
  destruct (nth_error l (Z.to_nat i)) as [a|] eqn:E; [exists a; reflexivity|].
  apply nth_error_None in E. lia.
Qed.

Lemma make_cell_returns (s : Isosurface) (scalarField : list real)
    (xAmount yAmount zAmount x y z : Z) :
  offsets_in_cube = true ->
  (forall x' y' z',
     0 <= x' <= xAmount -> 0 <= y' <= yAmount -> 0 <= z' <= zAmount ->
     exists v, zth scalarField
                 (getMapIndex x' y' z' (xAmount + 1) (yAmount + 1) (zAmount + 1)) = Some v) ->
  0 <= x < xAmount -> 0 <= y < yAmount -> 0 <= z < zAmount ->
  exists cell, make_cell s scalarField xAmount yAmount zAmount x y z = Ok cell.
Proof.
  intros Hoff Hfield Hx Hy Hz. unfold make_cell.
  apply for_loop_returns. intros i cell Hi. cbv zeta.
  pose proof (offsets_in_cube_bound Hoff i 0 Hi ltac:(lia)) as H0.
  pose proof (offsets_in_cube_bound Hoff i 1 Hi ltac:(lia)) as H1.
  pose proof (offsets_in_cube_bound Hoff i 2 Hi ltac:(lia)) as H2.
  destruct (Hfield (x + cubeOffsets i 0) (y + cubeOffsets i 1) (z + cubeOffsets i 2))
    as (v & E); [lia|lia|lia|].
  rewrite E. cbn [defined bind]. eexists. reflexivity.
Qed.

Lemma edge_vertex_returns (cell : Cell) (iEdge : Z) :
  edges_join_corners = true ->
  length (p cell) = 8%nat -> length (val cell) = 8%nat ->
  0 <= iEdge < 12 ->
  exists v, edge_vertex cell iEdge = Ok v.
Proof.
  intros Hedges Hp Hval He. unfold edge_vertex.
  pose proof (edges_join_corners_bound Hedges iEdge 0 He ltac:(lia)) as H0.
  pose proof (edges_join_corners_bound Hedges iEdge 1 He ltac:(lia)) as H1.
  destruct (zth_defined (val cell) (a2iEdgeConnection iEdge 0)) as (v1 & E1); [lia|].
  destruct (zth_defined (val cell) (a2iEdgeConnection iEdge 1)) as (v2 & E2); [lia|].
  destruct (zth_defined (p cell) (a2iEdgeConnection iEdge 0)) as (p1 & E3); [lia|].
  destruct (zth_defined (p cell) (a2iEdgeConnection iEdge 1)) as (p2 & E4); [lia|].
  rewrite E1, E2, E3, E4. cbn [defined bind]. eexists. reflexivity.
Qed.

Lemma edge_vertices_returns (cell : Cell) (iEdgeFlags : Z) :
  edges_join_corners = true ->
  length (p cell) = 8%nat -> length (val cell) = 8%nat ->
  exists asEdgeVertex,
    edge_vertices cell iEdgeFlags = Ok asEdgeVertex
    /\ forall iEdge, edge_flagged iEdgeFlags iEdge = true ->
         exists v, read_edge_vertex asEdgeVertex iEdge = Ok v.
Proof.
  intros Hedges Hp Hval. rewrite edge_vertices_spec. unfold edgeVertex_spec.
  destruct (mapM_returns
              (fun e => if Z.testbit iEdgeFlags e
                        then v <- crossing_spec cell e ;; Ok (Some v)
                        else Ok None)
              (fun e b => Z.testbit iEdgeFlags e = true -> exists v : Vector3, b = Some v)
              (zrange 12 0)) as (ev & Erun & Hev).
  - intros e He. apply zrange_In in He.
    destruct (Z.testbit iEdgeFlags e).
    + destruct (edge_vertex_returns cell e Hedges Hp Hval ltac:(simpl in He; lia)) as (v & E).
      rewrite <- edge_vertex_crossing, E. cbn [bind].
      exists (Some v). split; [reflexivity|]. intros _. exists v. reflexivity.
    + exists None. split; [reflexivity|discriminate].
  - exists ev. split; [exact Erun|].
    intros e He. apply edge_flagged_bit in He. destruct He as [He Hbit].
    destruct (Forall2_zrange _ 12 0 ev Hev e ltac:(simpl; lia)) as (b & E & Hb).
    destruct (Hb Hbit) as (v & ->).
    exists v. unfold read_edge_vertex, zth.
    replace (e <? 0) with false by (symmetry; apply Z.ltb_ge; lia).
    rewrite Z.sub_0_r in E. rewrite E. reflexivity.
Qed.

Lemma triangles_from_returns (flag : Z) (asEdgeVertex : list (option Vector3)) :
  (forall iEdge, edge_flagged (aiCubeEdgeFlags flag) iEdge = true ->
     exists v, read_edge_vertex asEdgeVertex iEdge = Ok v) ->
  forall n iTriangle,
    row_flagged n iTriangle flag = true ->
    exists triangles, triangles_from n iTriangle flag asEdgeVertex = Ok triangles.
Proof.
  intros Hread. induction n as [|n IH]; intros k Hrow; cbn [triangles_from row_flagged] in *.
  - eexists. reflexivity.
  - destruct (a2iTriangleConnectionTable flag (3 * k) <? 0); [eexists; reflexivity|].
    rewrite !andb_true_iff in Hrow. destruct Hrow as [[[H0 H1] H2] Hrest].
    destruct (Hread _ H0) as (c0 & E0). destruct (Hread _ H1) as (c1 & E1).
    destruct (Hread _ H2) as (c2 & E2). destruct (IH _ Hrest) as (rest & Er).
    rewrite E0, E1, E2, Er. cbn [bind]. eexists. reflexivity.
Qed.

Lemma Triangulate_returns (cell : Cell) :
  edges_join_corners = true -> rows_flagged = true ->
  length (p cell) = 8%nat -> length (val cell) = 8%nat ->
  0 <= iFlagIndex cell < 256 ->
  exists triangles, Triangulate cell = Ok triangles.
Proof.
  intros Hedges Hrows Hp Hval Hflag. unfold Triangulate.
  destruct (aiCubeEdgeFlags (iFlagIndex cell) =? 0) eqn:E0; [eexists; reflexivity|].
  destruct (rows_flagged_row Hrows _ Hflag) as [H|Hrow];
    [apply Z.eqb_neq in E0; contradiction|].
  destruct (edge_vertices_returns cell (aiCubeEdgeFlags (iFlagIndex cell)) Hedges Hp Hval)
    as (ev & Eev & Hread).
  rewrite Eev. cbn [bind]. apply triangles_from_returns; assumption.
Qed.

Lemma march_returns (s : Isosurface) (scalarField : list real) (xAmount yAmount zAmount : Z) :
  tables_consistent = true ->
  (forall x' y' z',
     0 <= x' <= xAmount -> 0 <= y' <= yAmount -> 0 <= z' <= zAmount ->
     exists v, zth scalarField
                 (getMapIndex x' y' z' (xAmount + 1) (yAmount + 1) (zAmount + 1)) = Some v) ->
  exists s', march s scalarField xAmount yAmount zAmount = Ok s'.
Proof.
  unfold tables_consistent. rewrite !andb_true_iff. intros [[Hoff Hedges] Hrows] Hfield.
  unfold march.
  destruct (for_loop_returns
              (fun z => for_loop 0 yAmount (fun y => for_loop 0 xAmount (fun x =>
                 march_cell scalarField xAmount yAmount zAmount z y x)))
              zAmount) with (s := (s, 0)) as (st & E).
  - intros z st Hz. apply for_loop_returns. intros y st1 Hy.
    apply for_loop_returns. intros x st2 Hx. unfold march_cell.
    destruct (make_cell_returns (fst st2) scalarField xAmount yAmount zAmount x y z
                Hoff Hfield Hx Hy Hz) as (cell & Ecell).
    rewrite Ecell. cbn [bind].
    destruct (make_cell_shape _ _ _ _ _ _ _ _ _ Ecell) as (Hp & Hval & Hflag).
    destruct (Triangulate_returns cell Hedges Hrows Hp Hval Hflag) as (ts & Ets).
    rewrite Ets. cbn [bind]. eexists. reflexivity.
  - rewrite E. cbn [bind]. eexists. reflexivity.
Qed.

(** X6: with tables that fit together, [generateObject] reads no slot
    outside the scalar field, no corner a cell does not have, no row outside
    the tables and no edge vertex that was not written. It returns whenever
    the bounding box does not exceed the cube size or the grid is
    representable (the three amounts and the size of the scalar field are
    [int]s), and there is no other way for it to go wrong: it faults exactly
    when the box exceeds the cube size and the grid is not representable. *)
Theorem generateObject_faults_only_on_grid_size :
  tables_consistent = true ->
  forall s : Isosurface,
    (box_exceeds_cube s = false \/ grid_representable s = true ->
     exists s', generateObject s = Ok s')
    /\ (box_exceeds_cube s = true -> grid_representable s = false ->
        generateObject s = Fault).
Proof.
  intros Htables s. unfold generateObject, grid_representable. split.
  - intros [Hflat|Hgrid]; [rewrite Hflat; eexists; reflexivity|].
    destruct (box_exceeds_cube s); [|eexists; reflexivity].
    destruct (grid_amounts s) as [[[xAmount yAmount] zAmount]| |]; try discriminate.
    cbn [bind].
    destruct (sample_grid_filled s xAmount yAmount zAmount Hgrid) as (field & Efield & _ & Hval).
    rewrite Efield. cbn [bind]. apply march_returns; [exact Htables|].
    intros x y z Hx Hy Hz. eexists. apply Hval; assumption.
  - intros Hbox Hgrid. rewrite Hbox.
    destruct (grid_amounts s) as [[[xAmount yAmount] zAmount]| |] eqn:E; cbn [bind].
    + unfold sample_grid. rewrite Hgrid. reflexivity.
    + exfalso. revert E. unfold grid_amounts.
      apply bind_no_assert; [apply defined_no_assert|intros ?].
      apply bind_no_assert; [apply defined_no_assert|intros ?].
      apply bind_no_assert; [apply defined_no_assert|intros ?].
      discriminate.
    + reflexivity.
Qed.


(** ** What a march keeps *)

(** A property of the buffers that adding a triangle keeps is kept by the
    march, and so by [generateObject]. *)
Lemma march_keeps (P : Isosurface * Z -> Prop) :
  (forall t st, P st -> P (add_triangle t st)) ->
  forall s scalarField xAmount yAmount zAmount,
    P (s, 0) ->
    outcome_all (fun s' => exists iVertexIndex, P (s', iVertexIndex))
                (march s scalarField xAmount yAmount zAmount).
Proof.
  intros Hadd s field xAmount yAmount zAmount H0. unfold march.
  assert (Hloop : outcome_all P
            (for_loop 0 zAmount (fun z =>
               for_loop 0 yAmount (fun y =>
                 for_loop 0 xAmount (fun x =>
                   march_cell field xAmount yAmount zAmount z y x))) (s, 0))).
  { apply for_loop_all; [|exact H0]. intros z st Hst.
    apply for_loop_all; [|exact Hst]. intros y st1 Hst1.
    apply for_loop_all; [|exact Hst1]. intros x st2 Hst2.
    unfold march_cell.
    destruct (make_cell _ _ _ _ _ _ _ _) as [c| |]; cbn [bind outcome_all]; auto.
    destruct (Triangulate c) as [ts| |]; cbn [bind outcome_all]; auto.
    revert st2 Hst2. induction ts as [|t ts IH]; intros st2 Hst2; cbn [fold_left]; auto. }
  destruct (for_loop 0 zAmount _ (s, 0)) as [[s' k]| |]; cbn [bind outcome_all fst] in *; auto.
  exists k. exact Hloop.
Qed.

Lemma generateObject_keeps (P : Isosurface * Z -> Prop) :
  (forall t st, P st -> P (add_triangle t st)) ->
  forall s, P (s, 0) ->
    outcome_all (fun s' => exists iVertexIndex, P (s', iVertexIndex)) (generateObject s).
Proof.
  intros Hadd s H0. unfold generateObject.
  destruct (box_exceeds_cube s); [|exists 0; exact H0].
  destruct (grid_amounts s) as [[[xAmount yAmount] zAmount]| |]; cbn [bind outcome_all]; auto.
  destruct (sample_grid s xAmount yAmount zAmount) as [field| |]; cbn [bind outcome_all]; auto.
  apply march_keeps; assumption.
Qed.

Lemma hash_extends_refl (hash : list (Vector3 * Z)) : hash_extends hash hash.
Proof. intros v i H. exact H. Qed.

Lemma hash_extends_trans (h1 h2 h3 : list (Vector3 * Z)) :
  hash_extends h1 h2 -> hash_extends h2 h3 -> hash_extends h1 h3.
Proof. intros H12 H23 v i H. apply H12, H23, H. Qed.

Lemma hash_extends_insert (v : Vector3) (k : Z) (hash : list (Vector3 * Z)) :
  find_key v hash = None -> hash_extends ((v, k) :: hash) hash.
Proof.
  intros Hnone w i Hw. rewrite find_key_cons.
  destruct (key_eqb v w) eqn:E; [|exact Hw].
  apply key_eqb_eq in E. subst w. congruence.
Qed.

Lemma grown_refl (s : Isosurface) : grown s s.
Proof.
  unfold grown, same_configuration.
  split; [repeat split|].
  split; [exists []; symmetry; apply app_nil_r|].
  split; [exists []; symmetry; apply app_nil_r|].
  split; [exists []; symmetry; apply app_nil_r|apply hash_extends_refl].
Qed.

Lemma grown_trans (s1 s2 s3 : Isosurface) : grown s1 s2 -> grown s2 s3 -> grown s1 s3.
Proof.
  unfold grown, same_configuration.
  intros ((A1 & A2 & A3 & A4 & A5 & A6) & (v1 & Hv1) & (n1 & Hn1) & (t1 & Ht1) & Hh1)
         ((B1 & B2 & B3 & B4 & B5 & B6) & (v2 & Hv2) & (n2 & Hn2) & (t2 & Ht2) & Hh2).
  split; [repeat split; congruence|].
  split; [exists (v1 ++ v2); rewrite Hv2, Hv1, app_assoc; reflexivity|].
  split; [exists (n1 ++ n2); rewrite Hn2, Hn1, app_assoc; reflexivity|].
  split; [exists (t1 ++ t2); rewrite Ht2, Ht1, app_assoc; reflexivity|].
  eapply hash_extends_trans; eassumption.
Qed.

Lemma add_corner_grown (v : Vector3) (st : Isosurface * Z) :
  grown (fst st) (fst (fst (add_corner v st)))
  /\ mTriangles (fst (fst (add_corner v st))) = mTriangles (fst st).
Proof.
  destruct st as [s k]. unfold add_corner. cbn [fst].
  destruct (find_key v (mVertexHash s)) eqn:Hfind; cbn [fst].
  - split; [apply grown_refl|reflexivity].
  - split; [|reflexivity]. unfold grown, same_configuration. read_members.
    split; [repeat split|].
    split; [eexists; reflexivity|]. split; [eexists; reflexivity|].
    split; [exists []; symmetry; apply app_nil_r|].
    apply hash_extends_insert. exact Hfind.
Qed.

Lemma add_triangle_grown (t : Triangle) (st : Isosurface * Z) :
  grown (fst st) (fst (add_triangle t st)).
Proof.
  unfold add_triangle.
  pose proof (add_corner_grown (corner0 t) st) as [G0 _].
  destruct (add_corner (corner0 t) st) as [st0 k0]. cbn [fst] in G0.
  pose proof (add_corner_grown (corner1 t) st0) as [G1 _].
  destruct (add_corner (corner1 t) st0) as [st1 k1]. cbn [fst] in G1.
  pose proof (add_corner_grown (corner2 t) st1) as [G2 _].
  destruct (add_corner (corner2 t) st1) as [st2 k2]. cbn [fst] in G2.
  destruct st2 as [s2 n2]. cbn [fst] in *.
  apply (grown_trans _ _ _ G0). apply (grown_trans _ _ _ G1). apply (grown_trans _ _ _ G2).
  unfold grown, same_configuration. read_members.
  split; [repeat split|].
  split; [exists []; symmetry; apply app_nil_r|].
  split; [exists []; symmetry; apply app_nil_r|].
  split; [eexists; reflexivity|apply hash_extends_refl].
Qed.

Lemma generateObject_grown (s : Isosurface) : outcome_all (grown s) (generateObject s).
Proof.
  pose proof (generateObject_keeps (fun st => grown s (fst st))) as H.
  specialize (H ltac:(intros t st Hst; eapply grown_trans; [exact Hst|apply add_triangle_grown])
                s (grown_refl s)).
  destruct (generateObject s) as [s'| |]; cbn [outcome_all fst] in *; auto.
  destruct H as (_ & H). exact H.
Qed.


(** X8: an [update] that returns has replaced the skeleton and nothing
    else of the configuration: the cube size, the blending function and the
    threshold are those of the last [calculate], and so are [mExtendsFrom]
    and [mExtendsTo]; the bounding box is not computed anew from the new
    skeleton. *)
Theorem update_keeps_configuration :
  forall (skeleton : list SkeletonNode) (s : Isosurface),
    outcome_all
      (fun s' =>
         mSkeleton s' = skeleton
         /\ mCubeSize s' = mCubeSize s
         /\ mBlendingFunction s' = mBlendingFunction s
         /\ mTargetValue s' = mTargetValue s
         /\ mExtendsFrom s' = mExtendsFrom s
         /\ mExtendsTo s' = mExtendsTo s)
      (update skeleton s).
Proof.
  intros skeleton s. unfold update.
  match goal with |- outcome_all _ (generateObject ?u) =>
    pose proof (generateObject_grown u) as H; destruct (generateObject u) as [s'| |]
  end; cbn [outcome_all] in *; auto.
  destruct H as (H & _). unfold same_configuration in H. revert H. read_members.
  intros H. exact H.
Qed.

(** X9: an [update] that returns has removed no triangle and no entry of
    the hash: [mTriangles] is the array of before with the new triangles
    behind it, and every position the hash knew it still takes to the same
    index. *)
Theorem update_only_appends_triangles :
  forall (skeleton : list SkeletonNode) (s : Isosurface),
    outcome_all
      (fun s' =>
         (exists triangles, mTriangles s' = mTriangles s ++ triangles)
         /\ forall v i, find_key v (mVertexHash s) = Some i ->
                        find_key v (mVertexHash s') = Some i)
      (update skeleton s).
Proof.
  intros skeleton s. unfold update.
  match goal with |- outcome_all _ (generateObject ?u) =>
    pose proof (generateObject_grown u) as H; destruct (generateObject u) as [s'| |]
  end; cbn [outcome_all] in *; auto.
  destruct H as (_ & _ & _ & Ht & Hh). revert Ht Hh. unfold hash_extends. read_members.
  intros Ht Hh. split; assumption.
Qed.

(** X10: a [calculate] that returns has stored its four arguments, and
    [mExtendsFrom], [mExtendsTo] are the bounding box of the skeleton: the
    least lower and the greatest upper extent of its nodes, started from
    [FLT_MAX] and [-FLT_MAX], which is what they are for an empty
    skeleton. *)
Theorem calculate_records_arguments :
  forall skeleton cubeSize blend targetValue (s : Isosurface),
    outcome_all
      (fun s' =>
         mSkeleton s' = skeleton
         /\ mCubeSize s' = cubeSize
         /\ mBlendingFunction s' = blend
         /\ mTargetValue s' = targetValue
         /\ (mExtendsFrom s', mExtendsTo s') = bounding_box skeleton)
      (calculate skeleton cubeSize blend targetValue s).
Proof.
  intros skeleton cubeSize blend targetValue s.
  unfold calculate. cbn [mCubeSize mBlendingFunction mSkeleton mExtendsFrom mExtendsTo].
  destruct (fgt cubeSize (float_of_int 0)); cbn [assert bind]; [|exact I].
  destruct ((0 <=? blend) && (blend <=? NONE)); cbn [assert bind]; [|exact I].
  destruct (0 <? Z.of_nat (length skeleton)) eqn:Hlen.
  - match goal with |- outcome_all _ (generateObject ?u) =>
      pose proof (generateObject_grown u) as H; destruct (generateObject u) as [s'| |]
    end; cbn [outcome_all] in *; auto.
    destruct H as (H & _). unfold same_configuration in H. revert H. read_members.
    intros (A1 & A2 & A3 & A4 & A5 & A6).
    repeat (split; [assumption|]). rewrite A5, A6. unfold bounding_box.
    destruct (fold_left grow_box skeleton _); reflexivity.
  - cbn [outcome_all]. read_members. repeat (split; [reflexivity|]).
    destruct skeleton; [reflexivity|]. apply Z.ltb_ge in Hlen. cbn [length] in Hlen. lia.
Qed.

(** ** The hash and the vertex array *)

Lemma zth_app_last {A : Type} (l : list A) (a b : A) (i : Z) :
  zth (l ++ [a]) i = Some b <->
  zth l i = Some b \/ (i = Z.of_nat (length l) /\ a = b).
Proof.
  unfold zth. destruct (i <? 0) eqn:E.
  - apply Z.ltb_lt in E. split; [discriminate|intros [H|[H _]]; [discriminate|lia]].
  - apply Z.ltb_ge in E.
    destruct (Nat.lt_ge_cases (Z.to_nat i) (length l)) as [Hlt|Hge].
    + rewrite nth_error_app1 by assumption.
      split; [intros H; left; exact H|intros [H|[H _]]; [exact H|lia]].
    + rewrite nth_error_app2 by assumption.
      assert (Hnone : nth_error l (Z.to_nat i) = None) by (apply nth_error_None; assumption).
      rewrite Hnone.
      destruct (Z.to_nat i - length l)%nat as [|m] eqn:Em; cbn [nth_error].
      * split; [intros H; right; split; [lia|congruence]
               |intros [H|[_ H]]; [discriminate|congruence]].
      * split; [destruct m; discriminate|intros [H|[H _]]; [discriminate|lia]].
Qed.

Lemma add_corner_inverts (v : Vector3) (st : Isosurface * Z) :
  hash_inverts_vertices st -> hash_inverts_vertices (fst (add_corner v st)).
Proof.
  destruct st as [s k]. unfold hash_inverts_vertices. cbn [fst snd].
  intros (Hk & Hinv). unfold add_corner.
  destruct (find_key v (mVertexHash s)) as [found|] eqn:Hfind; cbn [fst snd].
  - split; assumption.
  - read_members. split; [rewrite length_app; cbn [length]; lia|].
    intros w i. rewrite find_key_cons, zth_app_last, <- Hinv, <- Hk.
    destruct (key_eqb v w) eqn:E.
    + apply key_eqb_eq in E. subst w. rewrite Hfind.
      split; [intros H; right; split; congruence|intros [H|[H _]]; congruence].
    + assert (Hne : v <> w)
        by (intros ->; rewrite (proj2 (key_eqb_eq w w) eq_refl) in E; discriminate).
      split; [intros H; left; exact H|intros [H|[_ H]]; [exact H|contradiction]].
Qed.

Lemma add_triangle_inverts (t : Triangle) (st : Isosurface * Z) :
  hash_inverts_vertices st -> hash_inverts_vertices (add_triangle t st).
Proof.
  intros H. unfold add_triangle.
  pose proof (add_corner_inverts (corner0 t) st H) as H0.
  destruct (add_corner (corner0 t) st) as [st0 k0]. cbn [fst] in H0.
  pose proof (add_corner_inverts (corner1 t) st0 H0) as H1.
  destruct (add_corner (corner1 t) st0) as [st1 k1]. cbn [fst] in H1.
  pose proof (add_corner_inverts (corner2 t) st1 H1) as H2.
  destruct (add_corner (corner2 t) st1) as [st2 k2]. cbn [fst] in H2.
  destruct st2 as [s2 n2]. unfold hash_inverts_vertices in *. cbn [fst snd] in *.
  revert H2. read_members. intros H2. exact H2.
Qed.

(** X11: after a [calculate] that returns, the hash is the vertex array
    read backwards: it takes a position to the index [i] exactly when
    [mVertices[i]] is that position. Hence every vertex is found under its
    own index, the hash knows no position outside the array, and no position
    is stored twice. *)
Theorem calculate_hash_inverts_vertices :
  forall skeleton cubeSize blend targetValue (s : Isosurface),
    outcome_all
      (fun s' => forall v i, find_key v (mVertexHash s') = Some i
                             <-> zth (mVertices s') i = Some v)
      (calculate skeleton cubeSize blend targetValue s).
Proof.
  intros skeleton cubeSize blend targetValue s.
  assert (Hempty : forall (v : Vector3) (i : Z),
            @find_key v [] = Some i <-> zth (@nil Vector3) i = Some v).
  { intros v i. unfold zth. destruct (i <? 0), (Z.to_nat i); split; discriminate. }
  unfold calculate. cbn [mCubeSize mBlendingFunction mSkeleton mExtendsFrom mExtendsTo].
  destruct (fgt cubeSize (float_of_int 0)); cbn [assert bind]; [|exact I].
  destruct ((0 <=? blend) && (blend <=? NONE)); cbn [assert bind]; [|exact I].
  destruct (0 <? Z.of_nat (length skeleton)); [|exact Hempty].
  match goal with |- outcome_all _ (generateObject ?u) =>
    pose proof (generateObject_keeps hash_inverts_vertices add_triangle_inverts u) as H;
    destruct (generateObject u) as [s'| |]
  end; cbn [outcome_all] in *; auto.
  destruct H as (k & _ & H); [|exact H].
  unfold hash_inverts_vertices. read_members. split; [reflexivity|exact Hempty].
Qed.

Lemma add_corner_index (v : Vector3) (st : Isosurface * Z) :
  mTriangles (fst (fst (add_corner v st))) = mTriangles (fst st)
  /\ (snd (fst (add_corner v st)) = snd st
      \/ (snd (fst (add_corner v st)) = snd st + 1 /\ snd (add_corner v st) = snd st)).
Proof.
  destruct st as [s k]. unfold add_corner. cbn [fst snd].
  destruct (find_key v (mVertexHash s)); cbn [fst snd]; read_members.
  - split; [reflexivity|left; reflexivity].
  - split; [reflexivity|right; split; reflexivity].
Qed.

Lemma add_triangle_uses (t : Triangle) (st : Isosurface * Z) :
  every_index_used st -> every_index_used (add_triangle t st).
Proof.
  intros H. unfold add_triangle.
  pose proof (add_corner_index (corner0 t) st) as [T0 C0].
  destruct (add_corner (corner0 t) st) as [st0 k0]. cbn [fst snd] in *.
  pose proof (add_corner_index (corner1 t) st0) as [T1 C1].
  destruct (add_corner (corner1 t) st0) as [st1 k1]. cbn [fst snd] in *.
  pose proof (add_corner_index (corner2 t) st1) as [T2 C2].
  destruct (add_corner (corner2 t) st1) as [st2 k2]. cbn [fst snd] in *.
  destruct st2 as [s2 n2]. unfold every_index_used in *. cbn [fst snd] in *.
  read_members. intros k Hk. apply Exists_app.
  destruct (Z_lt_le_dec k (snd st)) as [Hold|Hnew].
  - left. rewrite T2, T1, T0. apply H. lia.
  - right. constructor. unfold uses_index. cbn [i0 i1 i2]. lia.
Qed.

(** X12: after a [calculate] that returns, every vertex is a corner of a
    triangle: each index below [mVertices.size()] occurs in an entry of
    [mTriangles]. *)
Theorem calculate_uses_every_vertex :
  forall skeleton cubeSize blend targetValue (s : Isosurface),
    outcome_all
      (fun s' => forall k, 0 <= k < Z.of_nat (length (mVertices s')) ->
                           Exists (uses_index k) (mTriangles s'))
      (calculate skeleton cubeSize blend targetValue s).
Proof.
  intros skeleton cubeSize blend targetValue s.
  unfold calculate. cbn [mCubeSize mBlendingFunction mSkeleton mExtendsFrom mExtendsTo].
  destruct (fgt cubeSize (float_of_int 0)); cbn [assert bind]; [|exact I].
  destruct ((0 <=? blend) && (blend <=? NONE)); cbn [assert bind]; [|exact I].
  destruct (0 <? Z.of_nat (length skeleton));
    [|cbn [outcome_all]; read_members; cbn [length]; intros k Hk; lia].
  match goal with |- outcome_all _ (generateObject ?u) =>
    pose proof (generateObject_keeps
                  (fun st => hash_inverts_vertices st /\ every_index_used st)
                  ltac:(intros t st [A B]; split;
                        [apply add_triangle_inverts|apply add_triangle_uses]; assumption)
                  u) as H;
    destruct (generateObject u) as [s'| |]
  end; cbn [outcome_all] in *; auto.
  destruct H as (k & (Hk & _) & Hused).
  - split.
    + unfold hash_inverts_vertices. read_members. split; [reflexivity|].
      intros v i. unfold zth. destruct (i <? 0), (Z.to_nat i); split; discriminate.
    + intros k Hk. cbn [snd] in Hk. lia.
  - cbn [fst snd] in *. subst k. exact Hused.
Qed.


(** ** An update with the skeleton of before *)

Lemma each_back {S A : Type} (G : S -> Prop) (body : A -> S -> outcome S) :
  (forall a s s', body a s = Ok s' -> G s' -> G s) ->
  forall l s s', each l body s = Ok s' -> G s' -> G s.
Proof.
  intros Hbody. induction l as [|a l IH]; intros s s' Hrun HG; cbn [each] in Hrun.
  - inversion Hrun. subst. exact HG.
  - destruct (body a s) as [s1| |] eqn:E; cbn [bind] in Hrun; try discriminate.
    apply (Hbody a s s1 E). apply (IH s1 s' Hrun HG).
Qed.

Lemma each_follows {S A : Type} (R : S -> S -> Prop) (G : S -> Prop)
    (body : A -> S -> outcome S) :
  (forall a s s', body a s = Ok s' -> G s' -> G s) ->
  (forall a s1 s1' s2, body a s1 = Ok s1' -> G s1' -> R s1 s2 ->
     exists s2', body a s2 = Ok s2' /\ R s1' s2') ->
  forall l s1 s1' s2, each l body s1 = Ok s1' -> G s1' -> R s1 s2 ->
    exists s2', each l body s2 = Ok s2' /\ R s1' s2'.
Proof.
  intros Hback Hbody. induction l as [|a l IH]; intros s1 s1' s2 Hrun HG HR; cbn [each] in *.
  - inversion Hrun. subst. exists s2. split; [reflexivity|exact HR].
  - destruct (body a s1) as [m1| |] eqn:E; cbn [bind] in Hrun; try discriminate.
    assert (Gm : G m1) by (apply (each_back G body Hback l m1 s1' Hrun HG)).
    destruct (Hbody a s1 m1 s2 E Gm HR) as (m2 & E2 & HR2).
    rewrite E2. cbn [bind]. apply (IH m1 s1' m2 Hrun HG HR2).
Qed.

Lemma make_cell_configuration (s s' : Isosurface) (scalarField : list real)
    (xAmount yAmount zAmount x y z : Z) :
  same_configuration s s' ->
  make_cell s' scalarField xAmount yAmount zAmount x y z
  = make_cell s scalarField xAmount yAmount zAmount x y z.
Proof.
  intros (_ & Hc & _ & Ht & Hf & _). unfold make_cell. rewrite Hc, Ht, Hf. reflexivity.
Qed.

Lemma add_triangles_grown (ts : list Triangle) :
  forall st, grown (fst st) (fst (fold_left (fun st t => add_triangle t st) ts st)).
Proof.
  induction ts as [|t ts IH]; intros st; cbn [fold_left]; [apply grown_refl|].
  eapply grown_trans; [apply add_triangle_grown|apply IH].
Qed.

Lemma march_cell_grown scalarField xAmount yAmount zAmount z y x st st' :
  march_cell scalarField xAmount yAmount zAmount z y x st = Ok st' ->
  grown (fst st) (fst st').
Proof.
  unfold march_cell.
  destruct (make_cell _ _ _ _ _ _ _ _) as [c| |]; cbn [bind]; try discriminate.
  destruct (Triangulate c) as [ts| |]; cbn [bind]; try discriminate.
  intros H. inversion H. apply add_triangles_grown.
Qed.

Lemma add_corner_replays (v : Vector3) (st st' : Isosurface * Z) :
  hash_extends (mVertexHash (fst st')) (mVertexHash (fst (fst (add_corner v st)))) ->
  add_corner v st' = (st', snd (add_corner v st)).
Proof.
  destruct st as [s k], st' as [u m]. unfold add_corner. cbn [fst snd].
  destruct (find_key v (mVertexHash s)) as [found|] eqn:Hfind; cbn [fst snd]; intros Hext.
  - rewrite (Hext v found Hfind). reflexivity.
  - revert Hext. read_members. intros Hext.
    rewrite (Hext v k); [reflexivity|].
    rewrite find_key_cons, (proj2 (key_eqb_eq v v) eq_refl). reflexivity.
Qed.

Lemma add_triangle_replays (s0 u0 : Isosurface) (t : Triangle) (st st' : Isosurface * Z) :
  hash_extends (mVertexHash u0) (mVertexHash (fst (add_triangle t st))) ->
  replays s0 u0 st st' ->
  replays s0 u0 (add_triangle t st) (add_triangle t st').
Proof.
  unfold add_triangle. intros Hext (Hc & Hv & Hn & Hh & ts & Ht & Ht').
  pose proof (add_corner_grown (corner0 t) st) as [G0 T0].
  pose proof (add_corner_replays (corner0 t) st st') as R0.
  destruct (add_corner (corner0 t) st) as [st0 k0]. cbn [fst snd] in *.
  pose proof (add_corner_grown (corner1 t) st0) as [G1 T1].
  pose proof (add_corner_replays (corner1 t) st0 st') as R1.
  destruct (add_corner (corner1 t) st0) as [st1 k1]. cbn [fst snd] in *.
  pose proof (add_corner_grown (corner2 t) st1) as [G2 T2].
  pose proof (add_corner_replays (corner2 t) st1 st') as R2.
  destruct (add_corner (corner2 t) st1) as [st2 k2]. cbn [fst snd] in *.
  destruct st2 as [s2 n2]. cbn [fst snd] in *.
  revert Hext. read_members. intros Hext.
  destruct G0 as (C0 & _ & _ & _ & E0), G1 as (C1 & _ & _ & _ & E1),
           G2 as (C2 & _ & _ & _ & E2).
  rewrite Hh in R0, R1, R2.
  rewrite R0 by (eapply hash_extends_trans; [exact Hext|];
                 eapply hash_extends_trans; [exact E2|exact E1]).
  rewrite R1 by (eapply hash_extends_trans; [exact Hext|exact E2]).
  rewrite R2 by exact Hext.
  destruct st' as [u m]. cbn [fst snd] in *.
  unfold replays, same_configuration in *. read_members.
  split; [destruct Hc as (A1 & A2 & A3 & A4 & A5 & A6),
                   C0 as (B1 & B2 & B3 & B4 & B5 & B6),
                   C1 as (D1 & D2 & D3 & D4 & D5 & D6),
                   C2 as (F1 & F2 & F3 & F4 & F5 & F6);
          repeat split; congruence|].
  repeat (split; [assumption|]).
  exists (ts ++ [mkIndexedTriangle k0 k1 k2]).
  rewrite T2, T1, T0, Ht, Ht', !app_assoc. split; reflexivity.
Qed.

Lemma add_triangles_replay (s0 u0 : Isosurface) (ts : list Triangle) :
  forall st st',
    hash_extends (mVertexHash u0)
                 (mVertexHash (fst (fold_left (fun st t => add_triangle t st) ts st))) ->
    replays s0 u0 st st' ->
    replays s0 u0 (fold_left (fun st t => add_triangle t st) ts st)
                  (fold_left (fun st t => add_triangle t st) ts st').
Proof.
  induction ts as [|t ts IH]; intros st st' Hext HR; cbn [fold_left] in *; [exact HR|].
  apply IH; [exact Hext|].
  apply add_triangle_replays; [|exact HR].
  eapply hash_extends_trans; [exact Hext|].
  apply (add_triangles_grown ts (add_triangle t st)).
Qed.

Lemma march_cell_replays (s0 u0 : Isosurface) scalarField xAmount yAmount zAmount z y x
    (st1 st1' st2 : Isosurface * Z) :
  march_cell scalarField xAmount yAmount zAmount z y x st1 = Ok st1' ->
  hash_extends (mVertexHash u0) (mVertexHash (fst st1')) ->
  replays s0 u0 st1 st2 ->
  exists st2',
    march_cell scalarField xAmount yAmount zAmount z y x st2 = Ok st2'
    /\ replays s0 u0 st1' st2'.
Proof.
  unfold march_cell. intros Hrun Hext HR.
  rewrite (make_cell_configuration (fst st1) (fst st2)) by (destruct HR as [Hc _]; exact Hc).
  destruct (make_cell _ _ _ _ _ _ _ _) as [c| |]; cbn [bind] in *; try discriminate.
  destruct (Triangulate c) as [ts| |]; cbn [bind] in *; try discriminate.
  inversion Hrun as [E]. eexists. split; [reflexivity|].
  apply add_triangles_replay; [rewrite E; exact Hext|exact HR].
Qed.

Lemma generateObject_replays (s0 s1 u0 : Isosurface) :
  generateObject s0 = Ok s1 ->
  same_configuration s0 u0 ->
  hash_extends (mVertexHash u0) (mVertexHash s1) ->
  exists u1,
    generateObject u0 = Ok u1
    /\ same_configuration s0 u1
    /\ mVertices u1 = mVertices u0
    /\ mNormals u1 = mNormals u0
    /\ mVertexHash u1 = mVertexHash u0
    /\ exists triangles,
         mTriangles s1 = mTriangles s0 ++ triangles
         /\ mTriangles u1 = mTriangles u0 ++ triangles.
Proof.
  intros Hrun Hc Hext.
  assert (Hstart : replays s0 u0 (s0, 0) (u0, 0)).
  { unfold replays. cbn [fst]. split; [exact Hc|]. repeat (split; [reflexivity|]).
    exists []. rewrite !app_nil_r. split; reflexivity. }
  pose proof Hc as (Hs & Hcube & _ & _ & Hfrom & Hto).
  revert Hrun. unfold generateObject.
  replace (box_exceeds_cube u0) with (box_exceeds_cube s0)
    by (unfold box_exceeds_cube; rewrite Hcube, Hfrom, Hto; reflexivity).
  destruct (box_exceeds_cube s0).
  2:{ intros H. inversion H. subst s1. exists u0. split; [reflexivity|].
      split; [exact Hc|]. repeat (split; [reflexivity|]).
      exists []. rewrite !app_nil_r. split; reflexivity. }
  replace (grid_amounts u0) with (grid_amounts s0)
    by (unfold grid_amounts; rewrite Hcube, Hfrom, Hto; reflexivity).
  destruct (grid_amounts s0) as [[[xAmount yAmount] zAmount]| |]; cbn [bind]; try discriminate.
  replace (sample_grid u0 xAmount yAmount zAmount) with (sample_grid s0 xAmount yAmount zAmount)
    by (unfold sample_grid; rewrite Hs, Hcube, Hfrom; reflexivity).
  destruct (sample_grid s0 xAmount yAmount zAmount) as [field| |]; cbn [bind]; try discriminate.
  unfold march. rewrite !for_loop_each.
  set (G := fun st : Isosurface * Z => hash_extends (mVertexHash u0) (mVertexHash (fst st))).
  assert (Hcell : forall z y x st st',
            march_cell field xAmount yAmount zAmount z y x st = Ok st' -> G st' -> G st).
  { intros z y x st st' E HG. unfold G in *.
    eapply hash_extends_trans; [exact HG|].
    apply march_cell_grown in E. destruct E as (_ & _ & _ & _ & E). exact E. }
  assert (Hx : forall z y st st',
            for_loop 0 xAmount (fun x => march_cell field xAmount yAmount zAmount z y x) st
            = Ok st' -> G st' -> G st).
  { intros z y st st'. rewrite for_loop_each. apply each_back. apply Hcell. }
  assert (Hy : forall z st st',
            for_loop 0 yAmount (fun y =>
              for_loop 0 xAmount (fun x => march_cell field xAmount yAmount zAmount z y x)) st
            = Ok st' -> G st' -> G st).
  { intros z st st'. rewrite for_loop_each. apply each_back. apply Hx. }
  destruct (each (zrange (Z.to_nat zAmount) 0) _ (s0, 0)) as [st1| |] eqn:Hloop;
    cbn [bind]; try discriminate.
  intros H. inversion H. subst s1. clear H.
  assert (Hfollow : forall z st st' st2,
            for_loop 0 yAmount (fun y =>
              for_loop 0 xAmount (fun x => march_cell field xAmount yAmount zAmount z y x)) st
            = Ok st' -> G st' -> replays s0 u0 st st2 ->
            exists st2',
              for_loop 0 yAmount (fun y =>
                for_loop 0 xAmount (fun x => march_cell field xAmount yAmount zAmount z y x)) st2
              = Ok st2' /\ replays s0 u0 st' st2').
  { intros z st st' st2. rewrite !for_loop_each.
    apply (each_follows (replays s0 u0) G _ (Hx z)).
    intros y sa sa' sb. rewrite !for_loop_each.
    apply (each_follows (replays s0 u0) G _ (Hcell z y)).
    intros x sc sc' sd. apply march_cell_replays. }
  destruct (each_follows (replays s0 u0) G _ Hy Hfollow _ _ _ (u0, 0) Hloop Hext Hstart)
    as (st2 & E2 & HR).
  - match goal with |- exists u1, bind ?e _ = _ /\ _ =>
      replace e with (@Ok (Isosurface * Z) st2) by (symmetry; exact E2)
    end.
    cbn [bind]. exists (fst st2). split; [reflexivity|].
    destruct HR as (Hc' & Hv & Hn & Hh & ts & Ht & Ht').
    assert (Hg : grown s0 (fst st1)).
    { pose proof (march_keeps (fun st => grown s0 (fst st))
                    ltac:(intros t st Hst; eapply grown_trans;
                          [exact Hst|apply add_triangle_grown])
                    s0 field xAmount yAmount zAmount (grown_refl s0)) as Hm.
      unfold march in Hm. rewrite !for_loop_each in Hm. rewrite Hloop in Hm.
      cbn [bind outcome_all] in Hm. destruct Hm as (k1 & Hm). exact Hm. }
    destruct Hg as (Hc1 & _).
    split.
    + unfold same_configuration in *.
      destruct Hc' as (A1 & A2 & A3 & A4 & A5 & A6), Hc1 as (B1 & B2 & B3 & B4 & B5 & B6).
      repeat split; congruence.
    + repeat (split; [assumption|]). exists ts. split; assumption.
Qed.

Lemma repeated_update_replays (s0 s1 : Isosurface) :
  generateObject s0 = Ok s1 ->
  forall n u,
    same_configuration s0 u ->
    mVertexHash u = mVertexHash s1 ->
    exists u',
      run (repeat (Update (mSkeleton s0)) (S n)) u = Ok u'
      /\ mVertices u' = [] /\ mNormals u' = []
      /\ exists triangles,
           mTriangles s1 = mTriangles s0 ++ triangles
           /\ mTriangles u' = mTriangles u ++ concat (repeat triangles (S n)).
Proof.
  intros Hrun.
  assert (Hstep : forall u, same_configuration s0 u -> mVertexHash u = mVertexHash s1 ->
            exists u', update (mSkeleton s0) u = Ok u'
              /\ same_configuration s0 u' /\ mVertexHash u' = mVertexHash s1
              /\ mVertices u' = [] /\ mNormals u' = []
              /\ exists triangles,
                   mTriangles s1 = mTriangles s0 ++ triangles
                   /\ mTriangles u' = mTriangles u ++ triangles).
  { intros u Hc Hh. unfold update.
    match goal with |- exists u', generateObject ?u0 = _ /\ _ =>
      destruct (generateObject_replays s0 s1 u0 Hrun) as (u1 & E & Hc1 & Hv & Hn & Hh1 & Ht)
    end.
    - unfold same_configuration in *. read_members.
      destruct Hc as (A1 & A2 & A3 & A4 & A5 & A6). repeat split; assumption.
    - read_members. rewrite Hh. apply hash_extends_refl.
    - exists u1. revert Hv Hn Hh1 Ht. read_members. intros Hv Hn Hh1 Ht.
      split; [exact E|]. split; [exact Hc1|]. split; [congruence|].
      split; [exact Hv|]. split; [exact Hn|exact Ht]. }
  induction n as [|n IH]; intros u Hc Hh.
  - destruct (Hstep u Hc Hh) as (u' & E & _ & _ & Hv & Hn & ts & Ht & Ht').
    exists u'. cbn [repeat run run_call]. rewrite E. cbn [bind].
    split; [reflexivity|]. split; [exact Hv|]. split; [exact Hn|].
    exists ts. split; [exact Ht|]. cbn [repeat concat]. rewrite app_nil_r. exact Ht'.
  - destruct (Hstep u Hc Hh) as (u1 & E & Hc1 & Hh1 & _ & _ & ts & Ht & Ht').
    destruct (IH u1 Hc1 Hh1) as (u' & E' & Hv & Hn & ts' & Hts' & Htu).
    exists u'. change (repeat (Update (mSkeleton s0)) (S (S n)))
                 with (Update (mSkeleton s0) :: repeat (Update (mSkeleton s0)) (S n)).
    cbn [run run_call]. rewrite E. cbn [bind].
    split; [exact E'|]. split; [exact Hv|]. split; [exact Hn|].
    exists ts. split; [exact Ht|].
    assert (ts' = ts) by (rewrite Ht in Hts'; apply app_inv_head in Hts'; congruence).
    subst ts'. rewrite Htu, Ht'. change (repeat ts (S (S n))) with (ts :: repeat ts (S n)).
    cbn [concat]. rewrite app_assoc. reflexivity.
Qed.

(** X13: after a [calculate] on a skeleton that is not empty, updates with
    that same skeleton rebuild nothing. Each of them returns, leaves
    [mVertices] and [mNormals] empty, since the hash still knows every
    position and no vertex is stored for a position the hash knows, and
    puts the triangles of the first mesh once more behind [mTriangles]:
    after [n + 1] updates the triangle array is the first one [n + 2] times
    over. *)
Theorem repeated_update_repeats_triangles :
  forall skeleton cubeSize blend targetValue (s s1 : Isosurface) (n : nat),
    skeleton <> [] ->
    calculate skeleton cubeSize blend targetValue s = Ok s1 ->
    exists s2,
      run (repeat (Update skeleton) (S n)) s1 = Ok s2
      /\ mVertices s2 = [] /\ mNormals s2 = []
      /\ mTriangles s2 = concat (repeat (mTriangles s1) (S (S n))).
Proof.
  intros skeleton cubeSize blend targetValue s s1 n Hne.
  unfold calculate. cbn [mCubeSize mBlendingFunction mSkeleton mExtendsFrom mExtendsTo].
  destruct (fgt cubeSize (float_of_int 0)); cbn [assert bind]; [|discriminate].
  destruct ((0 <=? blend) && (blend <=? NONE)); cbn [assert bind]; [|discriminate].
  destruct (0 <? Z.of_nat (length skeleton)) eqn:Hlen.
  2:{ destruct skeleton; [congruence|]. apply Z.ltb_ge in Hlen. cbn [length] in Hlen. lia. }
  match goal with |- generateObject ?u = _ -> _ => set (s0 := u) end.
  intros Hrun.
  pose proof (generateObject_grown s0) as Hg. rewrite Hrun in Hg. cbn [outcome_all] in Hg.
  destruct Hg as (Hc & _).
  destruct (repeated_update_replays s0 s1 Hrun n s1 Hc eq_refl)
    as (s2 & E & Hv & Hn & ts & Ht & Ht').
  exists s2. change (mSkeleton s0) with skeleton in E.
  split; [exact E|]. split; [exact Hv|]. split; [exact Hn|].
  change (mTriangles s0) with (@nil IndexedTriangle) in Ht. cbn [app] in Ht.
  rewrite Ht', Ht. reflexivity.
Qed.


(** ** The bounding box *)

Section Order.

Hypothesis flt_irrefl : forall a : real, flt a a = false.
Hypothesis flt_trans : forall a b c : real, flt a b = true -> flt b c = true -> flt a c = true.

Lemma lower_holds (n from : real) : flt n (if flt n from then n else from) = false.
Proof. destruct (flt n from) eqn:E; [apply flt_irrefl|exact E]. Qed.

Lemma lower_keeps (a n from : real) :
  flt a from = false -> flt a (if flt n from then n else from) = false.
Proof.
  intros H. destruct (flt n from) eqn:E; [|exact H].
  destruct (flt a n) eqn:E'; [|reflexivity].
  rewrite (flt_trans a n from E' E) in H. discriminate.
Qed.

Lemma upper_holds (n to : real) : fgt n (if fgt n to then n else to) = false.
Proof. unfold fgt. destruct (flt to n) eqn:E; [apply flt_irrefl|exact E]. Qed.

Lemma upper_keeps (a n to : real) :
  fgt a to = false -> fgt a (if fgt n to then n else to) = false.
Proof.
  unfold fgt. intros H. destruct (flt to n) eqn:E; [|exact H].
  destruct (flt n a) eqn:E'; [|reflexivity].
  rewrite (flt_trans to n a E E') in H. discriminate.
Qed.

Lemma grow_box_holds (box : Vector3 * Vector3) (node : SkeletonNode) :
  encloses (grow_box box node) node.
Proof.
  destruct box as [from to]. unfold encloses, grow_box. cbn [fst snd vx vy vz].
  repeat split; first [apply lower_holds | apply upper_holds].
Qed.

Lemma grow_box_keeps (box : Vector3 * Vector3) (node other : SkeletonNode) :
  encloses box other -> encloses (grow_box box node) other.
Proof.
  destruct box as [from to]. unfold encloses, grow_box. cbn [fst snd vx vy vz].
  intros (H1 & H2 & H3 & H4 & H5 & H6).
  repeat split; first [apply lower_keeps | apply upper_keeps]; assumption.
Qed.

Lemma grow_boxes_keep (other : SkeletonNode) :
  forall skeleton box, encloses box other -> encloses (fold_left grow_box skeleton box) other.
Proof.
  induction skeleton as [|node rest IH]; intros box H; cbn [fold_left]; [exact H|].
  apply IH. apply grow_box_keeps. exact H.
Qed.

(** X14: the bounding box [calculate] computes holds every node of the
    skeleton: along each axis no node has its lower extent below
    [mExtendsFrom] or its upper extent above [mExtendsTo]. This needs of the
    comparison [<] on [Ogre::Real] only that it is irreflexive and
    transitive, which it is for floats, not-a-number included. *)
Theorem bounding_box_encloses_nodes :
  forall (skeleton : list SkeletonNode) (node : SkeletonNode),
    In node skeleton -> encloses (bounding_box skeleton) node.
Proof.
  unfold bounding_box. intros skeleton.
  generalize (vsplat FLT_MAX, vsplat (fneg FLT_MAX)).
  induction skeleton as [|first rest IH]; intros box node Hin; [destruct Hin|].
  cbn [fold_left]. destruct Hin as [->|Hin].
  - apply grow_boxes_keep. apply grow_box_holds.
  - apply IH. exact Hin.
Qed.

End Order.

(** ** The mesh in the hands of the caller *)

Lemma hand_over_vertices {C : Type} (f : Vector3 -> Vector3 -> list C) :
  forall (vertices normals before_v before_n : list Vector3) (calls : list C),
    length vertices = length normals ->
    length before_v = length before_n ->
    each (zrange (length vertices) (Z.of_nat (length before_v)))
         (fun i calls =>
            v <- defined (zth (before_v ++ vertices) i) ;;
            n <- defined (zth (before_n ++ normals) i) ;;
            Ok (calls ++ f v n))
         calls
    = Ok (calls ++ flat_map (fun vn => f (fst vn) (snd vn)) (combine vertices normals)).
Proof.
  induction vertices as [|v vertices IH]; intros normals bv bn calls Hlen Hpre.
  - cbn [length zrange each combine flat_map]. rewrite app_nil_r. reflexivity.
  - destruct normals as [|n normals]; [discriminate|].
    cbn [length zrange each combine flat_map fst snd].
    assert (Ev : zth (bv ++ v :: vertices) (Z.of_nat (length bv)) = Some v).
    { unfold zth. replace (Z.of_nat (length bv) <? 0) with false
        by (symmetry; apply Z.ltb_ge; lia).
      rewrite Nat2Z.id, nth_error_app2, Nat.sub_diag by lia. reflexivity. }
    assert (En : zth (bn ++ n :: normals) (Z.of_nat (length bv)) = Some n).
    { unfold zth. replace (Z.of_nat (length bv) <? 0) with false
        by (symmetry; apply Z.ltb_ge; lia).
      rewrite Nat2Z.id, Hpre, nth_error_app2, Nat.sub_diag by lia. reflexivity. }
    rewrite Ev, En. cbn [defined bind].
    replace (Z.of_nat (length bv) + 1) with (Z.of_nat (length (bv ++ [v])))
      by (rewrite length_app; cbn [length]; lia).
    replace (bv ++ v :: vertices) with ((bv ++ [v]) ++ vertices)
      by (rewrite <- app_assoc; reflexivity).
    replace (bn ++ n :: normals) with ((bn ++ [n]) ++ normals)
      by (rewrite <- app_assoc; reflexivity).
    rewrite IH.
    + rewrite <- app_assoc. reflexivity.
    + cbn [length] in Hlen. lia.
    + rewrite !length_app. cbn [length]. lia.
Qed.

Lemma hand_over_triangles {A C : Type} (f : A -> list C) :
  forall (l before : list A) (calls : list C),
    each (zrange (length l) (Z.of_nat (length before)))
         (fun i calls => a <- defined (zth (before ++ l) i) ;; Ok (calls ++ f a))
         calls
    = Ok (calls ++ flat_map f l).
Proof.
  induction l as [|a l IH]; intros before calls.
  - cbn [length zrange each flat_map]. rewrite app_nil_r. reflexivity.
  - cbn [length zrange each flat_map].
    assert (Ea : zth (before ++ a :: l) (Z.of_nat (length before)) = Some a).
    { unfold zth. replace (Z.of_nat (length before) <? 0) with false
        by (symmetry; apply Z.ltb_ge; lia).
      rewrite Nat2Z.id, nth_error_app2, Nat.sub_diag by lia. reflexivity. }
    rewrite Ea. cbn [defined bind].
    replace (Z.of_nat (length before) + 1) with (Z.of_nat (length (before ++ [a])))
      by (rewrite length_app; cbn [length]; lia).
    replace (before ++ a :: l) with ((before ++ [a]) ++ l)
      by (rewrite <- app_assoc; reflexivity).
    rewrite IH, <- app_assoc. reflexivity.
Qed.

Lemma hand_over_returns (iso : Isosurface) :
  length (mNormals iso) = length (mVertices iso) ->
  hand_over iso
  = Ok ([begin; estimateVertexCount (Z.of_nat (length (mVertices iso)))]
        ++ flat_map (fun vn => [position (fst vn); normal (snd vn)])
                    (combine (mVertices iso) (mNormals iso))
        ++ flat_map (fun tri => [triangle (i0 tri) (i1 tri) (i2 tri)]) (mTriangles iso)
        ++ [end_]).
Proof.
  intros Hlen. unfold hand_over. rewrite !for_loop_each, !Nat2Z.id.
  pose proof (hand_over_vertices (fun v n => [position v; normal n])
                (mVertices iso) (mNormals iso) [] []
                [begin; estimateVertexCount (Z.of_nat (length (mVertices iso)))]
                (eq_sym Hlen) eq_refl) as Hv.
  cbn [length app Z.of_nat] in Hv. rewrite Hv. cbn [bind].
  pose proof (hand_over_triangles (fun tri => [triangle (i0 tri) (i1 tri) (i2 tri)])
                (mTriangles iso) []) as Ht.
  cbn [length app Z.of_nat] in Ht. rewrite for_loop_each, Nat2Z.id, Ht. cbn [bind].
  rewrite <- !app_assoc. reflexivity.
Qed.

(** X15: the hand-over of [GameState::init] after a [calculate] that
    returned. No [at(i)] throws: the calls on the manual object are [begin],
    the vertex count, a position and a normal for every vertex in the order
    of [mVertices], a triangle for every entry of [mTriangles] in its order,
    and [end]; every index of every triangle handed over is that of a
    position handed over before. *)
Theorem init_hands_over_whole_mesh :
  forall skeleton cubeSize blend targetValue (s : Isosurface),
    outcome_all
      (fun iso =>
         hand_over iso
         = Ok ([begin; estimateVertexCount (Z.of_nat (length (mVertices iso)))]
               ++ flat_map (fun vn => [position (fst vn); normal (snd vn)])
                           (combine (mVertices iso) (mNormals iso))
               ++ flat_map (fun tri => [triangle (i0 tri) (i1 tri) (i2 tri)]) (mTriangles iso)
               ++ [end_])
         /\ length (combine (mVertices iso) (mNormals iso)) = length (mVertices iso)
         /\ Forall (index_in_range (Z.of_nat (length (mVertices iso)))) (mTriangles iso))
      (calculate skeleton cubeSize blend targetValue s).
Proof.
  intros skeleton cubeSize blend targetValue s.
  assert (Hinv : forall iso, mesh_invariant iso ->
            hand_over iso
            = Ok ([begin; estimateVertexCount (Z.of_nat (length (mVertices iso)))]
                  ++ flat_map (fun vn => [position (fst vn); normal (snd vn)])
                              (combine (mVertices iso) (mNormals iso))
                  ++ flat_map (fun tri => [triangle (i0 tri) (i1 tri) (i2 tri)])
                              (mTriangles iso)
                  ++ [end_])
            /\ length (combine (mVertices iso) (mNormals iso)) = length (mVertices iso)
            /\ Forall (index_in_range (Z.of_nat (length (mVertices iso)))) (mTriangles iso)).
  { intros iso (Hlen & Htri & _). split; [apply hand_over_returns; exact Hlen|].
    split; [rewrite length_combine, Hlen; apply Nat.min_id|exact Htri]. }
  unfold calculate. cbn [mCubeSize mBlendingFunction mSkeleton mExtendsFrom mExtendsTo].
  destruct (fgt cubeSize (float_of_int 0)); cbn [assert bind]; [|exact I].
  destruct ((0 <=? blend) && (blend <=? NONE)); cbn [assert bind]; [|exact I].
  destruct (0 <? Z.of_nat (length skeleton)).
  - match goal with |- outcome_all _ (generateObject ?u) =>
      pose proof (generateObject_agrees u) as H; destruct (generateObject u) as [iso| |]
    end; cbn [outcome_all] in *; auto.
    apply Hinv, H. unfold buffers_agree. read_members.
    split; [reflexivity|]. split; [reflexivity|]. split; [constructor|].
    split; [intros v _ []|]. split; [intros v i; discriminate|constructor].
  - cbn [outcome_all]. apply Hinv. unfold mesh_invariant. read_members.
    split; [reflexivity|]. split; constructor.
Qed.


(** ** What [calculate] reads of the skeleton *)

Lemma getNormal_same_field (skeleton skeleton' : list SkeletonNode) (cubeSize : real)
    (vertex : Vector3) :
  (forall pos, IsoValue skeleton' pos = IsoValue skeleton pos) ->
  getNormal skeleton' cubeSize vertex = getNormal skeleton cubeSize vertex.
Proof. intros H. unfold getNormal. rewrite !H. reflexivity. Qed.

Lemma sample_grid_same_field (s s' : Isosurface) (xAmount yAmount zAmount : Z) :
  same_field s s' ->
  sample_grid s' xAmount yAmount zAmount = sample_grid s xAmount yAmount zAmount.
Proof.
  intros (Hiso & Hcube & _ & _ & _ & _ & _ & Hfrom & _). unfold sample_grid.
  destruct (grid_fits xAmount yAmount zAmount); cbn [defined bind]; [|reflexivity].
  rewrite !fillScalarField_unrolled, Hcube, Hfrom.
  apply each_ext. intros [[x y] z] field _. unfold fill_slot. rewrite Hiso. reflexivity.
Qed.

Lemma add_corner_same_field (v : Vector3) (s s' : Isosurface) (k : Z) :
  same_field s s' ->
  same_field (fst (fst (add_corner v (s, k)))) (fst (fst (add_corner v (s', k))))
  /\ snd (fst (add_corner v (s', k))) = snd (fst (add_corner v (s, k)))
  /\ snd (add_corner v (s', k)) = snd (add_corner v (s, k)).
Proof.
  intros (Hiso & Hcube & Ht & Hv & Hn & Htri & Hh & Hfrom & Hto). unfold add_corner.
  rewrite Hh. destruct (find_key v (mVertexHash s)); cbn [fst snd].
  - repeat split; assumption.
  - unfold same_field. read_members.
    rewrite (getNormal_same_field (mSkeleton s) (mSkeleton s') _ _ Hiso), Hcube, Hv, Hn.
    repeat split; assumption.
Qed.

Lemma add_triangle_same_field (t : Triangle) (s s' : Isosurface) (k : Z) :
  same_field s s' ->
  same_field (fst (add_triangle t (s, k))) (fst (add_triangle t (s', k)))
  /\ snd (add_triangle t (s', k)) = snd (add_triangle t (s, k)).
Proof.
  intros H. unfold add_triangle.
  pose proof (add_corner_same_field (corner0 t) s s' k H) as (H0 & N0 & K0).
  destruct (add_corner (corner0 t) (s, k)) as [[s0 n0] k0],
           (add_corner (corner0 t) (s', k)) as [[s0' n0'] k0'].
  cbn [fst snd] in *. subst n0' k0'.
  pose proof (add_corner_same_field (corner1 t) s0 s0' n0 H0) as (H1 & N1 & K1).
  destruct (add_corner (corner1 t) (s0, n0)) as [[s1 n1] k1],
           (add_corner (corner1 t) (s0', n0)) as [[s1' n1'] k1'].
  cbn [fst snd] in *. subst n1' k1'.
  pose proof (add_corner_same_field (corner2 t) s1 s1' n1 H1) as (H2 & N2 & K2).
  destruct (add_corner (corner2 t) (s1, n1)) as [[s2 n2] k2],
           (add_corner (corner2 t) (s1', n1)) as [[s2' n2'] k2'].
  cbn [fst snd] in *. subst n2' k2'.
  destruct H2 as (Hiso & Hcube & Ht & Hv & Hn & Htri & Hh & Hfrom & Hto).
  unfold same_field. read_members. rewrite Htri.
  repeat split; assumption.
Qed.

Lemma march_cell_same_field scalarField xAmount yAmount zAmount z y x
    (st st' : Isosurface * Z) :
  same_field (fst st) (fst st') /\ snd st' = snd st ->
  outcome_rel (fun a a' => same_field (fst a) (fst a') /\ snd a' = snd a)
    (march_cell scalarField xAmount yAmount zAmount z y x st)
    (march_cell scalarField xAmount yAmount zAmount z y x st').
Proof.
  intros [H Hk]. unfold march_cell.
  replace (make_cell (fst st') scalarField xAmount yAmount zAmount x y z)
    with (make_cell (fst st) scalarField xAmount yAmount zAmount x y z).
  2:{ destruct H as (_ & Hcube & Ht & _ & _ & _ & _ & Hfrom & _).
      unfold make_cell. rewrite Hcube, Ht, Hfrom. reflexivity. }
  destruct (make_cell _ _ _ _ _ _ _ _) as [c| |]; cbn [bind outcome_rel]; auto.
  destruct (Triangulate c) as [ts| |]; cbn [bind outcome_rel]; auto.
  revert st st' H Hk. induction ts as [|t ts IH]; intros st st' H Hk; cbn [fold_left].
  - split; assumption.
  - destruct st as [s k], st' as [s' k']. cbn [fst snd] in *. subst k'.
    pose proof (add_triangle_same_field t s s' k H) as [H1 K1].
    apply IH; assumption.
Qed.

Lemma generateObject_same_field (s s' : Isosurface) :
  same_field s s' -> outcome_rel same_field (generateObject s) (generateObject s').
Proof.
  intros H. pose proof H as (Hiso & Hcube & Ht & Hv & Hn & Htri & Hh & Hfrom & Hto).
  unfold generateObject.
  replace (box_exceeds_cube s') with (box_exceeds_cube s)
    by (unfold box_exceeds_cube; rewrite Hcube, Hfrom, Hto; reflexivity).
  destruct (box_exceeds_cube s); [|exact H].
  replace (grid_amounts s') with (grid_amounts s)
    by (unfold grid_amounts; rewrite Hcube, Hfrom, Hto; reflexivity).
  destruct (grid_amounts s) as [[[xAmount yAmount] zAmount]| |]; cbn [bind outcome_rel]; auto.
  rewrite (sample_grid_same_field s s' xAmount yAmount zAmount H).
  destruct (sample_grid s xAmount yAmount zAmount) as [field| |]; cbn [bind outcome_rel]; auto.
  unfold march.
  apply (bind_rel (fun a a' => same_field (fst a) (fst a') /\ snd a' = snd a)).
  - apply for_loop_rel; [|split; [exact H|reflexivity]]. intros z st st' Hst.
    apply for_loop_rel; [|exact Hst]. intros y st1 st1' Hst1.
    apply for_loop_rel; [|exact Hst1]. intros x st2 st2' Hst2.
    apply march_cell_same_field. exact Hst2.
  - intros a a' [Ha _]. exact Ha.
Qed.

(** X16: of a skeleton, [calculate] reads the first node and the bounding
    box, nothing else. Two skeletons with the same first node and the same
    bounding box are given the same vertices, normals and triangles, or the
    call ends alike without a result, whatever the other nodes are and
    whatever states the two extractors were in. *)
Theorem calculate_reads_first_node_and_box :
  forall node rest rest' cubeSize blend targetValue (s s' : Isosurface),
    bounding_box (node :: rest) = bounding_box (node :: rest') ->
    outcome_rel same_mesh
      (calculate (node :: rest) cubeSize blend targetValue s)
      (calculate (node :: rest') cubeSize blend targetValue s').
Proof.
  intros node rest rest' cubeSize blend targetValue s s' Hbox.
  unfold calculate. cbn [mCubeSize mBlendingFunction mSkeleton mExtendsFrom mExtendsTo].
  destruct (fgt cubeSize (float_of_int 0)); cbn [assert bind]; [|exact I].
  destruct ((0 <=? blend) && (blend <=? NONE)); cbn [assert bind]; [|exact I].
  replace (0 <? Z.of_nat (length (node :: rest))) with true
    by (symmetry; apply Z.ltb_lt; cbn [length]; lia).
  replace (0 <? Z.of_nat (length (node :: rest'))) with true
    by (symmetry; apply Z.ltb_lt; cbn [length]; lia).
  unfold bounding_box in Hbox. rewrite <- Hbox.
  match goal with |- outcome_rel _ (generateObject ?u) (generateObject ?u') =>
    assert (H : outcome_rel same_field (generateObject u) (generateObject u'))
      by (apply generateObject_same_field; unfold same_field; read_members;
          repeat split; reflexivity);
    destruct (generateObject u) as [a| |], (generateObject u') as [a'| |]
  end; cbn [outcome_rel] in *; auto.
  destruct H as (_ & _ & _ & Hv & Hn & Ht & _).
  split; [exact Hv|split; [exact Hn|exact Ht]].
Qed.


(** ** The assertion of [fillScalarField] *)

Lemma each_fill_slot_outcome skeleton from cubeSize xAmount yAmount zAmount :
  let slot := fun c : Z * Z * Z =>
    let '(x, y, z) := c in
    getMapIndex x y z (xAmount + 1) (yAmount + 1) (zAmount + 1) in
  forall cs scalarField,
    NoDup (map slot cs) ->
    (forall c, In c cs -> 0 <= slot c < Z.of_nat (length scalarField)) ->
    (each cs (fun c => let '(x, y, z) := c in
                fill_slot skeleton from cubeSize xAmount yAmount zAmount z y x)
          scalarField = AssertFail
     <-> exists c v, In c cs /\ zth scalarField (slot c) = Some v
                     /\ feq v (float_of_int (-1)) = false)
    /\ each cs (fun c => let '(x, y, z) := c in
                  fill_slot skeleton from cubeSize xAmount yAmount zAmount z y x)
            scalarField <> Fault.
Proof.
  intros slot cs. induction cs as [|[[x y] z] cs IH]; intros scalarField Hnd Hin.
  - cbn [each]. split; [|discriminate].
    split; [discriminate|intros (c & v & [] & _)].
  - cbn [map] in Hnd. apply NoDup_cons_iff in Hnd. destruct Hnd as [Hfresh Hnd].
    destruct (zth_defined scalarField (slot (x, y, z))) as (v & Hv);
      [apply Hin; left; reflexivity|].
    cbn [each]. unfold fill_slot at 1 3. fold (slot (x, y, z)).
    rewrite Hv. cbn [defined bind].
    destruct (feq v (float_of_int (-1))) eqn:Hfeq; cbn [assert bind].
    + set (written := zset scalarField (slot (x, y, z))
                           (IsoValue skeleton (corner_coords from cubeSize x y z))).
      assert (Hother : forall c, In c cs -> zth written (slot c) = zth scalarField (slot c)).
      { intros c Hc. unfold written. apply zth_zset_other.
        intros E. apply Hfresh. rewrite E. apply in_map. exact Hc. }
      destruct (IH written Hnd) as [Hassert Hfault].
      { intros c Hc. unfold written. rewrite zset_length. apply Hin. right. exact Hc. }
      split; [|exact Hfault]. rewrite Hassert. split.
      * intros (c & w & Hc & Hw & Hneq). exists c, w.
        split; [right; exact Hc|]. rewrite <- (Hother c Hc). split; assumption.
      * intros (c & w & [<-|Hc] & Hw & Hneq); [congruence|].
        exists c, w. split; [exact Hc|]. rewrite (Hother c Hc). split; assumption.
    + split; [|discriminate]. split; [|reflexivity].
      intros _. exists (x, y, z), v. split; [left; reflexivity|]. split; assumption.
Qed.



(** ** Where a call can go wrong *)

Lemma calculate_prepared skeleton cubeSize blend targetValue (s : Isosurface) :
  calculate skeleton cubeSize blend targetValue s
  = (_ <- assert (fgt cubeSize (float_of_int 0)) ;;
     _ <- assert ((0 <=? blend) && (blend <=? NONE)) ;;
     if 0 <? Z.of_nat (length skeleton)
     then generateObject (prepared skeleton cubeSize blend targetValue)
     else Ok (mkIsosurface skeleton cubeSize blend targetValue [] [] [] []
                           (vsplat FLT_MAX) (vsplat (fneg FLT_MAX)))).
Proof. reflexivity. Qed.

Lemma generateObject_returns (s : Isosurface) :
  tables_consistent = true ->
  box_exceeds_cube s = false \/ grid_representable s = true ->
  exists s', generateObject s = Ok s'.
Proof.
  intros Htables. unfold generateObject, grid_representable.
  intros [Hflat|Hgrid]; [rewrite Hflat; eexists; reflexivity|].
  destruct (box_exceeds_cube s); [|eexists; reflexivity].
  destruct (grid_amounts s) as [[[xAmount yAmount] zAmount]| |]; try discriminate.
  cbn [bind].
  destruct (sample_grid_filled s xAmount yAmount zAmount Hgrid) as (field & Efield & _ & Hval).
  rewrite Efield. cbn [bind]. apply march_returns; [exact Htables|].
  intros x y z Hx Hy Hz. eexists. apply Hval; assumption.
Qed.

Lemma generateObject_undefined (s : Isosurface) :
  box_exceeds_cube s = true -> grid_representable s = false -> generateObject s = Fault.
Proof.
  unfold generateObject, grid_representable. intros Hbox Hgrid. rewrite Hbox.
  destruct (grid_amounts s) as [[[xAmount yAmount] zAmount]| |] eqn:E; cbn [bind].
  - unfold sample_grid. rewrite Hgrid. reflexivity.
  - exfalso. revert E. unfold grid_amounts.
    apply bind_no_assert; [apply defined_no_assert|intros ?].
    apply bind_no_assert; [apply defined_no_assert|intros ?].
    apply bind_no_assert; [apply defined_no_assert|intros ?].
    discriminate.
  - reflexivity.
Qed.

(** C7 (as amended): [calculate] stops at one of its two assertions on the
    configuration exactly when [cubeSize > 0] does not hold or [blend] lies
    outside [0, NONE], the bound [NONE] included in the range, so that
    [blend = NONE] is accepted. Under a valid configuration no assertion
    fails, the one of [fillScalarField] included, and (with tables that fit
    together) the call returns, whenever no grid is built (the skeleton is
    empty or the bounding box does not exceed the cube size) or the grid is
    representable: the cube amounts and the size of the scalar field are
    [int]s. Under a valid configuration with a grid that is not
    representable the call leaves the behaviour the language defines, which
    the model files under [Fault]: nothing is said of what the compiled
    program does then, and it can stop at the assertion of
    [fillScalarField]. *)
Theorem calculate_aborts_iff_invalid :
  forall skeleton cubeSize blend targetValue (s : Isosurface),
    let valid := fgt cubeSize (float_of_int 0) = true /\ 0 <= blend <= NONE in
    let built := prepared skeleton cubeSize blend targetValue in
    (~ valid -> calculate skeleton cubeSize blend targetValue s = AssertFail)
    /\ (valid ->
        skeleton = [] \/ box_exceeds_cube built = false \/ grid_representable built = true ->
        calculate skeleton cubeSize blend targetValue s <> AssertFail
        /\ (tables_consistent = true ->
            exists s', calculate skeleton cubeSize blend targetValue s = Ok s'))
    /\ (valid ->
        skeleton <> [] -> box_exceeds_cube built = true -> grid_representable built = false ->
        calculate skeleton cubeSize blend targetValue s = Fault).
Proof.
  intros skeleton cubeSize blend targetValue s valid built. unfold valid, built.
  rewrite calculate_prepared.
  split; [|split].
  - intros Hinvalid.
    destruct (fgt cubeSize (float_of_int 0)) eqn:Hcube; cbn [assert bind]; [|reflexivity].
    destruct ((0 <=? blend) && (blend <=? NONE)) eqn:Hblend; cbn [assert bind]; [|reflexivity].
    exfalso. apply Hinvalid. split; [reflexivity|].
    apply andb_true_iff in Hblend. destruct Hblend as [H1 H2].
    apply Z.leb_le in H1, H2. lia.
  - intros [Hcube Hblend] Hgrid. rewrite Hcube.
    replace ((0 <=? blend) && (blend <=? NONE)) with true
      by (symmetry; apply andb_true_intro; split; apply Z.leb_le; lia).
    cbn [assert bind]. split.
    + destruct (0 <? Z.of_nat (length skeleton)); [|discriminate].
      apply generateObject_no_assert.
    + intros Htables.
      destruct (0 <? Z.of_nat (length skeleton)) eqn:Hlen; [|eexists; reflexivity].
      apply generateObject_returns; [exact Htables|].
      destruct Hgrid as [->|[H|H]]; [discriminate Hlen|left; exact H|right; exact H].
  - intros [Hcube Hblend] Hne Hbox Hgrid. rewrite Hcube.
    replace ((0 <=? blend) && (blend <=? NONE)) with true
      by (symmetry; apply andb_true_intro; split; apply Z.leb_le; lia).
    cbn [assert bind].
    replace (0 <? Z.of_nat (length skeleton)) with true
      by (symmetry; apply Z.ltb_lt; destruct skeleton; [congruence|cbn [length]; lia]).
    apply generateObject_undefined; assumption.
Qed.

(** X7: [update] validates nothing itself, not even the cube size.
    Whatever the skeleton and the state of the extractor, if the bounding
    box it finds does not exceed the cube size or the grid is representable
    (the cube amounts and the size of the scalar field are [int]s), no
    assertion fails, the one of [fillScalarField] holding at every visit,
    and with tables that fit together the call returns. If the box exceeds
    the cube size and the grid is not representable, the call leaves the
    behaviour the language defines ([Fault]): nothing is said of such a
    run, in which the compiled program can stop at the assertion of
    [fillScalarField]. *)
Theorem update_returns_on_representable_grid :
  forall (skeleton : list SkeletonNode) (s : Isosurface),
    (box_exceeds_cube s = false \/ grid_representable s = true ->
     update skeleton s <> AssertFail
     /\ (tables_consistent = true -> exists s', update skeleton s = Ok s'))
    /\ (box_exceeds_cube s = true -> grid_representable s = false ->
        update skeleton s = Fault).
Proof.
  intros skeleton s. unfold update. split.
  - intros Hgrid. split; [apply generateObject_no_assert|].
    intros Htables. apply generateObject_returns; [exact Htables|exact Hgrid].
  - intros Hbox Hgrid. apply generateObject_undefined; assumption.
Qed.

(** ** Moving the skeleton *)

Lemma each_rel_in {S S' A : Type} (R : S -> S' -> Prop)
    (body : A -> S -> outcome S) (body' : A -> S' -> outcome S') :
  forall l,
    (forall a s s', In a l -> R s s' -> outcome_rel R (body a s) (body' a s')) ->
    forall s s', R s s' -> outcome_rel R (each l body s) (each l body' s').
Proof.
  induction l as [|a l IH]; intros Hbody s s' HR; cbn [each]; [exact HR|].
  apply (bind_rel R R).
  - apply Hbody; [left; reflexivity|exact HR].
  - intros s1 s1' HR1. apply IH; [|exact HR1].
    intros b t t' Hb. apply Hbody. right. exact Hb.
Qed.

Lemma for_loop_rel_in {S S' : Type} (R : S -> S' -> Prop)
    (body : Z -> S -> outcome S) (body' : Z -> S' -> outcome S') (hi : Z) :
  (forall i s s', 0 <= i < hi -> R s s' -> outcome_rel R (body i s) (body' i s')) ->
  forall s s', R s s' -> outcome_rel R (for_loop 0 hi body s) (for_loop 0 hi body' s').
Proof.
  intros H s s' HR. rewrite !for_loop_each. apply each_rel_in; [|exact HR].
  intros i t t' Hi. apply H. apply zrange_In in Hi. lia.
Qed.

Lemma real_eqb_eq (a b : real) : real_eqb a b = true <-> a = b.
Proof. unfold real_eqb. destruct (real_eq_dec a b); split; congruence. Qed.

Lemma mapM_Forall2 {A B : Type} (f : A -> outcome B) :
  forall l bs, mapM f l = Ok bs -> Forall2 (fun a b => f a = Ok b) l bs.
Proof.
  induction l as [|a l IH]; intros bs H; cbn [mapM] in H.
  - inversion H. constructor.
  - destruct (f a) as [b| |] eqn:E; cbn [bind] in H; try discriminate.
    destruct (mapM f l) as [bs'| |]; cbn [bind] in H; try discriminate.
    inversion H. constructor; [exact E|apply IH; reflexivity].
Qed.

Lemma zset_map {A B : Type} (f : A -> B) (l : list A) (i : Z) (v : A) :
  zset (map f l) i (f v) = map f (zset l i v).
Proof.
  unfold zset. destruct (i <? 0); [reflexivity|].
  generalize (Z.to_nat i). clear i.
  induction l as [|h t IH]; intros [|n]; simpl; auto. f_equal. apply IH.
Qed.

(** The entries of [asEdgeVertex] that were written, and the corners of the
    triangles read from them, are crossing points of the cell. *)
Lemma edge_vertices_entries (cell : Cell) (flags : Z) (ev : list (option Vector3)) :
  edge_vertices cell flags = Ok ev ->
  forall k v, zth ev k = Some (Some v) ->
    0 <= k < 12 /\ Z.testbit flags k = true /\ edge_vertex cell k = Ok v.
Proof.
  rewrite edge_vertices_spec. unfold edgeVertex_spec. intros H k v Hk.
  apply mapM_Forall2 in H.
  pose proof (Forall2_length H) as Hlen. rewrite zrange_length in Hlen.
  pose proof (zth_Some_bound _ _ _ Hk) as Hrange. rewrite <- Hlen in Hrange.
  destruct (Forall2_zrange _ 12 0 ev H k) as (b & Eb & Hb); [simpl; lia|].
  unfold zth in Hk. replace (k <? 0) with false in Hk by (symmetry; apply Z.ltb_ge; lia).
  rewrite Z.sub_0_r in Eb. rewrite Eb in Hk. inversion Hk. subst b.
  split; [simpl in Hrange; lia|].
  destruct (Z.testbit flags k); [|discriminate].
  split; [reflexivity|]. rewrite edge_vertex_crossing.
  destruct (crossing_spec cell k) as [w| |]; cbn [bind] in Hb; try discriminate.
  inversion Hb. reflexivity.
Qed.

Lemma cell_crossings_In (cell : Cell) (k : Z) (v : Vector3) :
  0 <= k < 12 ->
  Z.testbit (aiCubeEdgeFlags (iFlagIndex cell)) k = true ->
  edge_vertex cell k = Ok v ->
  In (k, v) (cell_crossings cell).
Proof.
  intros Hk Hbit Hv. unfold cell_crossings. apply in_flat_map. exists k.
  split; [apply zrange_In; simpl; lia|].
  rewrite land_bit by lia. rewrite Hbit, Hv. left. reflexivity.
Qed.

Lemma triangles_from_corners (flag : Z) (ev : list (option Vector3)) :
  forall n iTriangle ts,
    triangles_from n iTriangle flag ev = Ok ts ->
    Forall (fun t => (exists k, zth ev k = Some (Some (corner0 t)))
                     /\ (exists k, zth ev k = Some (Some (corner1 t)))
                     /\ (exists k, zth ev k = Some (Some (corner2 t)))) ts.
Proof.
  assert (Hread : forall k v, read_edge_vertex ev k = Ok v -> zth ev k = Some (Some v)).
  { intros k v. unfold read_edge_vertex.
    destruct (zth ev k) as [[w|]|]; intros H; inversion H; reflexivity. }
  induction n as [|n IH]; intros i ts H; cbn [triangles_from] in H.
  - inversion H. constructor.
  - destruct (_ <? 0); [inversion H; constructor|].
    destruct (read_edge_vertex ev (a2iTriangleConnectionTable flag (3 * i + 0)))
      as [c0| |] eqn:E0; cbn [bind] in H; try discriminate.
    destruct (read_edge_vertex ev (a2iTriangleConnectionTable flag (3 * i + 1)))
      as [c1| |] eqn:E1; cbn [bind] in H; try discriminate.
    destruct (read_edge_vertex ev (a2iTriangleConnectionTable flag (3 * i + 2)))
      as [c2| |] eqn:E2; cbn [bind] in H; try discriminate.
    destruct (triangles_from n (i + 1) flag ev) as [rest| |] eqn:Er;
      cbn [bind] in H; try discriminate.
    inversion H. constructor; [|apply (IH _ _ Er)].
    cbn [corner0 corner1 corner2].
    split; [eexists; apply Hread; exact E0|].
    split; eexists; apply Hread; eassumption.
Qed.

Lemma Triangulate_corners (cell : Cell) (ts : list Triangle) :
  Triangulate cell = Ok ts ->
  Forall (fun t => In (corner0 t) (map snd (cell_crossings cell))
                   /\ In (corner1 t) (map snd (cell_crossings cell))
                   /\ In (corner2 t) (map snd (cell_crossings cell))) ts.
Proof.
  unfold Triangulate. destruct (_ =? 0); [intros H; inversion H; constructor|].
  destruct (edge_vertices cell _) as [ev| |] eqn:Eev; cbn [bind]; try discriminate.
  intros H. apply triangles_from_corners in H.
  assert (Hin : forall v, (exists k, zth ev k = Some (Some v)) ->
                          In v (map snd (cell_crossings cell))).
  { intros v (k & Hk).
    destruct (edge_vertices_entries _ _ _ Eev k v Hk) as (Hr & Hbit & Hv).
    apply in_map_iff. exists (k, v). split; [reflexivity|].
    apply cell_crossings_In; assumption. }
  eapply Forall_impl; [|exact H].
  intros t (H0 & H1 & H2). repeat split; apply Hin; assumption.
Qed.

Section Translation.
Variable delta : Vector3.

Lemma read_edge_vertex_translated ev iVertex :
  outcome_rel (fun v v' => v' = shift delta v)
    (read_edge_vertex ev iVertex)
    (read_edge_vertex (map (option_map (shift delta)) ev) iVertex).
Proof.
  unfold read_edge_vertex. rewrite zth_map.
  destruct (zth ev iVertex) as [[v|]|]; simpl; auto.
Qed.

Lemma triangles_from_translated flag ev :
  forall n iTriangle,
    outcome_rel (fun ts ts' => ts' = map (moved_triangle delta) ts)
      (triangles_from n iTriangle flag ev)
      (triangles_from n iTriangle flag (map (option_map (shift delta)) ev)).
Proof.
  induction n as [|n IH]; intros k; simpl; [reflexivity|].
  destruct (_ <? 0); [reflexivity|].
  apply (bind_rel (fun v v' => v' = shift delta v));
    [apply read_edge_vertex_translated|intros c0 c0' ->].
  apply (bind_rel (fun v v' => v' = shift delta v));
    [apply read_edge_vertex_translated|intros c1 c1' ->].
  apply (bind_rel (fun v v' => v' = shift delta v));
    [apply read_edge_vertex_translated|intros c2 c2' ->].
  apply (bind_rel (fun ts ts' => ts' = map (moved_triangle delta) ts)); [apply IH|].
  intros ts ts' ->. reflexivity.
Qed.

(** The crossing point computed for a cell with its corners moved goes
    wrong when the one computed for the cell does. *)
Lemma edge_vertex_shifted_fault (cell : Cell) (iEdge : Z) :
  edge_vertex cell iEdge = Fault -> edge_vertex (shifted_cell delta cell) iEdge = Fault.
Proof.
  unfold edge_vertex, shifted_cell. cbn [p val]. rewrite !zth_map.
  destruct (zth (val cell) (a2iEdgeConnection iEdge 0)); cbn [defined bind]; auto.
  destruct (zth (val cell) (a2iEdgeConnection iEdge 1)); cbn [defined bind]; auto.
  destruct (zth (p cell) (a2iEdgeConnection iEdge 0)); cbn [option_map defined bind]; auto.
  destruct (zth (p cell) (a2iEdgeConnection iEdge 1)); cbn [option_map defined bind]; auto.
  discriminate.
Qed.

Section Run.
Variables s0 s0' : Isosurface.
Variable scalarField : list real.
Variables xAmount yAmount zAmount : Z.

Hypothesis Hoffsets : offsets_in_cube = true.
Hypothesis Htarget : mTargetValue s0' = mTargetValue s0.
Hypothesis Hgrid : grid_moves delta s0 s0' xAmount yAmount zAmount = true.
Hypothesis Hcross : crossings_move delta s0 scalarField xAmount yAmount zAmount = true.

Local Abbreviation known := (crossings s0 scalarField xAmount yAmount zAmount).
Local Abbreviation related := (moved delta s0 s0' known).

Lemma corner_moves (x y z : Z) :
  0 <= x <= xAmount -> 0 <= y <= yAmount -> 0 <= z <= zAmount ->
  corner_coords (mExtendsFrom s0') (mCubeSize s0') x y z
  = shift delta (corner_coords (mExtendsFrom s0) (mCubeSize s0) x y z)
  /\ IsoValue (mSkeleton s0') (corner_coords (mExtendsFrom s0') (mCubeSize s0') x y z)
     = IsoValue (mSkeleton s0) (corner_coords (mExtendsFrom s0) (mCubeSize s0) x y z).
Proof.
  intros Hx Hy Hz. pose proof Hgrid as H. unfold grid_moves in H.
  rewrite forallb_forall in H.
  specialize (H (x, y, z) (proj2 (corners_In xAmount yAmount zAmount x y z)
                                 (conj Hx (conj Hy Hz)))).
  cbv beta iota in H. apply andb_true_iff in H. destruct H as [H1 H2].
  split; [apply key_eqb_eq; exact H1|apply real_eqb_eq; exact H2].
Qed.

Lemma crossing_moves (cell : Cell) (iEdge : Z) (v : Vector3) :
  In cell (cells s0 scalarField xAmount yAmount zAmount) ->
  In (iEdge, v) (cell_crossings cell) ->
  edge_vertex (shifted_cell delta cell) iEdge = Ok (shift delta v).
Proof.
  intros Hcell Hv. pose proof Hcross as H. unfold crossings_move in H.
  apply andb_true_iff in H. destruct H as [H _].
  rewrite forallb_forall in H. specialize (H cell Hcell).
  rewrite forallb_forall in H. specialize (H (iEdge, v) Hv). cbn [fst snd] in H.
  destruct (edge_vertex (shifted_cell delta cell) iEdge) as [v'| |]; try discriminate.
  apply key_eqb_eq in H. rewrite H. reflexivity.
Qed.

Lemma shift_inj_known (v w : Vector3) :
  In v known -> In w known -> shift delta v = shift delta w -> v = w.
Proof.
  intros Hv Hw E. pose proof Hcross as H. unfold crossings_move in H.
  apply andb_true_iff in H. destruct H as [_ H].
  rewrite forallb_forall in H. specialize (H v Hv).
  rewrite forallb_forall in H. specialize (H w Hw).
  rewrite (proj2 (key_eqb_eq _ _) E) in H. cbn [implb] in H.
  apply key_eqb_eq. exact H.
Qed.

Lemma cells_In (x y z : Z) (cell : Cell) :
  0 <= x < xAmount -> 0 <= y < yAmount -> 0 <= z < zAmount ->
  make_cell s0 scalarField xAmount yAmount zAmount x y z = Ok cell ->
  In cell (cells s0 scalarField xAmount yAmount zAmount).
Proof.
  intros Hx Hy Hz Hcell. unfold cells.
  apply in_flat_map. exists z. split; [apply zrange_In; lia|].
  apply in_flat_map. exists y. split; [apply zrange_In; lia|].
  apply in_flat_map. exists x. split; [apply zrange_In; lia|].
  rewrite Hcell. left. reflexivity.
Qed.

Lemma known_In (cell : Cell) (v : Vector3) :
  In cell (cells s0 scalarField xAmount yAmount zAmount) ->
  In v (map snd (cell_crossings cell)) -> In v known.
Proof.
  intros Hcell Hv. unfold crossings. apply in_flat_map. exists cell. split; assumption.
Qed.

Lemma make_cell_reads (s : Isosurface) (base : Isosurface) (x y z : Z) :
  mCubeSize s = mCubeSize base -> mTargetValue s = mTargetValue base ->
  mExtendsFrom s = mExtendsFrom base ->
  make_cell s scalarField xAmount yAmount zAmount x y z
  = make_cell base scalarField xAmount yAmount zAmount x y z.
Proof. intros Hc Ht Hf. unfold make_cell. rewrite Hc, Ht, Hf. reflexivity. Qed.

Lemma make_cell_shifted (x y z : Z) :
  0 <= x < xAmount -> 0 <= y < yAmount -> 0 <= z < zAmount ->
  outcome_rel (fun c c' => c' = shifted_cell delta c)
    (make_cell s0 scalarField xAmount yAmount zAmount x y z)
    (make_cell s0' scalarField xAmount yAmount zAmount x y z).
Proof.
  intros Hx Hy Hz. unfold make_cell. apply for_loop_rel_in; [|reflexivity].
  intros i c c' Hi ->. cbv zeta.
  destruct (defined (zth scalarField _)) as [v| |]; cbn [bind outcome_rel]; auto.
  pose proof (offsets_in_cube_bound Hoffsets i 0 Hi ltac:(lia)) as H0.
  pose proof (offsets_in_cube_bound Hoffsets i 1 Hi ltac:(lia)) as H1.
  pose proof (offsets_in_cube_bound Hoffsets i 2 Hi ltac:(lia)) as H2.
  destruct (corner_moves (x + cubeOffsets i 0) (y + cubeOffsets i 1) (z + cubeOffsets i 2))
    as [Hpos _]; [lia|lia|lia|].
  unfold corner_coords in Hpos.
  rewrite !(fmul_comm (float_of_int _)) in Hpos.
  unfold shifted_cell. cbn [p val iFlagIndex].
  rewrite map_app, Htarget. cbn [map]. rewrite Hpos. reflexivity.
Qed.

Lemma edge_vertex_shifted (cell : Cell) (iEdge : Z) :
  In cell (cells s0 scalarField xAmount yAmount zAmount) ->
  0 <= iEdge < 12 ->
  Z.testbit (aiCubeEdgeFlags (iFlagIndex cell)) iEdge = true ->
  outcome_rel (fun v v' => v' = shift delta v)
    (edge_vertex cell iEdge) (edge_vertex (shifted_cell delta cell) iEdge).
Proof.
  intros Hcell He Hbit.
  destruct (edge_vertex cell iEdge) as [v| |] eqn:E.
  - rewrite (crossing_moves cell iEdge v Hcell (cell_crossings_In cell iEdge v He Hbit E)).
    reflexivity.
  - exfalso. exact (edge_vertex_no_assert cell iEdge E).
  - rewrite (edge_vertex_shifted_fault cell iEdge E). exact I.
Qed.

Lemma edge_vertices_shifted (cell : Cell) :
  In cell (cells s0 scalarField xAmount yAmount zAmount) ->
  outcome_rel (fun ev ev' => ev' = map (option_map (shift delta)) ev)
    (edge_vertices cell (aiCubeEdgeFlags (iFlagIndex cell)))
    (edge_vertices (shifted_cell delta cell) (aiCubeEdgeFlags (iFlagIndex cell))).
Proof.
  intros Hcell. unfold edge_vertices. apply for_loop_rel_in; [|reflexivity].
  intros i ev ev' Hi ->.
  destruct (Z.land _ (Z.shiftl 1 i) =? 0) eqn:Hflag; cbn [negb]; [reflexivity|].
  rewrite land_bit in Hflag by lia. apply negb_false_iff in Hflag.
  apply (bind_rel (fun v v' => v' = shift delta v)).
  - apply edge_vertex_shifted; assumption.
  - intros v v' ->. cbn [outcome_rel].
    apply (zset_map (option_map (shift delta)) ev i (Some v)).
Qed.

Lemma Triangulate_shifted (cell : Cell) :
  In cell (cells s0 scalarField xAmount yAmount zAmount) ->
  outcome_rel (fun ts ts' => ts' = map (moved_triangle delta) ts)
    (Triangulate cell) (Triangulate (shifted_cell delta cell)).
Proof.
  intros Hcell. unfold Triangulate.
  change (iFlagIndex (shifted_cell delta cell)) with (iFlagIndex cell).
  destruct (_ =? 0); [reflexivity|].
  apply (bind_rel (fun ev ev' => ev' = map (option_map (shift delta)) ev)).
  - apply edge_vertices_shifted. exact Hcell.
  - intros ev ev' ->. apply triangles_from_translated.
Qed.

Lemma find_key_shifted (v : Vector3) (hash : list (Vector3 * Z)) :
  In v known ->
  Forall (fun kv : Vector3 * Z => In (fst kv) known) hash ->
  find_key (shift delta v) (map (fun kv => (shift delta (fst kv), snd kv)) hash)
  = find_key v hash.
Proof.
  intros Hv. induction hash as [|[k i] hash IH]; intros Hkeys; [reflexivity|].
  inversion Hkeys as [|? ? Hk Hrest]; subst. cbn [fst] in Hk.
  cbn [map fst snd]. rewrite !find_key_cons.
  replace (key_eqb (shift delta k) (shift delta v)) with (key_eqb k v).
  - destruct (key_eqb k v); [reflexivity|apply IH; exact Hrest].
  - destruct (key_eqb k v) eqn:E; symmetry.
    + apply key_eqb_eq in E. subst. apply key_eqb_eq. reflexivity.
    + destruct (key_eqb (shift delta k) (shift delta v)) eqn:E'; [|reflexivity].
      apply key_eqb_eq in E'. apply (shift_inj_known k v Hk Hv) in E'.
      subst. rewrite (proj2 (key_eqb_eq v v) eq_refl) in E. discriminate.
Qed.

Lemma add_corner_moved (v : Vector3) (st st' : Isosurface * Z) :
  In v known ->
  related st st' ->
  related (fst (add_corner v st)) (fst (add_corner (shift delta v) st'))
  /\ snd (add_corner (shift delta v) st') = snd (add_corner v st).
Proof.
  destruct st as [s k], st' as [s' k']. unfold moved. cbn [fst snd].
  intros Hv (Hc & Hc' & Hvs & Ht & Hh & Hkeys & Hk).
  subst k'. unfold add_corner.
  rewrite Hh, (find_key_shifted v _ Hv Hkeys).
  destruct (find_key v (mVertexHash s)) as [found|]; cbn [fst snd].
  - split; [|reflexivity]. repeat (split; [assumption|]). reflexivity.
  - read_members. split; [|reflexivity].
    split; [exact Hc|]. split; [exact Hc'|].
    split; [rewrite Hvs, map_app; reflexivity|].
    split; [exact Ht|]. split; [reflexivity|].
    split; [constructor; [exact Hv|exact Hkeys]|reflexivity].
Qed.

Lemma add_triangle_moved (t : Triangle) (st st' : Isosurface * Z) :
  In (corner0 t) known -> In (corner1 t) known -> In (corner2 t) known ->
  related st st' ->
  related (add_triangle t st) (add_triangle (moved_triangle delta t) st').
Proof.
  intros V0 V1 V2 H. unfold add_triangle, moved_triangle. cbn [corner0 corner1 corner2].
  pose proof (add_corner_moved (corner0 t) st st' V0 H) as [H0 K0].
  destruct (add_corner (corner0 t) st) as [st0 k0].
  destruct (add_corner (shift delta (corner0 t)) st') as [st0' k0'].
  cbn [fst snd] in H0, K0. subst k0'.
  pose proof (add_corner_moved (corner1 t) st0 st0' V1 H0) as [H1 K1].
  destruct (add_corner (corner1 t) st0) as [st1 k1].
  destruct (add_corner (shift delta (corner1 t)) st0') as [st1' k1'].
  cbn [fst snd] in H1, K1. subst k1'.
  pose proof (add_corner_moved (corner2 t) st1 st1' V2 H1) as [H2 K2].
  destruct (add_corner (corner2 t) st1) as [st2 k2].
  destruct (add_corner (shift delta (corner2 t)) st1') as [st2' k2'].
  cbn [fst snd] in H2, K2. subst k2'.
  destruct st2 as [s2 n2], st2' as [s2' n2'].
  unfold moved in *. cbn [fst snd] in *.
  destruct H2 as (Hc & Hc' & Hvs & Ht & Hh & Hkeys & Hn). subst n2'.
  read_members. rewrite Ht.
  split; [exact Hc|]. split; [exact Hc'|]. split; [exact Hvs|].
  split; [reflexivity|]. split; [exact Hh|]. split; [exact Hkeys|reflexivity].
Qed.

Lemma add_triangles_moved (ts : list Triangle) :
  Forall (fun t => In (corner0 t) known /\ In (corner1 t) known /\ In (corner2 t) known) ts ->
  forall st st', related st st' ->
    related (fold_left (fun st t => add_triangle t st) ts st)
          (fold_left (fun st t => add_triangle t st) (map (moved_triangle delta) ts) st').
Proof.
  induction 1 as [|t ts (V0 & V1 & V2) _ IH]; intros st st' H; cbn [map fold_left];
    [exact H|].
  apply IH. apply add_triangle_moved; assumption.
Qed.

Lemma march_cell_moved (z y x : Z) (st st' : Isosurface * Z) :
  0 <= x < xAmount -> 0 <= y < yAmount -> 0 <= z < zAmount ->
  related st st' ->
  outcome_rel related
    (march_cell scalarField xAmount yAmount zAmount z y x st)
    (march_cell scalarField xAmount yAmount zAmount z y x st').
Proof.
  intros Hx Hy Hz H. unfold march_cell.
  pose proof H as ((A1 & A2 & A3) & (B1 & B2 & B3) & _).
  rewrite (make_cell_reads (fst st) s0 x y z A1 A2 A3).
  rewrite (make_cell_reads (fst st') s0' x y z B1 B2 B3).
  pose proof (make_cell_shifted x y z Hx Hy Hz) as Hcell.
  destruct (make_cell s0 scalarField xAmount yAmount zAmount x y z) as [c| |] eqn:Ec;
    destruct (make_cell s0' scalarField xAmount yAmount zAmount x y z) as [c'| |];
    cbn [outcome_rel bind] in *; try contradiction; auto.
  subst c'.
  pose proof (cells_In x y z c Hx Hy Hz Ec) as Hin.
  pose proof (Triangulate_shifted c Hin) as Hts.
  pose proof (Triangulate_corners c) as Hcorners.
  destruct (Triangulate c) as [ts| |]; destruct (Triangulate (shifted_cell delta c)) as [ts'| |];
    cbn [outcome_rel bind] in *; try contradiction; auto.
  subst ts'. apply add_triangles_moved; [|exact H].
  eapply Forall_impl; [|exact (Hcorners ts eq_refl)].
  intros t (V0 & V1 & V2). repeat split; apply (known_In c); assumption.
Qed.

Lemma march_moved (s s' : Isosurface) :
  related (s, 0) (s', 0) ->
  outcome_rel (fun a a' => mVertices a' = map (shift delta) (mVertices a)
                           /\ mTriangles a' = mTriangles a)
    (march s scalarField xAmount yAmount zAmount)
    (march s' scalarField xAmount yAmount zAmount).
Proof.
  intros H. unfold march. apply (bind_rel related).
  - apply for_loop_rel_in; [|exact H]. intros z st st' Hz Hst.
    apply for_loop_rel_in; [|exact Hst]. intros y st1 st1' Hy Hst1.
    apply for_loop_rel_in; [|exact Hst1]. intros x st2 st2' Hx Hst2.
    apply march_cell_moved; assumption.
  - intros st st' (_ & _ & Hv & Ht & _). cbn [outcome_rel]. split; assumption.
Qed.

End Run.

Lemma generateObject_translated (s s' : Isosurface) :
  offsets_in_cube = true ->
  mCubeSize s' = mCubeSize s ->
  mTargetValue s' = mTargetValue s ->
  mVertices s = [] -> mTriangles s = [] -> mVertexHash s = [] ->
  mVertices s' = [] -> mTriangles s' = [] -> mVertexHash s' = [] ->
  moves_exactly delta s s' = true ->
  outcome_rel (mesh_translated delta) (generateObject s) (generateObject s').
Proof.
  intros Hoff Hcube Htarget Hv Ht Hh Hv' Ht' Hh' Hexact.
  unfold moves_exactly in Hexact. rewrite !andb_true_iff in Hexact.
  destruct Hexact as [[[Hfrom Hto] Hextent] Hrun].
  apply key_eqb_eq in Hfrom, Hto, Hextent.
  assert (Hbox : box_exceeds_cube s' = box_exceeds_cube s)
    by (unfold box_exceeds_cube; rewrite Hextent, Hcube; reflexivity).
  assert (Hamounts : grid_amounts s' = grid_amounts s)
    by (unfold grid_amounts; rewrite Hextent, Hcube; reflexivity).
  unfold generateObject. rewrite Hbox, Hamounts.
  destruct (box_exceeds_cube s).
  2:{ cbn [outcome_rel]. unfold mesh_translated. rewrite Hv, Hv', Ht, Ht'.
      split; reflexivity. }
  destruct (grid_amounts s) as [[[xAmount yAmount] zAmount]| |]; cbn [bind outcome_rel]; auto.
  destruct (grid_fits xAmount yAmount zAmount) eqn:Hfits.
  2:{ unfold sample_grid. rewrite Hfits. exact I. }
  destruct (sample_grid_filled s xAmount yAmount zAmount Hfits) as (field & Efield & _).
  rewrite Efield in Hrun. apply andb_true_iff in Hrun. destruct Hrun as [Hgrid Hcross].
  assert (Efield' : sample_grid s' xAmount yAmount zAmount = Ok field).
  { rewrite <- Efield. unfold sample_grid. rewrite Hfits. cbn [defined bind].
    rewrite !fillScalarField_unrolled. apply each_ext.
    intros [[x y] z] f Hc. unfold fill_slot.
    apply corners_In in Hc. destruct Hc as (Hx & Hy & Hz).
    destruct (corner_moves s s' xAmount yAmount zAmount Hgrid x y z Hx Hy Hz) as [_ E].
    rewrite E. reflexivity. }
  rewrite Efield, Efield'. cbn [bind].
  apply (march_moved s s' field xAmount yAmount zAmount); try assumption.
  unfold moved. cbn [fst snd]. rewrite Hv, Hv', Ht, Ht', Hh, Hh'.
  repeat split; constructor.
Qed.


End Translation.

End Extractor.

(** ** IEEE-754 binary32, the arithmetic of the program *)

Module B32.

Definition prec : Z := 24.
Definition emax : Z := 128.

Definition add := SFadd prec emax.
Definition sub := SFsub prec emax.
Definition mul := SFmul prec emax.
Definition div := SFdiv prec emax.
Definition sqrt := SFsqrt prec emax.

Definition of_int (n : Z) : spec_float := binary_normalize prec emax n 0 false.

Definition to_int (x : spec_float) : option Z :=
  match x with
  | S754_zero _ => Some 0
  | S754_finite s m e =>
      let mag := Z.shiftl (Z.pos m) e in
      let v := if s then - mag else mag in
      if fits_int v then Some v else None
  | _ => None
  end.

(** [Ogre::Math::Pow], the [powf] of the C library, is no code of this
    repository. Modelled from the spec: the power of an exponent that is a
    natural number is taken exactly and rounded once, to nearest with ties
    to even, like the other operations; a zero, an infinity and
    not-a-number follow the C standard, [pow (x, 0)] being 1 for every [x].
    A [powf] whose error stays below half a unit in the last place returns
    this value. The extractor calls [Pow] with the exponent 4 only; no other
    kind of exponent is modelled, and not-a-number stands for the result
    there. *)
Definition pow (b e : spec_float) : spec_float :=
  match to_int e with
  | Some n =>
      if (0 <=? n) && SFeqb (of_int n) e
      then
        if n =? 0 then of_int 1
        else
          match b with
          | S754_finite s m ex =>
              binary_normalize prec emax
                (if s && Z.odd n then - Z.pos m ^ n else Z.pos m ^ n) (ex * n) false
          | S754_zero s => S754_zero (s && Z.odd n)
          | S754_infinity s => S754_infinity (s && Z.odd n)
          | S754_nan => S754_nan
          end
      else S754_nan
  | None => S754_nan
  end.

Definition eq_dec (a b : spec_float) : {a = b} + {a <> b}.
Proof.
  decide equality; try apply Bool.bool_dec.
  - apply Z.eq_dec.
  - apply Pos.eq_dec.
Defined.

Lemma add_comm (a b : spec_float) : add a b = add b a.
Proof.
  unfold add.
  destruct a as [sa|sa| |sa ma ea], b as [sb|sb| |sb mb eb]; simpl; try reflexivity.
  - destruct sa, sb; reflexivity.
  - destruct sa, sb; reflexivity.
  - rewrite (Z.min_comm eb ea).
    rewrite (Z.add_comm (cond_Zopp sb _)). reflexivity.
Qed.

Lemma mul_comm (a b : spec_float) : mul a b = mul b a.
Proof.
  unfold mul.
  destruct a as [sa|sa| |sa ma ea], b as [sb|sb| |sb mb eb]; simpl;
    try reflexivity; rewrite ?(xorb_comm sb sa); try reflexivity.
  rewrite (Pos.mul_comm mb ma), (Z.add_comm eb ea). reflexivity.
Qed.

Lemma compare_antisym (a b : spec_float) :
  SFcompare b a = option_map CompOpp (SFcompare a b).
Proof.
  destruct a as [sa|sa| |sa ma ea], b as [sb|sb| |sb mb eb]; simpl;
    try reflexivity;
    try (destruct sa; reflexivity); try (destruct sb; reflexivity);
    try (destruct sa, sb; reflexivity).
  f_equal. change PosDef.Pos.compare_cont with Pos.compare_cont.
  destruct sa, sb; simpl; try reflexivity;
    rewrite (Z.compare_antisym eb ea);
    destruct (eb ?= ea) eqn:E; simpl; try reflexivity;
    rewrite (Pos.compare_cont_antisym ma mb Eq); reflexivity.
Qed.

Lemma le_not_gt (a b : spec_float) : SFleb a b = true -> SFltb b a = false.
Proof.
  unfold SFleb, SFltb. rewrite (compare_antisym a b).
  destruct (SFcompare a b) as [[| |]|]; simpl; congruence.
Qed.

End B32.

#[export] Instance binary32 : RealArith spec_float := {
  fadd := B32.add;
  fsub := B32.sub;
  fmul := B32.mul;
  fdiv := B32.div;
  fneg := SFopp;
  flt := SFltb;
  fle := SFleb;
  feq := SFeqb;
  float_of_int := B32.of_int;
  int_of_float := B32.to_int;
  fsqrt := B32.sqrt;
  fpow := B32.pow;
  FLT_MAX := SFmax_float B32.prec B32.emax;
  real_eq_dec := B32.eq_dec;
  fadd_comm := B32.add_comm;
  fmul_comm := B32.mul_comm;
  fle_not_gt := B32.le_not_gt;
  feq_minus_one := eq_refl
}.

(** ** The constants of the reference implementation

    The theorems on the extractor hold for every header; the instance below
    serves the runs on concrete inputs. *)

Module Reference.

(** Modelled from the spec: [cubeOffsets] is declared in [Isosurface.h],
    outside the sources at hand; the specification has the eight corner
    offsets in the order of the marching-cubes reference the source file
    cites: (0,0,0), (1,0,0), (1,1,0), (0,1,0) on the lower face and likewise
    on the upper one. *)
Definition cubeOffsets_table : list (list Z) :=
  [ [0; 0; 0]; [1; 0; 0]; [1; 1; 0]; [0; 1; 0];
    [0; 0; 1]; [1; 0; 1]; [1; 1; 1]; [0; 1; 1] ].

(** Modelled from the spec: [a2iEdgeConnection], declared in the header
    too, gives for each of the twelve edges the two corners it joins, as in
    the reference. *)
Definition a2iEdgeConnection_table : list (list Z) :=
  [ [0; 1]; [1; 2]; [2; 3]; [3; 0];
    [4; 5]; [5; 6]; [6; 7]; [7; 4];
    [0; 4]; [1; 5]; [2; 6]; [3; 7] ].

(** Modelled from the spec: [aiCubeEdgeFlags], declared in the header, is
    the edge table of the reference; entry [i] has the bit of every edge
    whose two corners differ in their bit of [i]. *)
Definition aiCubeEdgeFlags_table : list Z :=
  [ 0x000; 0x109; 0x203; 0x30a; 0x406; 0x50f; 0x605; 0x70c;
    0x80c; 0x905; 0xa0f; 0xb06; 0xc0a; 0xd03; 0xe09; 0xf00;
    0x190; 0x099; 0x393; 0x29a; 0x596; 0x49f; 0x795; 0x69c;
    0x99c; 0x895; 0xb9f; 0xa96; 0xd9a; 0xc93; 0xf99; 0xe90;
    0x230; 0x339; 0x033; 0x13a; 0x636; 0x73f; 0x435; 0x53c;
    0xa3c; 0xb35; 0x83f; 0x936; 0xe3a; 0xf33; 0xc39; 0xd30;
    0x3a0; 0x2a9; 0x1a3; 0x0aa; 0x7a6; 0x6af; 0x5a5; 0x4ac;
    0xbac; 0xaa5; 0x9af; 0x8a6; 0xfaa; 0xea3; 0xda9; 0xca0;
    0x460; 0x569; 0x663; 0x76a; 0x066; 0x16f; 0x265; 0x36c;
    0xc6c; 0xd65; 0xe6f; 0xf66; 0x86a; 0x963; 0xa69; 0xb60;
    0x5f0; 0x4f9; 0x7f3; 0x6fa; 0x1f6; 0x0ff; 0x3f5; 0x2fc;
    0xdfc; 0xcf5; 0xfff; 0xef6; 0x9fa; 0x8f3; 0xbf9; 0xaf0;
    0x650; 0x759; 0x453; 0x55a; 0x256; 0x35f; 0x055; 0x15c;
    0xe5c; 0xf55; 0xc5f; 0xd56; 0xa5a; 0xb53; 0x859; 0x950;
    0x7c0; 0x6c9; 0x5c3; 0x4ca; 0x3c6; 0x2cf; 0x1c5; 0x0cc;
    0xfcc; 0xec5; 0xdcf; 0xcc6; 0xbca; 0xac3; 0x9c9; 0x8c0;
    0x8c0; 0x9c9; 0xac3; 0xbca; 0xcc6; 0xdcf; 0xec5; 0xfcc;
    0x0cc; 0x1c5; 0x2cf; 0x3c6; 0x4ca; 0x5c3; 0x6c9; 0x7c0;
    0x950; 0x859; 0xb53; 0xa5a; 0xd56; 0xc5f; 0xf55; 0xe5c;
    0x15c; 0x055; 0x35f; 0x256; 0x55a; 0x453; 0x759; 0x650;
    0xaf0; 0xbf9; 0x8f3; 0x9fa; 0xef6; 0xfff; 0xcf5; 0xdfc;
    0x2fc; 0x3f5; 0x0ff; 0x1f6; 0x6fa; 0x7f3; 0x4f9; 0x5f0;
    0xb60; 0xa69; 0x963; 0x86a; 0xf66; 0xe6f; 0xd65; 0xc6c;
    0x36c; 0x265; 0x16f; 0x066; 0x76a; 0x663; 0x569; 0x460;
    0xca0; 0xda9; 0xea3; 0xfaa; 0x8a6; 0x9af; 0xaa5; 0xbac;
    0x4ac; 0x5a5; 0x6af; 0x7a6; 0x0aa; 0x1a3; 0x2a9; 0x3a0;
    0xd30; 0xc39; 0xf33; 0xe3a; 0x936; 0x83f; 0xb35; 0xa3c;
    0x53c; 0x435; 0x73f; 0x636; 0x13a; 0x033; 0x339; 0x230;
    0xe90; 0xf99; 0xc93; 0xd9a; 0xa96; 0xb9f; 0x895; 0x99c;
    0x69c; 0x795; 0x49f; 0x596; 0x29a; 0x393; 0x099; 0x190;
    0xf00; 0xe09; 0xd03; 0xc0a; 0xb06; 0xa0f; 0x905; 0x80c;
    0x70c; 0x605; 0x50f; 0x406; 0x30a; 0x203; 0x109; 0x000 ].

(** Modelled from the spec: [a2iTriangleConnectionTable], declared in the
    header, is the triangle table of the reference: up to five triangles a
    row, three edge indices each, the rest of the row filled with -1. *)
Definition a2iTriangleConnectionTable_rows : list (list Z) :=
  [ [-1; -1; -1; -1; -1; -1; -1; -1; -1; -1; -1; -1; -1; -1; -1; -1];
    [0; 8; 3; -1; -1; -1; -1; -1; -1; -1; -1; -1; -1; -1; -1; -1];
    [0; 1; 9; -1; -1; -1; -1; -1; -1; -1; -1; -1; -1; -1; -1; -1];
    [1; 8; 3; 9; 8; 1; -1; -1; -1; -1; -1; -1; -1; -1; -1; -1];
    [1; 2; 10; -1; -1; -1; -1; -1; -1; -1; -1; -1; -1; -1; -1; -1];
    [0; 8; 3; 1; 2; 10; -1; -1; -1; -1; -1; -1; -1; -1; -1; -1];
    [9; 2; 10; 0; 2; 9; -1; -1; -1; -1; -1; -1; -1; -1; -1; -1];
    [2; 8; 3; 2; 10; 8; 10; 9; 8; -1; -1; -1; -1; -1; -1; -1];
    [3; 11; 2; -1; -1; -1; -1; -1; -1; -1; -1; -1; -1; -1; -1; -1];
    [0; 11; 2; 8; 11; 0; -1; -1; -1; -1; -1; -1; -1; -1; -1; -1];
    [1; 9; 0; 2; 3; 11; -1; -1; -1; -1; -1; -1; -1; -1; -1; -1];
    [1; 11; 2; 1; 9; 11; 9; 8; 11; -1; -1; -1; -1; -1; -1; -1];
    [3; 10; 1; 11; 10; 3; -1; -1; -1; -1; -1; -1; -1; -1; -1; -1];
    [0; 10; 1; 0; 8; 10; 8; 11; 10; -1; -1; -1; -1; -1; -1; -1];
    [3; 9; 0; 3; 11; 9; 11; 10; 9; -1; -1; -1; -1; -1; -1; -1];
    [9; 8; 10; 10; 8; 11; -1; -1; -1; -1; -1; -1; -1; -1; -1; -1];
    [4; 7; 8; -1; -1; -1; -1; -1; -1; -1; -1; -1; -1; -1; -1; -1];
    [4; 3; 0; 7; 3; 4; -1; -1; -1; -1; -1; -1; -1; -1; -1; -1];
    [0; 1; 9; 8; 4; 7; -1; -1; -1; -1; -1; -1; -1; -1; -1; -1];
    [4; 1; 9; 4; 7; 1; 7; 3; 1; -1; -1; -1; -1; -1; -1; -1];
    [1; 2; 10; 8; 4; 7; -1; -1; -1; -1; -1; -1; -1; -1; -1; -1];
    [3; 4; 7; 3; 0; 4; 1; 2; 10; -1; -1; -1; -1; -1; -1; -1];
    [9; 2; 10; 9; 0; 2; 8; 4; 7; -1; -1; -1; -1; -1; -1; -1];
    [2; 10; 9; 2; 9; 7; 2; 7; 3; 7; 9; 4; -1; -1; -1; -1];
    [8; 4; 7; 3; 11; 2; -1; -1; -1; -1; -1; -1; -1; -1; -1; -1];
    [11; 4; 7; 11; 2; 4; 2; 0; 4; -1; -1; -1; -1; -1; -1; -1];
    [9; 0; 1; 8; 4; 7; 2; 3; 11; -1; -1; -1; -1; -1; -1; -1];
    [4; 7; 11; 9; 4; 11; 9; 11; 2; 9; 2; 1; -1; -1; -1; -1];
    [3; 10; 1; 3; 11; 10; 7; 8; 4; -1; -1; -1; -1; -1; -1; -1];
    [1; 11; 10; 1; 4; 11; 1; 0; 4; 7; 11; 4; -1; -1; -1; -1];
    [4; 7; 8; 9; 0; 11; 9; 11; 10; 11; 0; 3; -1; -1; -1; -1];
    [4; 7; 11; 4; 11; 9; 9; 11; 10; -1; -1; -1; -1; -1; -1; -1];
    [9; 5; 4; -1; -1; -1; -1; -1; -1; -1; -1; -1; -1; -1; -1; -1];
    [9; 5; 4; 0; 8; 3; -1; -1; -1; -1; -1; -1; -1; -1; -1; -1];
    [0; 5; 4; 1; 5; 0; -1; -1; -1; -1; -1; -1; -1; -1; -1; -1];
    [8; 5; 4; 8; 3; 5; 3; 1; 5; -1; -1; -1; -1; -1; -1; -1];
    [1; 2; 10; 9; 5; 4; -1; -1; -1; -1; -1; -1; -1; -1; -1; -1];
    [3; 0; 8; 1; 2; 10; 4; 9; 5; -1; -1; -1; -1; -1; -1; -1];
    [5; 2; 10; 5; 4; 2; 4; 0; 2; -1; -1; -1; -1; -1; -1; -1];
    [2; 10; 5; 3; 2; 5; 3; 5; 4; 3; 4; 8; -1; -1; -1; -1];
    [9; 5; 4; 2; 3; 11; -1; -1; -1; -1; -1; -1; -1; -1; -1; -1];
    [0; 11; 2; 0; 8; 11; 4; 9; 5; -1; -1; -1; -1; -1; -1; -1];
    [0; 5; 4; 0; 1; 5; 2; 3; 11; -1; -1; -1; -1; -1; -1; -1];
    [2; 1; 5; 2; 5; 8; 2; 8; 11; 4; 8; 5; -1; -1; -1; -1];
    [10; 3; 11; 10; 1; 3; 9; 5; 4; -1; -1; -1; -1; -1; -1; -1];
    [4; 9; 5; 0; 8; 1; 8; 10; 1; 8; 11; 10; -1; -1; -1; -1];
    [5; 4; 0; 5; 0; 11; 5; 11; 10; 11; 0; 3; -1; -1; -1; -1];
    [5; 4; 8; 5; 8; 10; 10; 8; 11; -1; -1; -1; -1; -1; -1; -1];
    [9; 7; 8; 5; 7; 9; -1; -1; -1; -1; -1; -1; -1; -1; -1; -1];
    [9; 3; 0; 9; 5; 3; 5; 7; 3; -1; -1; -1; -1; -1; -1; -1];
    [0; 7; 8; 0; 1; 7; 1; 5; 7; -1; -1; -1; -1; -1; -1; -1];
    [1; 5; 3; 3; 5; 7; -1; -1; -1; -1; -1; -1; -1; -1; -1; -1];
    [9; 7; 8; 9; 5; 7; 10; 1; 2; -1; -1; -1; -1; -1; -1; -1];
    [10; 1; 2; 9; 5; 0; 5; 3; 0; 5; 7; 3; -1; -1; -1; -1];
    [8; 0; 2; 8; 2; 5; 8; 5; 7; 10; 5; 2; -1; -1; -1; -1];
    [2; 10; 5; 2; 5; 3; 3; 5; 7; -1; -1; -1; -1; -1; -1; -1];
    [7; 9; 5; 7; 8; 9; 3; 11; 2; -1; -1; -1; -1; -1; -1; -1];
    [9; 5; 7; 9; 7; 2; 9; 2; 0; 2; 7; 11; -1; -1; -1; -1];
    [2; 3; 11; 0; 1; 8; 1; 7; 8; 1; 5; 7; -1; -1; -1; -1];
    [11; 2; 1; 11; 1; 7; 7; 1; 5; -1; -1; -1; -1; -1; -1; -1];
    [9; 5; 8; 8; 5; 7; 10; 1; 3; 10; 3; 11; -1; -1; -1; -1];
    [5; 7; 0; 5; 0; 9; 7; 11; 0; 1; 0; 10; 11; 10; 0; -1];
    [11; 10; 0; 11; 0; 3; 10; 5; 0; 8; 0; 7; 5; 7; 0; -1];
    [11; 10; 5; 7; 11; 5; -1; -1; -1; -1; -1; -1; -1; -1; -1; -1];
    [10; 6; 5; -1; -1; -1; -1; -1; -1; -1; -1; -1; -1; -1; -1; -1];
    [0; 8; 3; 5; 10; 6; -1; -1; -1; -1; -1; -1; -1; -1; -1; -1];
    [9; 0; 1; 5; 10; 6; -1; -1; -1; -1; -1; -1; -1; -1; -1; -1];
    [1; 8; 3; 1; 9; 8; 5; 10; 6; -1; -1; -1; -1; -1; -1; -1];
    [1; 6; 5; 2; 6; 1; -1; -1; -1; -1; -1; -1; -1; -1; -1; -1];
    [1; 6; 5; 1; 2; 6; 3; 0; 8; -1; -1; -1; -1; -1; -1; -1];
    [9; 6; 5; 9; 0; 6; 0; 2; 6; -1; -1; -1; -1; -1; -1; -1];
    [5; 9; 8; 5; 8; 2; 5; 2; 6; 3; 2; 8; -1; -1; -1; -1];
    [2; 3; 11; 10; 6; 5; -1; -1; -1; -1; -1; -1; -1; -1; -1; -1];
    [11; 0; 8; 11; 2; 0; 10; 6; 5; -1; -1; -1; -1; -1; -1; -1];
    [0; 1; 9; 2; 3; 11; 5; 10; 6; -1; -1; -1; -1; -1; -1; -1];
    [5; 10; 6; 1; 9; 2; 9; 11; 2; 9; 8; 11; -1; -1; -1; -1];
    [6; 3; 11; 6; 5; 3; 5; 1; 3; -1; -1; -1; -1; -1; -1; -1];
    [0; 8; 11; 0; 11; 5; 0; 5; 1; 5; 11; 6; -1; -1; -1; -1];
    [3; 11; 6; 0; 3; 6; 0; 6; 5; 0; 5; 9; -1; -1; -1; -1];
    [6; 5; 9; 6; 9; 11; 11; 9; 8; -1; -1; -1; -1; -1; -1; -1];
    [5; 10; 6; 4; 7; 8; -1; -1; -1; -1; -1; -1; -1; -1; -1; -1];
    [4; 3; 0; 4; 7; 3; 6; 5; 10; -1; -1; -1; -1; -1; -1; -1];
    [1; 9; 0; 5; 10; 6; 8; 4; 7; -1; -1; -1; -1; -1; -1; -1];
    [10; 6; 5; 1; 9; 7; 1; 7; 3; 7; 9; 4; -1; -1; -1; -1];
    [6; 1; 2; 6; 5; 1; 4; 7; 8; -1; -1; -1; -1; -1; -1; -1];
    [1; 2; 5; 5; 2; 6; 3; 0; 4; 3; 4; 7; -1; -1; -1; -1];
    [8; 4; 7; 9; 0; 5; 0; 6; 5; 0; 2; 6; -1; -1; -1; -1];
    [7; 3; 9; 7; 9; 4; 3; 2; 9; 5; 9; 6; 2; 6; 9; -1];
    [3; 11; 2; 7; 8; 4; 10; 6; 5; -1; -1; -1; -1; -1; -1; -1];
    [5; 10; 6; 4; 7; 2; 4; 2; 0; 2; 7; 11; -1; -1; -1; -1];
    [0; 1; 9; 4; 7; 8; 2; 3; 11; 5; 10; 6; -1; -1; -1; -1];
    [9; 2; 1; 9; 11; 2; 9; 4; 11; 7; 11; 4; 5; 10; 6; -1];
    [8; 4; 7; 3; 11; 5; 3; 5; 1; 5; 11; 6; -1; -1; -1; -1];
    [5; 1; 11; 5; 11; 6; 1; 0; 11; 7; 11; 4; 0; 4; 11; -1];
    [0; 5; 9; 0; 6; 5; 0; 3; 6; 11; 6; 3; 8; 4; 7; -1];
    [6; 5; 9; 6; 9; 11; 4; 7; 9; 7; 11; 9; -1; -1; -1; -1];
    [10; 4; 9; 6; 4; 10; -1; -1; -1; -1; -1; -1; -1; -1; -1; -1];
    [4; 10; 6; 4; 9; 10; 0; 8; 3; -1; -1; -1; -1; -1; -1; -1];
    [10; 0; 1; 10; 6; 0; 6; 4; 0; -1; -1; -1; -1; -1; -1; -1];
    [8; 3; 1; 8; 1; 6; 8; 6; 4; 6; 1; 10; -1; -1; -1; -1];
    [1; 4; 9; 1; 2; 4; 2; 6; 4; -1; -1; -1; -1; -1; -1; -1];
    [3; 0; 8; 1; 2; 9; 2; 4; 9; 2; 6; 4; -1; -1; -1; -1];
    [0; 2; 4; 4; 2; 6; -1; -1; -1; -1; -1; -1; -1; -1; -1; -1];
    [8; 3; 2; 8; 2; 4; 4; 2; 6; -1; -1; -1; -1; -1; -1; -1];
    [10; 4; 9; 10; 6; 4; 11; 2; 3; -1; -1; -1; -1; -1; -1; -1];
    [0; 8; 2; 2; 8; 11; 4; 9; 10; 4; 10; 6; -1; -1; -1; -1];
    [3; 11; 2; 0; 1; 6; 0; 6; 4; 6; 1; 10; -1; -1; -1; -1];
    [6; 4; 1; 6; 1; 10; 4; 8; 1; 2; 1; 11; 8; 11; 1; -1];
    [9; 6; 4; 9; 3; 6; 9; 1; 3; 11; 6; 3; -1; -1; -1; -1];
    [8; 11; 1; 8; 1; 0; 11; 6; 1; 9; 1; 4; 6; 4; 1; -1];
    [3; 11; 6; 3; 6; 0; 0; 6; 4; -1; -1; -1; -1; -1; -1; -1];
    [6; 4; 8; 11; 6; 8; -1; -1; -1; -1; -1; -1; -1; -1; -1; -1];
    [7; 10; 6; 7; 8; 10; 8; 9; 10; -1; -1; -1; -1; -1; -1; -1];
    [0; 7; 3; 0; 10; 7; 0; 9; 10; 6; 7; 10; -1; -1; -1; -1];
    [10; 6; 7; 1; 10; 7; 1; 7; 8; 1; 8; 0; -1; -1; -1; -1];
    [10; 6; 7; 10; 7; 1; 1; 7; 3; -1; -1; -1; -1; -1; -1; -1];
    [1; 2; 6; 1; 6; 8; 1; 8; 9; 8; 6; 7; -1; -1; -1; -1];
    [2; 6; 9; 2; 9; 1; 6; 7; 9; 0; 9; 3; 7; 3; 9; -1];
    [7; 8; 0; 7; 0; 6; 6; 0; 2; -1; -1; -1; -1; -1; -1; -1];
    [7; 3; 2; 6; 7; 2; -1; -1; -1; -1; -1; -1; -1; -1; -1; -1];
    [2; 3; 11; 10; 6; 8; 10; 8; 9; 8; 6; 7; -1; -1; -1; -1];
    [2; 0; 7; 2; 7; 11; 0; 9; 7; 6; 7; 10; 9; 10; 7; -1];
    [1; 8; 0; 1; 7; 8; 1; 10; 7; 6; 7; 10; 2; 3; 11; -1];
    [11; 2; 1; 11; 1; 7; 10; 6; 1; 6; 7; 1; -1; -1; -1; -1];
    [8; 9; 6; 8; 6; 7; 9; 1; 6; 11; 6; 3; 1; 3; 6; -1];
    [0; 9; 1; 11; 6; 7; -1; -1; -1; -1; -1; -1; -1; -1; -1; -1];
    [7; 8; 0; 7; 0; 6; 3; 11; 0; 11; 6; 0; -1; -1; -1; -1];
    [7; 11; 6; -1; -1; -1; -1; -1; -1; -1; -1; -1; -1; -1; -1; -1];
    [7; 6; 11; -1; -1; -1; -1; -1; -1; -1; -1; -1; -1; -1; -1; -1];
    [3; 0; 8; 11; 7; 6; -1; -1; -1; -1; -1; -1; -1; -1; -1; -1];
    [0; 1; 9; 11; 7; 6; -1; -1; -1; -1; -1; -1; -1; -1; -1; -1];
    [8; 1; 9; 8; 3; 1; 11; 7; 6; -1; -1; -1; -1; -1; -1; -1];
    [10; 1; 2; 6; 11; 7; -1; -1; -1; -1; -1; -1; -1; -1; -1; -1];
    [1; 2; 10; 3; 0; 8; 6; 11; 7; -1; -1; -1; -1; -1; -1; -1];
    [2; 9; 0; 2; 10; 9; 6; 11; 7; -1; -1; -1; -1; -1; -1; -1];
    [6; 11; 7; 2; 10; 3; 10; 8; 3; 10; 9; 8; -1; -1; -1; -1];
    [7; 2; 3; 6; 2; 7; -1; -1; -1; -1; -1; -1; -1; -1; -1; -1];
    [7; 0; 8; 7; 6; 0; 6; 2; 0; -1; -1; -1; -1; -1; -1; -1];
    [2; 7; 6; 2; 3; 7; 0; 1; 9; -1; -1; -1; -1; -1; -1; -1];
    [1; 6; 2; 1; 8; 6; 1; 9; 8; 8; 7; 6; -1; -1; -1; -1];
    [10; 7; 6; 10; 1; 7; 1; 3; 7; -1; -1; -1; -1; -1; -1; -1];
    [10; 7; 6; 1; 7; 10; 1; 8; 7; 1; 0; 8; -1; -1; -1; -1];
    [0; 3; 7; 0; 7; 10; 0; 10; 9; 6; 10; 7; -1; -1; -1; -1];
    [7; 6; 10; 7; 10; 8; 8; 10; 9; -1; -1; -1; -1; -1; -1; -1];
    [6; 8; 4; 11; 8; 6; -1; -1; -1; -1; -1; -1; -1; -1; -1; -1];
    [3; 6; 11; 3; 0; 6; 0; 4; 6; -1; -1; -1; -1; -1; -1; -1];
    [8; 6; 11; 8; 4; 6; 9; 0; 1; -1; -1; -1; -1; -1; -1; -1];
    [9; 4; 6; 9; 6; 3; 9; 3; 1; 11; 3; 6; -1; -1; -1; -1];
    [6; 8; 4; 6; 11; 8; 2; 10; 1; -1; -1; -1; -1; -1; -1; -1];
    [1; 2; 10; 3; 0; 11; 0; 6; 11; 0; 4; 6; -1; -1; -1; -1];
    [4; 11; 8; 4; 6; 11; 0; 2; 9; 2; 10; 9; -1; -1; -1; -1];
    [10; 9; 3; 10; 3; 2; 9; 4; 3; 11; 3; 6; 4; 6; 3; -1];
    [8; 2; 3; 8; 4; 2; 4; 6; 2; -1; -1; -1; -1; -1; -1; -1];
    [0; 4; 2; 4; 6; 2; -1; -1; -1; -1; -1; -1; -1; -1; -1; -1];
    [1; 9; 0; 2; 3; 4; 2; 4; 6; 4; 3; 8; -1; -1; -1; -1];
    [1; 9; 4; 1; 4; 2; 2; 4; 6; -1; -1; -1; -1; -1; -1; -1];
    [8; 1; 3; 8; 6; 1; 8; 4; 6; 6; 10; 1; -1; -1; -1; -1];
    [10; 1; 0; 10; 0; 6; 6; 0; 4; -1; -1; -1; -1; -1; -1; -1];
    [4; 6; 3; 4; 3; 8; 6; 10; 3; 0; 3; 9; 10; 9; 3; -1];
    [10; 9; 4; 6; 10; 4; -1; -1; -1; -1; -1; -1; -1; -1; -1; -1];
    [4; 9; 5; 7; 6; 11; -1; -1; -1; -1; -1; -1; -1; -1; -1; -1];
    [0; 8; 3; 4; 9; 5; 11; 7; 6; -1; -1; -1; -1; -1; -1; -1];
    [5; 0; 1; 5; 4; 0; 7; 6; 11; -1; -1; -1; -1; -1; -1; -1];
    [11; 7; 6; 8; 3; 4; 3; 5; 4; 3; 1; 5; -1; -1; -1; -1];
    [9; 5; 4; 10; 1; 2; 7; 6; 11; -1; -1; -1; -1; -1; -1; -1];
    [6; 11; 7; 1; 2; 10; 0; 8; 3; 4; 9; 5; -1; -1; -1; -1];
    [7; 6; 11; 5; 4; 10; 4; 2; 10; 4; 0; 2; -1; -1; -1; -1];
    [3; 4; 8; 3; 5; 4; 3; 2; 5; 10; 5; 2; 11; 7; 6; -1];
    [7; 2; 3; 7; 6; 2; 5; 4; 9; -1; -1; -1; -1; -1; -1; -1];
    [9; 5; 4; 0; 8; 6; 0; 6; 2; 6; 8; 7; -1; -1; -1; -1];
    [3; 6; 2; 3; 7; 6; 1; 5; 0; 5; 4; 0; -1; -1; -1; -1];
    [6; 2; 8; 6; 8; 7; 2; 1; 8; 4; 8; 5; 1; 5; 8; -1];
    [9; 5; 4; 10; 1; 6; 1; 7; 6; 1; 3; 7; -1; -1; -1; -1];
    [1; 6; 10; 1; 7; 6; 1; 0; 7; 8; 7; 0; 9; 5; 4; -1];
    [4; 0; 10; 4; 10; 5; 0; 3; 10; 6; 10; 7; 3; 7; 10; -1];
    [7; 6; 10; 7; 10; 8; 5; 4; 10; 4; 8; 10; -1; -1; -1; -1];
    [6; 9; 5; 6; 11; 9; 11; 8; 9; -1; -1; -1; -1; -1; -1; -1];
    [3; 6; 11; 0; 6; 3; 0; 5; 6; 0; 9; 5; -1; -1; -1; -1];
    [0; 11; 8; 0; 5; 11; 0; 1; 5; 5; 6; 11; -1; -1; -1; -1];
    [6; 11; 3; 6; 3; 5; 5; 3; 1; -1; -1; -1; -1; -1; -1; -1];
    [1; 2; 10; 9; 5; 11; 9; 11; 8; 11; 5; 6; -1; -1; -1; -1];
    [0; 11; 3; 0; 6; 11; 0; 9; 6; 5; 6; 9; 1; 2; 10; -1];
    [11; 8; 5; 11; 5; 6; 8; 0; 5; 10; 5; 2; 0; 2; 5; -1];
    [6; 11; 3; 6; 3; 5; 2; 10; 3; 10; 5; 3; -1; -1; -1; -1];
    [5; 8; 9; 5; 2; 8; 5; 6; 2; 3; 8; 2; -1; -1; -1; -1];
    [9; 5; 6; 9; 6; 0; 0; 6; 2; -1; -1; -1; -1; -1; -1; -1];
    [1; 5; 8; 1; 8; 0; 5; 6; 8; 3; 8; 2; 6; 2; 8; -1];
    [1; 5; 6; 2; 1; 6; -1; -1; -1; -1; -1; -1; -1; -1; -1; -1];
    [1; 3; 6; 1; 6; 10; 3; 8; 6; 5; 6; 9; 8; 9; 6; -1];
    [10; 1; 0; 10; 0; 6; 9; 5; 0; 5; 6; 0; -1; -1; -1; -1];
    [0; 3; 8; 5; 6; 10; -1; -1; -1; -1; -1; -1; -1; -1; -1; -1];
    [10; 5; 6; -1; -1; -1; -1; -1; -1; -1; -1; -1; -1; -1; -1; -1];
    [11; 5; 10; 7; 5; 11; -1; -1; -1; -1; -1; -1; -1; -1; -1; -1];
    [11; 5; 10; 11; 7; 5; 8; 3; 0; -1; -1; -1; -1; -1; -1; -1];
    [5; 11; 7; 5; 10; 11; 1; 9; 0; -1; -1; -1; -1; -1; -1; -1];
    [10; 7; 5; 10; 11; 7; 9; 8; 1; 8; 3; 1; -1; -1; -1; -1];
    [11; 1; 2; 11; 7; 1; 7; 5; 1; -1; -1; -1; -1; -1; -1; -1];
    [0; 8; 3; 1; 2; 7; 1; 7; 5; 7; 2; 11; -1; -1; -1; -1];
    [9; 7; 5; 9; 2; 7; 9; 0; 2; 2; 11; 7; -1; -1; -1; -1];
    [7; 5; 2; 7; 2; 11; 5; 9; 2; 3; 2; 8; 9; 8; 2; -1];
    [2; 5; 10; 2; 3; 5; 3; 7; 5; -1; -1; -1; -1; -1; -1; -1];
    [8; 2; 0; 8; 5; 2; 8; 7; 5; 10; 2; 5; -1; -1; -1; -1];
    [9; 0; 1; 5; 10; 3; 5; 3; 7; 3; 10; 2; -1; -1; -1; -1];
    [9; 8; 2; 9; 2; 1; 8; 7; 2; 10; 2; 5; 7; 5; 2; -1];
    [1; 3; 5; 3; 7; 5; -1; -1; -1; -1; -1; -1; -1; -1; -1; -1];
    [0; 8; 7; 0; 7; 1; 1; 7; 5; -1; -1; -1; -1; -1; -1; -1];
    [9; 0; 3; 9; 3; 5; 5; 3; 7; -1; -1; -1; -1; -1; -1; -1];
    [9; 8; 7; 5; 9; 7; -1; -1; -1; -1; -1; -1; -1; -1; -1; -1];
    [5; 8; 4; 5; 10; 8; 10; 11; 8; -1; -1; -1; -1; -1; -1; -1];
    [5; 0; 4; 5; 11; 0; 5; 10; 11; 11; 3; 0; -1; -1; -1; -1];
    [0; 1; 9; 8; 4; 10; 8; 10; 11; 10; 4; 5; -1; -1; -1; -1];
    [10; 11; 4; 10; 4; 5; 11; 3; 4; 9; 4; 1; 3; 1; 4; -1];
    [2; 5; 1; 2; 8; 5; 2; 11; 8; 4; 5; 8; -1; -1; -1; -1];
    [0; 4; 11; 0; 11; 3; 4; 5; 11; 2; 11; 1; 5; 1; 11; -1];
    [0; 2; 5; 0; 5; 9; 2; 11; 5; 4; 5; 8; 11; 8; 5; -1];
    [9; 4; 5; 2; 11; 3; -1; -1; -1; -1; -1; -1; -1; -1; -1; -1];
    [2; 5; 10; 3; 5; 2; 3; 4; 5; 3; 8; 4; -1; -1; -1; -1];
    [5; 10; 2; 5; 2; 4; 4; 2; 0; -1; -1; -1; -1; -1; -1; -1];
    [3; 10; 2; 3; 5; 10; 3; 8; 5; 4; 5; 8; 0; 1; 9; -1];
    [5; 10; 2; 5; 2; 4; 1; 9; 2; 9; 4; 2; -1; -1; -1; -1];
    [8; 4; 5; 8; 5; 3; 3; 5; 1; -1; -1; -1; -1; -1; -1; -1];
    [0; 4; 5; 1; 0; 5; -1; -1; -1; -1; -1; -1; -1; -1; -1; -1];
    [8; 4; 5; 8; 5; 3; 9; 0; 5; 0; 3; 5; -1; -1; -1; -1];
    [9; 4; 5; -1; -1; -1; -1; -1; -1; -1; -1; -1; -1; -1; -1; -1];
    [4; 11; 7; 4; 9; 11; 9; 10; 11; -1; -1; -1; -1; -1; -1; -1];
    [0; 8; 3; 4; 9; 7; 9; 11; 7; 9; 10; 11; -1; -1; -1; -1];
    [1; 10; 11; 1; 11; 4; 1; 4; 0; 7; 4; 11; -1; -1; -1; -1];
    [3; 1; 4; 3; 4; 8; 1; 10; 4; 7; 4; 11; 10; 11; 4; -1];
    [4; 11; 7; 9; 11; 4; 9; 2; 11; 9; 1; 2; -1; -1; -1; -1];
    [9; 7; 4; 9; 11; 7; 9; 1; 11; 2; 11; 1; 0; 8; 3; -1];
    [11; 7; 4; 11; 4; 2; 2; 4; 0; -1; -1; -1; -1; -1; -1; -1];
    [11; 7; 4; 11; 4; 2; 8; 3; 4; 3; 2; 4; -1; -1; -1; -1];
    [2; 9; 10; 2; 7; 9; 2; 3; 7; 7; 4; 9; -1; -1; -1; -1];
    [9; 10; 7; 9; 7; 4; 10; 2; 7; 8; 7; 0; 2; 0; 7; -1];
    [3; 7; 10; 3; 10; 2; 7; 4; 10; 1; 10; 0; 4; 0; 10; -1];
    [1; 10; 2; 8; 7; 4; -1; -1; -1; -1; -1; -1; -1; -1; -1; -1];
    [4; 9; 1; 4; 1; 7; 7; 1; 3; -1; -1; -1; -1; -1; -1; -1];
    [4; 9; 1; 4; 1; 7; 0; 8; 1; 8; 7; 1; -1; -1; -1; -1];
    [4; 0; 3; 7; 4; 3; -1; -1; -1; -1; -1; -1; -1; -1; -1; -1];
    [4; 8; 7; -1; -1; -1; -1; -1; -1; -1; -1; -1; -1; -1; -1; -1];
    [9; 10; 8; 10; 11; 8; -1; -1; -1; -1; -1; -1; -1; -1; -1; -1];
    [3; 0; 9; 3; 9; 11; 11; 9; 10; -1; -1; -1; -1; -1; -1; -1];
    [0; 1; 10; 0; 10; 8; 8; 10; 11; -1; -1; -1; -1; -1; -1; -1];
    [3; 1; 10; 11; 3; 10; -1; -1; -1; -1; -1; -1; -1; -1; -1; -1];
    [1; 2; 11; 1; 11; 9; 9; 11; 8; -1; -1; -1; -1; -1; -1; -1];
    [3; 0; 9; 3; 9; 11; 1; 2; 9; 2; 11; 9; -1; -1; -1; -1];
    [0; 2; 11; 8; 0; 11; -1; -1; -1; -1; -1; -1; -1; -1; -1; -1];
    [3; 2; 11; -1; -1; -1; -1; -1; -1; -1; -1; -1; -1; -1; -1; -1];
    [2; 3; 8; 2; 8; 10; 10; 8; 9; -1; -1; -1; -1; -1; -1; -1];
    [9; 10; 2; 0; 9; 2; -1; -1; -1; -1; -1; -1; -1; -1; -1; -1];
    [2; 3; 8; 2; 8; 10; 0; 1; 8; 1; 10; 8; -1; -1; -1; -1];
    [1; 10; 2; -1; -1; -1; -1; -1; -1; -1; -1; -1; -1; -1; -1; -1];
    [1; 3; 8; 9; 1; 8; -1; -1; -1; -1; -1; -1; -1; -1; -1; -1];
    [0; 9; 1; -1; -1; -1; -1; -1; -1; -1; -1; -1; -1; -1; -1; -1];
    [0; 3; 8; -1; -1; -1; -1; -1; -1; -1; -1; -1; -1; -1; -1; -1];
    [-1; -1; -1; -1; -1; -1; -1; -1; -1; -1; -1; -1; -1; -1; -1; -1] ].

Definition entry (t : list Z) (i : Z) : Z := nth (Z.to_nat i) t 0.

Definition entry2 (t : list (list Z)) (i j : Z) : Z :=
  nth (Z.to_nat j) (nth (Z.to_nat i) t []) 0.

End Reference.

(** Modelled from the spec: of [BlendingFunction] the specification names
    the first enumerator, [SPORE], and the last, [NONE]; the instance
    numbers them 0 and 1. *)
#[export] Instance reference_header : Header := {
  NONE := 1;
  cubeOffsets := Reference.entry2 Reference.cubeOffsets_table;
  a2iEdgeConnection := Reference.entry2 Reference.a2iEdgeConnection_table;
  aiCubeEdgeFlags := Reference.entry Reference.aiCubeEdgeFlags_table;
  a2iTriangleConnectionTable := Reference.entry2 Reference.a2iTriangleConnectionTable_rows
}.

(** ** Concrete inputs in binary32 *)

Definition f32 (n : Z) : spec_float := B32.of_int n.

Definition v32 (x y z : Z) : Vector3 := mkVector3 (f32 x) (f32 y) (f32 z).

(** 0.5 *)
Definition half32 : spec_float := B32.div (f32 1) (f32 2).

(** A sphere of radius 1 about the origin. *)
Definition unit_sphere : SkeletonNode := SphereNode (v32 0 0 0) (f32 1).

(** An extractor before its first call. *)
Definition fresh : Isosurface :=
  mkIsosurface [] (f32 0) 0 (f32 0) [] [] [] [] (v32 0 0 0) (v32 0 0 0).

(** An extractor as [calculate] hands it to [generateObject]: the members
    set, the mesh empty, the bounding box of the skeleton in place. *)
Definition boxed (skeleton : list SkeletonNode) (cubeSize targetValue : spec_float)
    : Isosurface :=
  set_extends (mkIsosurface skeleton cubeSize 0 targetValue [] [] [] []
                            (v32 0 0 0) (v32 0 0 0))
              (bounding_box skeleton).

(** A sphere of radius 1/2 about the origin; it lies inside the unit
    sphere. *)
Definition inner_sphere : SkeletonNode := SphereNode (v32 0 0 0) half32.

(** 2^-40, a cube size under which the grid of the unit sphere has more
    cells along an axis than an [int] counts. *)
Definition minute32 : spec_float := S754_finite false 8388608 (-63).

(** 2^-10, a cube size under which the grid of the unit sphere has 2049
    cells along each axis: the amounts are [int]s, the size of the scalar
    field, 2050^3, is not. *)
Definition fine32 : spec_float := S754_finite false 8388608 (-33).

(** 0.99999994, the largest binary32 number below 1. *)
Definition below_one32 : spec_float := S754_finite false 16777215 (-24).

(** A sphere whose box reaches from 0 to 1.99999988 along each axis. *)
Definition tight_sphere : SkeletonNode :=
  SphereNode (mkVector3 below_one32 below_one32 below_one32) below_one32.

(** The cell of the grid of the unit sphere (cube size 1) whose corner 0 is
    the centre of the sphere: the field is 1 there and 0 at the other
    corners, so that under the threshold 0.5 all bits but bit 0 are set. *)
Definition centre_cell : Cell :=
  mkCell [v32 0 0 0; v32 1 0 0; v32 1 1 0; v32 0 1 0;
          v32 0 0 1; v32 1 0 1; v32 1 1 1; v32 0 1 1]
         [f32 1; f32 0; f32 0; f32 0; f32 0; f32 0; f32 0; f32 0]
         254.

(** * The extractor on concrete inputs *)

(** Every entry of the triangle table is an edge index or the sentinel. *)
Lemma entry2_lower_bound (t : list (list Z)) (i j : Z) :
  forallb (forallb (fun v => -1 <=? v)) t = true -> -1 <= Reference.entry2 t i j.
Proof.
  intros H. unfold Reference.entry2.
  rewrite forallb_forall in H.
  destruct (nth_in_or_default (Z.to_nat i) t []) as [Hin | Hd].
  - specialize (H _ Hin). rewrite forallb_forall in H.
    destruct (nth_in_or_default (Z.to_nat j) (nth (Z.to_nat i) t []) 0) as [Hin' | Hd'].
    + apply Z.leb_le. apply H. exact Hin'.
    + rewrite Hd'. lia.
  - rewrite Hd. destruct (Z.to_nat j); simpl; lia.
Qed.

Lemma reference_rows_end_in_sentinel (flag k : Z) :
  a2iTriangleConnectionTable flag k < 0 -> a2iTriangleConnectionTable flag k = -1.
Proof.
  intros H.
  pose proof (entry2_lower_bound Reference.a2iTriangleConnectionTable_rows flag k
                ltac:(vm_compute; reflexivity)) as Hlow.
  unfold a2iTriangleConnectionTable, reference_header in *. lia.
Qed.

(** The order of binary32 is irreflexive and transitive, not-a-number and
    the infinities included. *)
Lemma binary32_compare_refl (a : spec_float) :
  SFcompare a a = Some Eq \/ SFcompare a a = None.
Proof.
  destruct a as [s|s| |s m e]; cbn [SFcompare]; auto.
  - destruct s; auto.
  - left. f_equal. change PosDef.Pos.compare_cont with Pos.compare_cont.
    destruct s; rewrite Z.compare_refl; fold (Pos.compare m m);
      rewrite Pos.compare_refl; reflexivity.
Qed.

Lemma binary32_lt_irrefl (a : spec_float) : SFltb a a = false.
Proof.
  unfold SFltb. destruct (binary32_compare_refl a) as [H|H]; rewrite H; reflexivity.
Qed.

Lemma binary32_lt_trans (a b c : spec_float) :
  SFltb a b = true -> SFltb b c = true -> SFltb a c = true.
Proof.
  unfold SFltb.
  destruct a as [sa|sa| |sa ma ea], b as [sb|sb| |sb mb eb], c as [sc|sc| |sc mc ec];
    cbn [SFcompare]; try discriminate; try (intros; reflexivity);
    try (destruct sa; try discriminate; try (intros; reflexivity));
    try (destruct sb; try discriminate; try (intros; reflexivity));
    try (destruct sc; try discriminate; try (intros; reflexivity)).
  all: change PosDef.Pos.compare_cont with Pos.compare_cont;
       fold (Pos.compare ma mb); fold (Pos.compare mb mc); fold (Pos.compare ma mc);
       destruct (Z.compare_spec ea eb), (Z.compare_spec eb ec), (Z.compare_spec ea ec);
       subst; try lia; try discriminate; try (intros; reflexivity);
       destruct (Pos.compare_spec ma mb), (Pos.compare_spec mb mc), (Pos.compare_spec ma mc);
       subst; cbn [CompOpp]; try lia; try discriminate; try (intros; reflexivity).
Qed.

(** C1: [IsoValue] is to sum the kernel over all nodes of the skeleton. On
    two unit spheres about the origin, sampled at the origin, the code
    returns 1, the contribution of the first node alone, where the sum over
    both nodes is 2. *)
Theorem IsoValue_stops_after_first_node :
  IsoValue [unit_sphere; unit_sphere] (v32 0 0 0) = f32 1
  /\ IsoValue_spec [unit_sphere; unit_sphere] (v32 0 0 0) = f32 2.
Proof. split; vm_compute; reflexivity. Qed.

(** C2: [getNormal] is to normalise the negated central differences of the
    field. For the unit sphere, step 1 and the vertex (0, 0, 1) the code
    samples (0, 1, 0) where the difference along z needs (0, 0, 0); it
    returns the zero vector where the central differences give (0, 0, 1). *)
Theorem getNormal_samples_wrong_point :
  getNormal [unit_sphere] (f32 1) (v32 0 0 1) = v32 0 0 0
  /\ getNormal_spec [unit_sphere] (f32 1) (v32 0 0 1) = v32 0 0 1.
Proof. split; vm_compute; reflexivity. Qed.

(** C3: after [calculate] on the unit sphere (cube size 1, threshold 0.5)
    and an [update] with the same skeleton, the vertex and normal arrays are
    empty while the triangle array holds the eight triangles of the first
    call and eight more, all of them indexing vertices 0 to 5: the invariant
    of the mesh is broken. *)
Theorem update_leaves_dangling_indices :
  let calls := [Calculate [unit_sphere] (f32 1) 0 half32; Update [unit_sphere]] in
  let octahedron :=
    [mkIndexedTriangle 0 1 2; mkIndexedTriangle 1 0 3; mkIndexedTriangle 0 2 4;
     mkIndexedTriangle 3 0 4; mkIndexedTriangle 1 5 2; mkIndexedTriangle 1 3 5;
     mkIndexedTriangle 2 5 4; mkIndexedTriangle 3 4 5] in
  mesh_of (run calls fresh) = Some ([], [], octahedron ++ octahedron)
  /\ (forall s, run calls fresh = Ok s -> ~ mesh_invariant s).
Proof.
  intros calls octahedron.
  assert (E : mesh_of (run calls fresh) = Some ([], [], octahedron ++ octahedron))
    by (vm_compute; reflexivity).
  split; [exact E|].
  intros s Hs (_ & H & _). rewrite Hs in E. cbn [mesh_of] in E.
  inversion E as [[Hv Hn Ht]]. rewrite Hv, Ht in H.
  apply Forall_inv in H. destruct H as (_ & H & _). simpl in H. lia.
Qed.

(** C6: after [calculate] on the unit sphere (cube size 1, threshold 0.5),
    an [update] with the empty skeleton returns with no vertices and no
    normals but with the eight triangles of the earlier mesh still in
    place. *)
Theorem update_empty_skeleton_keeps_triangles :
  mesh_of (run [Calculate [unit_sphere] (f32 1) 0 half32; Update []] fresh)
  = Some ([], [],
          [mkIndexedTriangle 0 1 2; mkIndexedTriangle 1 0 3; mkIndexedTriangle 0 2 4;
           mkIndexedTriangle 3 0 4; mkIndexedTriangle 1 5 2; mkIndexedTriangle 1 3 5;
           mkIndexedTriangle 2 5 4; mkIndexedTriangle 3 4 5]).
Proof. vm_compute. reflexivity. Qed.

Lemma calculate_flat_box_gives_empty_mesh_witness :
  exists s',
    calculate [unit_sphere] (f32 2) 0 half32 fresh = Ok s'
    /\ mVertices s' = [] /\ mNormals s' = [] /\ mTriangles s' = [].
Proof.
  apply (calculate_flat_box_gives_empty_mesh (RA := binary32) (HD := reference_header)).
  - discriminate.
  - vm_compute. reflexivity.
  - simpl. lia.
  - left. vm_compute. reflexivity.
Defined.

(** C7 (the claim as stated fails): with [blend = NONE], a tag outside
    [0, NONE), and the cube size 1, [calculate] does not stop at an
    assertion. *)
Lemma calculate_accepts_blend_NONE :
  ~ (calculate [unit_sphere] (f32 1) NONE half32 fresh = AssertFail
     <-> (fle (f32 1) (f32 0) = true \/ ~ (0 <= NONE < NONE))).
Proof.
  intros [_ H].
  assert (E : calculate [unit_sphere] (f32 1) NONE half32 fresh = AssertFail)
    by (apply H; right; lia).
  apply (f_equal aborted) in E. vm_compute in E. discriminate.
Qed.

(** C7 (as amended), on runs in binary32 over the unit sphere: the cube
    size 0 stops [calculate] at its first assertion; under the cube size 1
    the grid is representable and the call returns; under the cube size
    2^-10 the configuration is valid, the size of the scalar field is not an
    [int], and the call faults. *)
Lemma calculate_aborts_iff_invalid_witness :
  calculate [unit_sphere] (f32 0) 0 half32 fresh = AssertFail
  /\ (calculate [unit_sphere] (f32 1) 0 half32 fresh <> AssertFail
      /\ exists s', calculate [unit_sphere] (f32 1) 0 half32 fresh = Ok s')
  /\ calculate [unit_sphere] fine32 0 half32 fresh = Fault.
Proof.
  split; [|split].
  - pose proof (calculate_aborts_iff_invalid (RA := binary32) (HD := reference_header)
                  [unit_sphere] (f32 0) 0 half32 fresh) as H.
    cbv zeta in H. destruct H as (H & _ & _). apply H.
    intros [Hcube _]. vm_compute in Hcube. discriminate Hcube.
  - pose proof (calculate_aborts_iff_invalid (RA := binary32) (HD := reference_header)
                  [unit_sphere] (f32 1) 0 half32 fresh) as H.
    cbv zeta in H. destruct H as (_ & H & _).
    destruct H as [H1 H2].
    + split; [vm_compute; reflexivity|simpl; lia].
    + right. right. vm_compute. reflexivity.
    + split; [exact H1|apply H2; vm_compute; reflexivity].
  - pose proof (calculate_aborts_iff_invalid (RA := binary32) (HD := reference_header)
                  [unit_sphere] fine32 0 half32 fresh) as H.
    cbv zeta in H. destruct H as (_ & _ & H). apply H.
    + split; [vm_compute; reflexivity|simpl; lia].
    + discriminate.
    + vm_compute. reflexivity.
    + vm_compute. reflexivity.
Defined.

Lemma scalar_field_sampled_before_march_witness :
  exists scalarField,
    generateObject (boxed [unit_sphere] (f32 1) half32)
    = march (boxed [unit_sphere] (f32 1) half32) scalarField 3 3 3
    /\ Z.of_nat (length scalarField) = 64
    /\ zth scalarField 21 = Some (f32 1).
Proof.
  destruct (scalar_field_sampled_before_march (RA := binary32) (HD := reference_header)
              (boxed [unit_sphere] (f32 1) half32) 3 3 3
              ltac:(vm_compute; reflexivity) ltac:(vm_compute; reflexivity)
              ltac:(vm_compute; reflexivity) ltac:(vm_compute; reflexivity)
              ltac:(vm_compute; reflexivity))
    as (scalarField & Hgen & Hlen & Hval & _).
  exists scalarField. split; [exact Hgen|]. split; [exact Hlen|].
  specialize (Hval 1 1 1 ltac:(lia) ltac:(lia) ltac:(lia)).
  change (1 * (3 + 1) * (3 + 1) + 1 * (3 + 1) + 1) with 21 in Hval.
  rewrite Hval. vm_compute. reflexivity.
Defined.

(** C5 (the claim as stated fails): for a box from 0 to 1.99999988 and the
    cube size 1 the quotient is 1.99999988, so that [floor(q) + 1 = 2],
    while the code adds 1 in binary32 first, which rounds to 3, and marches
    over 3 cells along each axis. *)
Lemma grid_amount_rounds_before_truncation :
  let s := boxed [tight_sphere] (f32 1) half32 in
  box_exceeds_cube s = true
  /\ grid_amounts s = Ok (3, 3, 3)
  /\ option_map (fun floor_q => floor_q + 1)
       (int_of_float (fdiv (fsub (vx (mExtendsTo s)) (vx (mExtendsFrom s))) (mCubeSize s)))
     = Some 2.
Proof. vm_compute. repeat split; reflexivity. Qed.

Lemma Triangulate_meets_spec_witness :
  Triangulate centre_cell = Triangulate_spec centre_cell
  /\ Triangulate centre_cell = Ok [mkTriangle (v32 1 0 0) (v32 0 1 0) (v32 0 0 1)].
Proof.
  split.
  - apply (Triangulate_meets_spec (RA := binary32) (HD := reference_header) centre_cell).
    intros k. apply reference_rows_end_in_sentinel.
  - vm_compute. reflexivity.
Defined.


(** 2^-25 *)
Definition tiny32 : spec_float := S754_finite false 8388608 (-48).


(** The normals do not follow a translation either: the unit sphere moved
    by (0, 1, 0), a displacement under which nothing is rounded, has its
    vertices moved as they should be, but the normal of its last vertex is
    (0, 0, 1) where the normal of the last vertex of the unit sphere is the
    zero vector. The first z sample of [getNormal] reads [vertex.z] in the
    place of [vertex.y]. *)
Lemma translation_changes_normal :
  let delta := v32 0 1 0 in
  let moved_sphere := SphereNode (shift delta (v32 0 0 0)) (f32 1) in
  option_map (fun m => (fst (fst m), nth 5 (snd (fst m)) (v32 0 0 0)))
    (mesh_of (calculate [unit_sphere] (f32 1) 0 half32 fresh))
  = Some ([v32 0 0 (-1); v32 0 (-1) 0; v32 (-1) 0 0; v32 1 0 0; v32 0 1 0; v32 0 0 1],
          v32 0 0 0)
  /\ option_map (fun m => (fst (fst m), nth 5 (snd (fst m)) (v32 0 0 0)))
       (mesh_of (calculate [moved_sphere] (f32 1) 0 half32 fresh))
     = Some ([v32 0 1 (-1); v32 0 0 0; v32 (-1) 1 0; v32 1 1 0; v32 0 2 0; v32 0 1 1],
             v32 0 0 1).
Proof. split; vm_compute; reflexivity. Qed.

Lemma calculate_empty_skeleton_gives_empty_mesh_witness :
  exists s',
    calculate [] (f32 1) 0 half32 fresh = Ok s'
    /\ mVertices s' = [] /\ mNormals s' = [] /\ mTriangles s' = [].
Proof.
  apply (calculate_empty_skeleton_gives_empty_mesh (RA := binary32) (HD := reference_header)).
  - vm_compute. reflexivity.
  - simpl. lia.
Defined.

Lemma getMapIndex_round_trip_witness :
  0 <= getMapIndex 1 2 3 4 5 6 < 4 * 5 * 6
  /\ getMapIndex 1 2 3 4 5 6 mod 4 = 1
  /\ (getMapIndex 1 2 3 4 5 6 / 4) mod 5 = 2
  /\ getMapIndex 1 2 3 4 5 6 / (4 * 5) = 3
  /\ 0 <= 3 * 4 <= 3 * 4 * 5
  /\ 3 * 4 * 5 <= 3 * 4 * 5 + 2 * 4 <= getMapIndex 1 2 3 4 5 6.
Proof. apply (getMapIndex_round_trip 1 2 3 4 5 6); lia. Defined.

(** The tables of the reference fit together; the grid of the unit sphere
    is representable under the cube size 1 and is not under the cube size
    2^-40. *)
Lemma generateObject_faults_only_on_grid_size_witness :
  (exists s', generateObject (boxed [unit_sphere] (f32 1) half32) = Ok s')
  /\ generateObject (boxed [unit_sphere] minute32 half32) = Fault.
Proof.
  split.
  - apply (generateObject_faults_only_on_grid_size (RA := binary32) (HD := reference_header)
             ltac:(vm_compute; reflexivity)).
    right. vm_compute. reflexivity.
  - apply (generateObject_faults_only_on_grid_size (RA := binary32) (HD := reference_header)
             ltac:(vm_compute; reflexivity)); vm_compute; reflexivity.
Defined.

(** X7 on runs in binary32: over the box of the unit sphere, [update]
    returns under the cube size 1 and faults under the cube size 2^-10, where
    the size of the scalar field is not an [int]. *)
Lemma update_returns_on_representable_grid_witness :
  (update [unit_sphere] (boxed [unit_sphere] (f32 1) half32) <> AssertFail
   /\ exists s', update [unit_sphere] (boxed [unit_sphere] (f32 1) half32) = Ok s')
  /\ update [unit_sphere] (boxed [unit_sphere] fine32 half32) = Fault.
Proof.
  split.
  - destruct (update_returns_on_representable_grid (RA := binary32) (HD := reference_header)
                [unit_sphere] (boxed [unit_sphere] (f32 1) half32)) as [H _].
    destruct H as [H1 H2]; [right; vm_compute; reflexivity|].
    split; [exact H1|apply H2; vm_compute; reflexivity].
  - apply (update_returns_on_representable_grid (RA := binary32) (HD := reference_header)
             [unit_sphere] (boxed [unit_sphere] fine32 half32));
      vm_compute; reflexivity.
Defined.

Lemma repeated_update_repeats_triangles_witness :
  exists s1 s2,
    calculate [unit_sphere] (f32 1) 0 half32 fresh = Ok s1
    /\ run [Update [unit_sphere]; Update [unit_sphere]] s1 = Ok s2
    /\ mVertices s2 = [] /\ mNormals s2 = []
    /\ mTriangles s2 = mTriangles s1 ++ mTriangles s1 ++ mTriangles s1
    /\ length (mTriangles s1) = 8%nat.
Proof.
  assert (M : option_map (fun m => length (snd m))
                (mesh_of (calculate [unit_sphere] (f32 1) 0 half32 fresh)) = Some 8%nat)
    by (vm_compute; reflexivity).
  destruct (calculate [unit_sphere] (f32 1) 0 half32 fresh) as [s1| |] eqn:E;
    [|exfalso; cbn [mesh_of option_map] in M; discriminate M..].
  destruct (repeated_update_repeats_triangles (RA := binary32) (HD := reference_header)
              [unit_sphere] (f32 1) 0 half32 fresh s1 1 ltac:(discriminate) E)
    as (s2 & Hrun & Hv & Hn & Ht).
  exists s1, s2. split; [reflexivity|]. split; [exact Hrun|].
  split; [exact Hv|]. split; [exact Hn|]. split.
  - rewrite Ht. cbn [repeat concat]. rewrite app_nil_r. reflexivity.
  - cbn [mesh_of option_map snd] in M. inversion M. reflexivity.
Defined.

Lemma bounding_box_encloses_nodes_witness :
  encloses (bounding_box [tight_sphere; unit_sphere; tight_sphere]) unit_sphere
  /\ bounding_box [tight_sphere; unit_sphere; tight_sphere]
     = (v32 (-1) (-1) (-1), mkVector3 (B32.add below_one32 below_one32)
                                      (B32.add below_one32 below_one32)
                                      (B32.add below_one32 below_one32)).
Proof.
  split.
  - apply (bounding_box_encloses_nodes (RA := binary32) binary32_lt_irrefl binary32_lt_trans).
    right. left. reflexivity.
  - vm_compute. reflexivity.
Defined.

Lemma calculate_reads_first_node_and_box_witness :
  outcome_rel same_mesh
    (calculate [unit_sphere] (f32 1) 0 half32 fresh)
    (calculate [unit_sphere; inner_sphere; inner_sphere] (f32 1) 0 half32 fresh).
Proof.
  apply (calculate_reads_first_node_and_box (RA := binary32) (HD := reference_header)).
  vm_compute. reflexivity.
Defined.


(** ** A node without extent *)

(** X19: in binary32 a node of radius +0 adds nothing to the scalar
    field: wherever [IsoValue] is sampled, if the distance to the node is
    not below zero (a not-a-number included), the quotient of the distance
    by the radius is infinite or not a number, the test [r <= 1] fails and
    the potential stays 0. *)
Theorem IsoValue_zero_radius :
  forall (node : @SkeletonNode spec_float) (rest : list SkeletonNode) (pos : Vector3),
    radius node = f32 0 ->
    SFltb (getDistanceTo node pos) (f32 0) = false ->
    IsoValue (RA := binary32) (node :: rest) pos = f32 0.
Proof.
  intros node rest pos Hrad Hdist.
  cbn [IsoValue fadd fsub fmul fdiv fle fpow float_of_int binary32].
  rewrite Hrad.
  replace (SFleb (B32.div (getDistanceTo node pos) (f32 0)) (B32.of_int 1)) with false;
    [reflexivity|].
  destruct (getDistanceTo node pos) as [s|s| |s m e]; try reflexivity;
    destruct s; try reflexivity; discriminate Hdist.
Qed.

Lemma IsoValue_zero_radius_witness :
  IsoValue [SphereNode (v32 0 0 0) (f32 0); unit_sphere] (v32 0 0 0) = f32 0
  /\ IsoValue [SphereNode (v32 0 0 0) (f32 0); unit_sphere] (v32 1 2 3) = f32 0.
Proof.
  split; apply IsoValue_zero_radius; vm_compute; reflexivity.
Defined.
